(** * EsriImageServerTerrainProvider: a shallow embedding

    Source: [Source/Scene/EsriImageServerTerrainProvider.js].

    The provider turns a tile address [(level, x, y)] into a raster request
    against an ArcGIS ImageServer and, once the image has arrived, hands the
    pixels to the heightmap tessellator and attaches the resulting buffers to
    the tile.

    JavaScript values are modelled as follows.
    - A Number is an element of a type [N] carrying the operations of the
      class [JSNumber].  The instance is IEEE 754 binary64 (the Standard
      Library's executable [spec_float] operations), which is what a
      JavaScript engine computes.  Properties that only depend on the shape
      of the computation are proved for every instance; order properties are
      proved in binary64, from the fact that each operation returns the
      double nearest to the exact result, which is proved below.
    - The operands of [<<] are 32-bit integers: [Z] with the wrap-around
      written out.
    - A property that may be [undefined] is an [option].
    - A thrown exception is the left injection of a sum.
    - A promise is a value of [Promise]; the asynchronous part of
      [createTileEllipsoidGeometry] is a transition system driven by the
      outcome of the image request. *)

From Stdlib Require Import ZArith QArith Qround Qabs Lqa Lia Bool List.
From Stdlib Require Import String Ascii DecimalString.
From Stdlib Require Import Floats.SpecFloat.
Import ListNotations.

Local Open Scope string_scope.
Local Open Scope Z_scope.

(** ** Numbers *)

(** Arithmetic on JavaScript Numbers, as far as the provider uses it. *)
Class JSNumber (N : Type) : Type := {
  ofInt : Z -> N;
  nadd : N -> N -> N;
  nsub : N -> N -> N;
  nmul : N -> N -> N;
  ndiv : N -> N -> N;
  nneg : N -> N
}.

(** [Number::toString], used when a Number is concatenated to a string. *)
Class JSToString (N : Type) : Type := {
  numberToString : N -> string
}.

(** *** 32-bit integer operations *)

Definition ToInt32 (z : Z) : Z :=
  let m := z mod 2 ^ 32 in
  if 2 ^ 31 <=? m then m - 2 ^ 32 else m.

Definition ToUint32 (z : Z) : Z := z mod 2 ^ 32.

(** [a << b]: the left operand is converted with ToInt32, the shift count is
    the low five bits of the right operand, the result is a signed 32-bit
    integer. *)
Definition shiftLeft (a b : Z) : Z :=
  ToInt32 (Z.shiftl (ToInt32 a) (Z.land (ToUint32 b) 31)).

(** *** IEEE 754 binary64 *)

Module Binary64.

Definition prec : Z := 53.
Definition emax : Z := 1024.

Definition ofInt (z : Z) : spec_float := binary_normalize prec emax z 0 false.

Definition qltb (a b : Q) : bool := negb (Qle_bool b a).

Definition pow2 (e : Z) : Q :=
  if 0 <=? e then inject_Z (2 ^ e) else / inject_Z (2 ^ (- e)).

Definition pow10 (e : Z) : Q :=
  if 0 <=? e then inject_Z (10 ^ e) else / inject_Z (10 ^ (- e)).

(** The value of the finite double with mantissa [m] and exponent [e]. *)
Definition magnitude (m : positive) (e : Z) : Q := (inject_Z (Zpos m) * pow2 e)%Q.

(** The set of reals that round to the double [m * 2^e] (round to nearest,
    ties to even): half the distance to each neighbour, the end points
    included when the mantissa is even. *)
Definition roundsTo (m : positive) (e : Z) (d : Q) : bool :=
  let v := magnitude m e in
  let up := pow2 (e - 1) in
  let down :=
    if andb (Pos.eqb m (2 ^ 52)) (SpecFloat.emin prec emax <? e)
    then pow2 (e - 2) else pow2 (e - 1) in
  let lo := (v - down)%Q in
  let hi := (v + up)%Q in
  if Z.even (Zpos m)
  then andb (Qle_bool lo d) (Qle_bool d hi)
  else andb (qltb lo d) (qltb d hi).

(** The integer [n] with [10^(n-1) <= v < 10^n], from an estimate. *)
Fixpoint decimalExponent (fuel : nat) (v : Q) (n : Z) : Z :=
  match fuel with
  | O => n
  | S fuel' =>
      if qltb v (pow10 (n - 1)) then decimalExponent fuel' v (n - 1)
      else if Qle_bool (pow10 n) v then decimalExponent fuel' v (n + 1)
      else n
  end.

Definition closer (v : Q) (q : Z) (s1 s2 : Z) : Z :=
  let d1 := Qabs (inject_Z s1 * pow10 q - v)%Q in
  let d2 := Qabs (inject_Z s2 * pow10 q - v)%Q in
  if qltb d1 d2 then s1
  else if qltb d2 d1 then s2
  else if Z.even s1 then s1 else s2.

(** The shortest digit string [s] (as an integer of [k] digits, [k] counted
    from 1) such that [s * 10^(n-k)] rounds to the double. *)
Fixpoint shortestDigits (fuel : nat) (m : positive) (e : Z) (n k : Z) : Z * Z :=
  let v := magnitude m e in
  let q := n - k in
  let s1 := Qfloor (v / pow10 q)%Q in
  let s2 := s1 + 1 in
  let ok1 := roundsTo m e (inject_Z s1 * pow10 q)%Q in
  let ok2 := roundsTo m e (inject_Z s2 * pow10 q)%Q in
  match fuel with
  | O => (s1, k)
  | S fuel' =>
      if andb ok1 ok2 then (closer v q s1 s2, k)
      else if ok1 then (s1, k)
      else if ok2 then (s2, k)
      else shortestDigits fuel' m e n (k + 1)
  end.

Definition digitsOf (z : Z) : string := NilZero.string_of_int (Z.to_int z).

Fixpoint zeros (n : nat) : string :=
  match n with
  | O => EmptyString
  | S n' => "0" ++ zeros n'
  end.

Fixpoint stripZeros (rev : list ascii) : list ascii :=
  match rev with
  | "0"%char :: rest => stripZeros rest
  | _ => rev
  end.

Definition trimTrailingZeros (s : string) : string :=
  string_of_list_ascii (List.rev (stripZeros (List.rev (list_ascii_of_string s)))).

(** The decimal layout of Number::toString for the digits [d] and the
    position [n] of the decimal point. *)
Definition layout (d : string) (n : Z) : string :=
  let k := Z.of_nat (String.length d) in
  if andb (k <=? n) (n <=? 21) then d ++ zeros (Z.to_nat (n - k))
  else if andb (0 <? n) (n <=? 21)
  then substring 0 (Z.to_nat n) d ++ "." ++ substring (Z.to_nat n) (Z.to_nat (k - n)) d
  else if andb (-6 <? n) (n <=? 0)
  then "0." ++ zeros (Z.to_nat (- n)) ++ d
  else
    let ex := n - 1 in
    let sign := if 0 <=? ex then "+" else "-" in
    let mant :=
      if k =? 1 then d
      else substring 0 1 d ++ "." ++ substring 1 (Z.to_nat (k - 1)) d in
    mant ++ "e" ++ sign ++ digitsOf (Z.abs ex).

Definition finiteToString (m : positive) (e : Z) : string :=
  let v := magnitude m e in
  let n0 := ((Zpos (digits2_pos m) + e) * 30103) / 100000 in
  let n := decimalExponent 8 v n0 in
  let '(s, k) := shortestDigits 17 m e n 1 in
  let d := digitsOf s in
  let n' := n + (Z.of_nat (String.length d) - k) in
  layout (trimTrailingZeros d) n'.

Definition toString (x : spec_float) : string :=
  match x with
  | S754_nan => "NaN"
  | S754_zero _ => "0"
  | S754_infinity false => "Infinity"
  | S754_infinity true => "-Infinity"
  | S754_finite s m e => (if s then "-" else EmptyString) ++ finiteToString m e
  end.

End Binary64.

#[export] Instance Binary64_JSNumber : JSNumber spec_float := {|
  ofInt := Binary64.ofInt;
  nadd := SFadd Binary64.prec Binary64.emax;
  nsub := SFsub Binary64.prec Binary64.emax;
  nmul := SFmul Binary64.prec Binary64.emax;
  ndiv := SFdiv Binary64.prec Binary64.emax;
  nneg := SFopp
|}.

#[export] Instance Binary64_JSToString : JSToString spec_float := {|
  numberToString := Binary64.toString
|}.

(** ** Data model *)

(** Exceptions.  [DeveloperError] is the one the provider throws itself;
    [HostError] stands for whatever a collaborator (image loading, the
    canvas, the tessellator) raises. *)
Inductive Error : Type :=
| DeveloperError (message : string)
| HostError (name : string).

Inductive Promise (A : Type) : Type :=
| Pending
| Resolved (value : A)
| Rejected (reason : Error).
Arguments Pending {A}.
Arguments Resolved {A} value.
Arguments Rejected {A} reason.

Inductive Projections : Type := WGS84 | MERCATOR.

Module Cartesian3.
Record t (N : Type) : Type := { x : N; y : N; z : N }.
Arguments x {N} _.
Arguments y {N} _.
Arguments z {N} _.
End Cartesian3.

Module Ellipsoid.
Record t (N : Type) : Type := { getRadii : Cartesian3.t N }.
Arguments getRadii {N} _.
End Ellipsoid.

Module Extent.
Record t (N : Type) : Type := { west : N; south : N; east : N; north : N }.
Arguments west {N} _.
Arguments south {N} _.
Arguments east {N} _.
Arguments north {N} _.
End Extent.

Module BoundingSphere.
Record t (N : Type) : Type := { center : Cartesian3.t N; radius : N }.
Arguments center {N} _.
Arguments radius {N} _.
End BoundingSphere.

(** The part of a tiling scheme the provider reads, and its extent. *)
Module TilingScheme.
Record t (N : Type) : Type := {
  numberOfLevelZeroTilesX : Z;
  numberOfLevelZeroTilesY : Z;
  ellipsoid : Ellipsoid.t N;
  extent : Extent.t N;
  getLevelMaximumGeometricError : Z -> N
}.
Arguments numberOfLevelZeroTilesX {N} _.
Arguments numberOfLevelZeroTilesY {N} _.
Arguments ellipsoid {N} _.
Arguments extent {N} _.
Arguments getLevelMaximumGeometricError {N} _ _.
End TilingScheme.

(** What [HeightmapTessellator.computeBuffers] returns. *)
Module Buffers.
Record t (N : Type) : Type := { vertices : list N; indices : list Z }.
Arguments vertices {N} _.
Arguments indices {N} _.
End Buffers.

Module Image.
Record t : Type := { width : Z; height : Z; src : string }.
End Image.

(** A tile: its address, its stored extent and bounding sphere, and its
    geometry state. *)
Module Tile.
Record t (N : Type) : Type := {
  level : Z;
  x : Z;
  y : Z;
  extent : Extent.t N;
  get3DBoundingSphere : BoundingSphere.t N;
  geometryReady : bool;
  mesh : option (Buffers.t N)
}.
Arguments level {N} _.
Arguments x {N} _.
Arguments y {N} _.
Arguments extent {N} _.
Arguments get3DBoundingSphere {N} _.
Arguments geometryReady {N} _.
Arguments mesh {N} _.
End Tile.

Module Proxy.
Record t : Type := { getURL : string -> string }.
End Proxy.

(** The argument of the constructor. *)
Module Description.
Record t : Type := {
  url : option string;
  token : option string;
  proxy : option Proxy.t
}.
Definition empty : t := {| url := None; token := None; proxy := None |}.
End Description.

Module Provider.
Record t (N : Type) : Type := {
  url : string;
  token : option string;
  tilingScheme : TilingScheme.t N;
  projection : Projections;
  maxLevel : Z;
  _proxy : option Proxy.t;
  _logo : option string;
  ready : option bool
}.
Arguments url {N} _.
Arguments token {N} _.
Arguments tilingScheme {N} _.
Arguments projection {N} _.
Arguments maxLevel {N} _.
Arguments _proxy {N} _.
Arguments _logo {N} _.
Arguments ready {N} _.
End Provider.

(** The rendering context handed to the provider, and the 2D context of the
    scratch canvas the image is copied to. *)
Inductive Context : Type :=
| RenderContext
| Canvas2D (width height : Z).

(** The description passed to [HeightmapTessellator.computeBuffers]. *)
Module HeightmapDescription.
Record t (N : Type) : Type := {
  heightmap : list Z;
  heightScale : N;
  heightOffset : N;
  bytesPerHeight : Z;
  strideBytes : Z;
  ellipsoid : Ellipsoid.t N;
  extent : Extent.t N;
  generateTextureCoords : bool;
  interleave : bool;
  relativeToCenter : Cartesian3.t N
}.
Arguments heightmap {N} _.
Arguments heightScale {N} _.
Arguments heightOffset {N} _.
Arguments bytesPerHeight {N} _.
Arguments strideBytes {N} _.
Arguments ellipsoid {N} _.
Arguments extent {N} _.
Arguments generateTextureCoords {N} _.
Arguments interleave {N} _.
Arguments relativeToCenter {N} _.
End HeightmapDescription.

(** ** Collaborators that are not part of this file

    [Core/Math] (three constants), the default [GeographicTilingScheme], the
    canvas read-back of an image and [HeightmapTessellator.computeBuffers]
    are taken as parameters. *)
Module Host.
Record t (N : Type) : Type := {
  PI : N;
  PI_OVER_TWO : N;
  TWO_PI : N;
  GeographicTilingScheme : TilingScheme.t N;
  getImageData : Image.t -> Error + list Z;
  computeBuffers : HeightmapDescription.t N -> Error + Buffers.t N
}.
Arguments PI {N} _.
Arguments PI_OVER_TWO {N} _.
Arguments TWO_PI {N} _.
Arguments GeographicTilingScheme {N} _.
Arguments getImageData {N} _ _.
Arguments computeBuffers {N} _ _.
End Host.

(** ** Effects

    A computation of type [Eff S A] runs against a mutable object of type
    [S] (here: the tile it was handed).  It either returns a value or throws,
    and in both cases leaves the object in some state. *)
Definition Eff (S A : Type) : Type := S -> (Error + A) * S.

Definition ret {S A : Type} (a : A) : Eff S A := fun s => (inr a, s).

Definition throw {S A : Type} (e : Error) : Eff S A := fun s => (inl e, s).

Definition bind {S A B : Type} (c : Eff S A) (k : A -> Eff S B) : Eff S B :=
  fun s =>
    match c s with
    | (inl e, s') => (inl e, s')
    | (inr a, s') => k a s'
    end.

Definition get {S : Type} : Eff S S := fun s => (inr s, s).

Definition modify {S : Type} (f : S -> S) : Eff S unit := fun s => (inr tt, f s).

(** A call of a collaborator that may throw and does not touch the object. *)
Definition call {S A : Type} (r : Error + A) : Eff S A := fun s => (r, s).

Notation "x <- c ;; k" := (bind c (fun x => k))
  (at level 61, c at next level, right associativity).
Notation "c ;; k" := (bind c (fun _ => k))
  (at level 61, right associativity).

(** ** The provider *)

Definition defaultValue {A : Type} (a : option A) (b : A) : A :=
  match a with
  | Some v => v
  | None => b
  end.

(** Truthiness of a property that is either [undefined] or a string. *)
Definition truthy (s : option string) : bool :=
  match s with
  | None => false
  | Some EmptyString => false
  | Some _ => true
  end.

(** ToString of such a property, as applied by string concatenation. *)
Definition ToString (s : option string) : string :=
  match s with
  | None => "undefined"
  | Some v => v
  end.

(** The local variables of [createTileEllipsoidGeometry] up to the point
    where the image request is issued. *)
Module Locals.
Record t (N : Type) : Type := {
  tilesInXDirection : Z;
  tilesInYDirection : Z;
  xDelta : N;
  yDelta : N;
  tileY : N;
  xStart : N;
  xStop : N;
  yStart : N;
  yStop : N;
  bbox : string;
  url : string
}.
Arguments tilesInXDirection {N} _.
Arguments tilesInYDirection {N} _.
Arguments xDelta {N} _.
Arguments yDelta {N} _.
Arguments tileY {N} _.
Arguments xStart {N} _.
Arguments xStop {N} _.
Arguments yStart {N} _.
Arguments yStop {N} _.
Arguments bbox {N} _.
Arguments url {N} _.
End Locals.

(** One invocation of [createTileEllipsoidGeometry]: the arguments of
    [loadImage], the tile object, and the promise returned to the caller. *)
Module Pipeline.
Record t (N : Type) : Type := {
  requestUrl : string;
  crossOrigin : bool;
  tile : Tile.t N;
  handle : Promise bool
}.
Arguments requestUrl {N} _.
Arguments crossOrigin {N} _.
Arguments tile {N} _.
Arguments handle {N} _.
End Pipeline.

(** How the image request ends. *)
Inductive Outcome : Type :=
| ImageLoaded (image : Image.t)
| ImageFailed (reason : Error).

Section Provider.

Context {N : Type} {num : JSNumber N}.
Variable host : Host.t N.

(** The constructor.  The metadata request it issues completes later, see
    [metadataLoaded]. *)
Definition EsriImageServerTerrainProvider (description : option Description.t)
  : Error + Provider.t N :=
  let description := defaultValue description Description.empty in
  match Description.url description with
  | None => inl (DeveloperError "description.url is required.")
  | Some url =>
      inr {| Provider.url := url;
             Provider.token := Description.token description;
             Provider.tilingScheme := Host.GeographicTilingScheme host;
             Provider.projection := WGS84;
             Provider.maxLevel := 25;
             Provider._proxy := Description.proxy description;
             Provider._logo := None;
             Provider.ready := None |}
  end.

(** The continuation of the metadata request: the copyright text is drawn
    on a canvas kept in [_logo], and [ready] is set. *)
Definition metadataLoaded (that : Provider.t N) (copyrightText : string)
  : Provider.t N :=
  {| Provider.url := Provider.url that;
     Provider.token := Provider.token that;
     Provider.tilingScheme := Provider.tilingScheme that;
     Provider.projection := Provider.projection that;
     Provider.maxLevel := Provider.maxLevel that;
     Provider._proxy := Provider._proxy that;
     Provider._logo := Some copyrightText;
     Provider.ready := Some true |}.

Definition computeDesiredGranularity (tilingScheme : TilingScheme.t N)
  (tile : Tile.t N) : N :=
  let ellipsoid := TilingScheme.ellipsoid tilingScheme in
  let level := Tile.level tile in
  let maxErrorMeters :=
    TilingScheme.getLevelMaximumGeometricError tilingScheme level in
  let maxErrorRadians :=
    ndiv maxErrorMeters (Cartesian3.x (Ellipsoid.getRadii ellipsoid)) in
  maxErrorRadians.

Section Request.

Context {str : JSToString N}.

(** [createTileEllipsoidGeometry], from its first statement to the url that
    is passed to [loadImage]. *)
Definition locals (this : Provider.t N) (tile : Tile.t N) : Locals.t N :=
  let tilingScheme := Provider.tilingScheme this in
  let level := Tile.level tile in
  let tilesInXDirection :=
    shiftLeft (TilingScheme.numberOfLevelZeroTilesX tilingScheme) level in
  let tilesInYDirection :=
    shiftLeft (TilingScheme.numberOfLevelZeroTilesY tilingScheme) level in
  let xDelta := ndiv (Host.TWO_PI host) (ofInt tilesInXDirection) in
  let yDelta := ndiv (Host.PI host) (ofInt tilesInYDirection) in
  let tileY :=
    nsub (nsub (ofInt tilesInYDirection) (ofInt (Tile.y tile))) (ofInt 1) in
  let xStart :=
    nadd (nneg (Host.PI host)) (nmul xDelta (ofInt (Tile.x tile))) in
  let xStop :=
    nadd (nneg (Host.PI host))
         (nmul xDelta (nadd (ofInt (Tile.x tile)) (ofInt 1))) in
  let yStart := nadd (nneg (Host.PI_OVER_TWO host)) (nmul yDelta tileY) in
  let yStop :=
    nadd (nneg (Host.PI_OVER_TWO host)) (nmul yDelta (nadd tileY (ofInt 1))) in
  let bbox :=
    numberToString xStart ++ "%2C" ++ numberToString yStart ++ "%2C"
    ++ numberToString xStop ++ "%2C" ++ numberToString yStop in
  let url :=
    Provider.url this
    ++ "/exportImage?format=tiff&f=image&size=256%2C256&bbox=" ++ bbox in
  let url :=
    if truthy (Provider.token this)
    then url ++ "&token=" ++ ToString (Provider.token this)
    else url in
  let url :=
    match Provider._proxy this with
    | Some proxy => Proxy.getURL proxy url
    | None => url
    end in
  {| Locals.tilesInXDirection := tilesInXDirection;
     Locals.tilesInYDirection := tilesInYDirection;
     Locals.xDelta := xDelta;
     Locals.yDelta := yDelta;
     Locals.tileY := tileY;
     Locals.xStart := xStart;
     Locals.xStop := xStop;
     Locals.yStart := yStart;
     Locals.yStop := yStop;
     Locals.bbox := bbox;
     Locals.url := url |}.

End Request.

(** Modelled from the spec: [TerrainProvider.createTileEllipsoidGeometryFromBuffers]
    is not part of this file.  Following the transition "Tessellating to
    Ready" of the pipeline, it attaches the mesh buffers to the tile and sets
    the tile's readiness flag. *)
Definition createTileEllipsoidGeometryFromBuffers (context : Context)
  (tile : Tile.t N) (buffers : Buffers.t N) : Tile.t N :=
  {| Tile.level := Tile.level tile;
     Tile.x := Tile.x tile;
     Tile.y := Tile.y tile;
     Tile.extent := Tile.extent tile;
     Tile.get3DBoundingSphere := Tile.get3DBoundingSphere tile;
     Tile.geometryReady := true;
     Tile.mesh := Some buffers |}.

(** The description handed to the tessellator. *)
Definition heightmapDescription (tilingScheme : TilingScheme.t N)
  (tile : Tile.t N) (pixels : list Z) : HeightmapDescription.t N :=
  let ellipsoid := TilingScheme.ellipsoid tilingScheme in
  let extent := Tile.extent tile in
  let center := BoundingSphere.center (Tile.get3DBoundingSphere tile) in
  {| HeightmapDescription.heightmap := pixels;
     HeightmapDescription.heightScale := ofInt 1000;
     HeightmapDescription.heightOffset := ofInt 1000;
     HeightmapDescription.bytesPerHeight := 3;
     HeightmapDescription.strideBytes := 4;
     HeightmapDescription.ellipsoid := ellipsoid;
     HeightmapDescription.extent := extent;
     HeightmapDescription.generateTextureCoords := true;
     HeightmapDescription.interleave := true;
     HeightmapDescription.relativeToCenter := center |}.

(** The continuation of the image request.  The variable [context] of the
    continuation is the 2D context of the scratch canvas (it hides the
    parameter of the enclosing function), and that is what the last call
    receives. *)
Definition imageLoaded (tilingScheme : TilingScheme.t N) (image : Image.t)
  : Eff (Tile.t N) bool :=
  tile <- get ;;
  let width := Image.width image in
  let height := Image.height image in
  let context := Canvas2D width height in
  pixels <- call (Host.getImageData host image) ;;
  buffers <- call (Host.computeBuffers host
                     (heightmapDescription tilingScheme tile pixels)) ;;
  modify (fun tile => createTileEllipsoidGeometryFromBuffers context tile buffers) ;;
  ret true.

Section Geometry.

Context {str : JSToString N}.

(** The synchronous part of [createTileEllipsoidGeometry]: the request is
    issued and a pending promise is returned. *)
Definition createTileEllipsoidGeometry (this : Provider.t N)
  (context : Context) (tile : Tile.t N) : Pipeline.t N :=
  {| Pipeline.requestUrl := Locals.url (locals this tile);
     Pipeline.crossOrigin := true;
     Pipeline.tile := tile;
     Pipeline.handle := Pending |}.

End Geometry.

(** [when(promise, callback)]: the promise settles once.  When the image
    arrives the continuation runs; its value resolves the returned promise
    and an exception rejects it.  When the image request fails, the failure
    is passed on. *)
Definition settle (this : Provider.t N) (o : Outcome) (s : Pipeline.t N)
  : Pipeline.t N :=
  match Pipeline.handle s with
  | Pending =>
      match o with
      | ImageLoaded image =>
          let '(r, tile') :=
            imageLoaded (Provider.tilingScheme this) image (Pipeline.tile s) in
          {| Pipeline.requestUrl := Pipeline.requestUrl s;
             Pipeline.crossOrigin := Pipeline.crossOrigin s;
             Pipeline.tile := tile';
             Pipeline.handle :=
               match r with
               | inl e => Rejected e
               | inr v => Resolved v
               end |}
      | ImageFailed e =>
          {| Pipeline.requestUrl := Pipeline.requestUrl s;
             Pipeline.crossOrigin := Pipeline.crossOrigin s;
             Pipeline.tile := Pipeline.tile s;
             Pipeline.handle := Rejected e |}
      end
  | _ => s
  end.

(** One step of an invocation, and the states it can reach. *)
Inductive step (this : Provider.t N) : Pipeline.t N -> Pipeline.t N -> Prop :=
| step_settle : forall o s,
    Pipeline.handle s = Pending -> step this s (settle this o s).

Inductive reaches (this : Provider.t N) : Pipeline.t N -> Pipeline.t N -> Prop :=
| reaches_refl : forall s, reaches this s s
| reaches_step : forall s1 s2 s3,
    reaches this s1 s2 -> step this s2 s3 -> reaches this s1 s3.

Definition createTilePlaneGeometry (this : Provider.t N) (context : Context)
  (projection : Projections) : Eff (Tile.t N) bool :=
  throw (DeveloperError "Not supported yet.").

End Provider.

(** ** Concrete collaborators *)

(** [Math.PI] as a double: 0x400921FB54442D18. *)
Definition Math_PI : spec_float := S754_finite false 7074237752028440 (-51).

(** A canvas read-back that yields one RGBA quadruple per pixel of the image,
    all equal, and a tessellator that rejects a height map that is not a
    whole number of quadruples: enough to run the pipeline. *)
Definition sampleGetImageData (image : Image.t) : Error + list Z :=
  if String.eqb (Image.src image) EmptyString
  then inl (HostError "SecurityError")
  else inr (List.repeat 0 (Z.to_nat (4 * Image.width image * Image.height image))).

Definition sampleComputeBuffers {N : Type} (d : HeightmapDescription.t N)
  : Error + Buffers.t N :=
  if Nat.eqb (List.length (HeightmapDescription.heightmap d)) 0
  then inl (DeveloperError "description.heightmap is required.")
  else inr {| Buffers.vertices := [HeightmapDescription.heightOffset d];
              Buffers.indices := [0; 1; 2] |}.

Definition WGS84_radii {N : Type} {num : JSNumber N} : Cartesian3.t N :=
  {| Cartesian3.x := ofInt 6378137;
     Cartesian3.y := ofInt 6378137;
     Cartesian3.z := ndiv (ofInt 63567523142) (ofInt 10000) |}.

(** The default geographic scheme: two tiles by one at level zero, covering
    the whole globe; the error budget halves with each level. *)
Definition geographicScheme {N : Type} {num : JSNumber N} (pi : N)
  : TilingScheme.t N :=
  {| TilingScheme.numberOfLevelZeroTilesX := 2;
     TilingScheme.numberOfLevelZeroTilesY := 1;
     TilingScheme.ellipsoid := {| Ellipsoid.getRadii := WGS84_radii |};
     TilingScheme.extent :=
       {| Extent.west := nneg pi;
          Extent.south := nneg (nmul pi (ndiv (ofInt 1) (ofInt 2)));
          Extent.east := pi;
          Extent.north := nmul pi (ndiv (ofInt 1) (ofInt 2)) |};
     TilingScheme.getLevelMaximumGeometricError := fun level =>
       ndiv (ofInt 40075) (ofInt (2 ^ level)) |}.

Definition hostOf {N : Type} {num : JSNumber N} (pi : N) : Host.t N :=
  {| Host.PI := pi;
     Host.PI_OVER_TWO := nmul pi (ndiv (ofInt 1) (ofInt 2));
     Host.TWO_PI := nmul (ofInt 2) pi;
     Host.GeographicTilingScheme := geographicScheme pi;
     Host.getImageData := sampleGetImageData;
     Host.computeBuffers := sampleComputeBuffers |}.

(** The host as a JavaScript engine sees it. *)
Definition host64 : Host.t spec_float := hostOf Math_PI.

Definition tileAt {N : Type} {num : JSNumber N} (level x y : Z) (e : Extent.t N)
  : Tile.t N :=
  {| Tile.level := level;
     Tile.x := x;
     Tile.y := y;
     Tile.extent := e;
     Tile.get3DBoundingSphere :=
       {| BoundingSphere.center :=
            {| Cartesian3.x := ofInt 0; Cartesian3.y := ofInt 0; Cartesian3.z := ofInt 0 |};
          BoundingSphere.radius := ofInt 1 |};
     Tile.geometryReady := false;
     Tile.mesh := None |}.

(** ** Strings *)

(** Does [s] end with [suffix]; does [needle] occur in [s]. *)
Definition endsWith (s suffix : string) : bool :=
  let n := String.length s in
  let k := String.length suffix in
  andb (Nat.leb k n) (String.eqb (substring (n - k) k s) suffix).

Fixpoint includes (s needle : string) : bool :=
  orb (prefix needle s)
      match s with
      | EmptyString => false
      | String _ rest => includes rest needle
      end.

(** The request url as the interface description words it: the separator
    [sep] between the numbers, the token parameter whenever a token is
    configured, the proxy applied last. *)
Definition describedUrl (sep : string) (url west south east north : string)
  (token : option string) (proxy : option Proxy.t) : string :=
  let plain :=
    url ++ "/exportImage?format=tiff&f=image&size=256" ++ sep ++ "256&bbox="
    ++ west ++ sep ++ south ++ sep ++ east ++ sep ++ north in
  let withToken :=
    match token with
    | Some t => plain ++ "&token=" ++ t
    | None => plain
    end in
  match proxy with
  | Some p => Proxy.getURL p withToken
  | None => withToken
  end.

(** A token that takes part in the request: a non-empty string. *)
Definition effectiveToken (token : option string) : option string :=
  if truthy token then token else None.

(** What holds of every state of an invocation started on [tile0]. *)
Definition pipeline_ok {N : Type} (tile0 : Tile.t N) (s : Pipeline.t N) : Prop :=
  (Pipeline.handle s = Pending /\ Pipeline.tile s = tile0)
  \/ (exists e, Pipeline.handle s = Rejected e /\ Pipeline.tile s = tile0)
  \/ (Pipeline.handle s = Resolved true
      /\ Tile.geometryReady (Pipeline.tile s) = true
      /\ exists buffers, Tile.mesh (Pipeline.tile s) = Some buffers).

(** ** Sample inputs *)

(** The first scenario: the description holds the url and nothing else. *)
Definition scenarioDescription : Description.t :=
  {| Description.url := Some "https://example/ImageServer";
     Description.token := None;
     Description.proxy := None |}.

(** What the constructor returns for the url of the scenario and the given
    token; the providers of the scenarios and one whose token is the empty
    string. *)
Definition providerWith {N : Type} (host : Host.t N) (token : option string)
  : Provider.t N :=
  {| Provider.url := "https://example/ImageServer";
     Provider.token := token;
     Provider.tilingScheme := Host.GeographicTilingScheme host;
     Provider.projection := WGS84;
     Provider.maxLevel := 25;
     Provider._proxy := None;
     Provider._logo := None;
     Provider.ready := None |}.

Definition scenarioProvider : Provider.t spec_float := providerWith host64 None.

Definition emptyTokenDescription : Description.t :=
  {| Description.url := Some "https://example/ImageServer";
     Description.token := Some EmptyString;
     Description.proxy := None |}.

Definition emptyTokenProvider : Provider.t spec_float :=
  providerWith host64 (Some EmptyString).

Definition tokenProvider : Provider.t spec_float :=
  providerWith host64 (Some "T").

Definition globe64 : Extent.t spec_float :=
  TilingScheme.extent (Host.GeographicTilingScheme host64).

(** A degenerate extent, for a tile whose stored extent is not the cell of
    its address. *)
Definition nowhere64 : Extent.t spec_float :=
  {| Extent.west := ofInt 0;
     Extent.south := ofInt 0;
     Extent.east := ofInt 0;
     Extent.north := ofInt 0 |}.

(** An image of two by two pixels. *)
Definition sampleImage : Image.t :=
  {| Image.width := 2; Image.height := 2; Image.src := "tile.tif" |}.

(** A provider whose scheme has [n] by [n] tiles at level zero. *)
Definition squareProvider (n : Z) : Provider.t spec_float :=
  {| Provider.url := "https://example/ImageServer";
     Provider.token := None;
     Provider.tilingScheme :=
       {| TilingScheme.numberOfLevelZeroTilesX := n;
          TilingScheme.numberOfLevelZeroTilesY := n;
          TilingScheme.ellipsoid := {| Ellipsoid.getRadii := WGS84_radii |};
          TilingScheme.extent := globe64;
          TilingScheme.getLevelMaximumGeometricError := fun level =>
            ndiv (ofInt 40075) (ofInt (2 ^ level)) |};
     Provider.projection := WGS84;
     Provider.maxLevel := 25;
     Provider._proxy := None;
     Provider._logo := None;
     Provider.ready := None |}.

(** Does the character [&] occur in [s]; does it occur followed by [t]. *)
Fixpoint hasAmp (s : string) : bool :=
  match s with
  | EmptyString => false
  | String c rest => orb (Ascii.eqb c "&") (hasAmp rest)
  end.

Fixpoint ampThenT (s : string) : bool :=
  match s with
  | EmptyString => false
  | String c rest =>
      orb (andb (Ascii.eqb c "&")
                match rest with
                | String d _ => Ascii.eqb d "t"
                | EmptyString => false
                end)
          (ampThenT rest)
  end.

(** The default scheme on an ellipsoid whose radii are all [r]. *)
Definition schemeOfRadius (r : spec_float) : TilingScheme.t spec_float :=
  {| TilingScheme.numberOfLevelZeroTilesX := 2;
     TilingScheme.numberOfLevelZeroTilesY := 1;
     TilingScheme.ellipsoid :=
       {| Ellipsoid.getRadii :=
            {| Cartesian3.x := r; Cartesian3.y := r; Cartesian3.z := r |} |};
     TilingScheme.extent := globe64;
     TilingScheme.getLevelMaximumGeometricError := fun level =>
       ndiv (ofInt 40075) (ofInt (2 ^ level)) |}.

(** A double that is finite and greater than zero. *)
Definition positiveFinite (f : spec_float) : bool :=
  match f with
  | S754_finite false _ _ => true
  | _ => false
  end.

(** ** Binary64 values and correct rounding

    The operations of [SpecFloat] are given as programs on mantissas and
    exponents.  The definitions below say what they compute: the value of a
    double as a rational, and the relation between an exact result and the
    double that is returned for it (round to nearest, ties to even, with
    gradual underflow and overflow to an infinity). *)

(** The exponent of the doubles with magnitude in [[2^(k-1), 2^k)]. *)
Definition fexp64 (k : Z) : Z := Z.max (k - 53) (-1074).

(** The position of the fraction [r / B] with respect to one half. *)
Definition locOf (r B : Z) : location :=
  if r =? 0 then loc_Exact else loc_Inexact (2 * r ?= B).

(** The shift record [mrs] stands for the fraction [A / B]: its mantissa is
    the integer part, its two bits locate the rest. *)
Definition rrep (A B : Z) (mrs : shr_record) : Prop :=
  shr_m mrs = A / B /\ loc_of_shr_record mrs = locOf (A mod B) B.

(** [n] is the integer nearest to [A / D], the even one in a tie. *)
Definition NearZ (A D n : Z) : Prop :=
  A / D <= n <= A / D + 1
  /\ 2 * Z.abs (n * D - A) <= D
  /\ (2 * Z.abs (n * D - A) = D -> Z.even n = true).

(** The double of sign [s] for the rounded mantissa [n] at exponent [c]. *)
Definition mkfloat (s : bool) (n c : Z) : spec_float :=
  if n =? 0 then S754_zero s
  else if n =? 2 ^ 53
       then if c + 1 <=? 971 then S754_finite s (2 ^ 52)%positive (c + 1)
            else S754_infinity s
       else if c <=? 971 then S754_finite s (Z.to_pos n) c
            else S754_infinity s.

(** [v] lies in the binade [[2^(k-1), 2^k)]. *)
Definition mag (k : Z) (v : Q) : Prop := (Binary64.pow2 (k - 1) <= v < Binary64.pow2 k)%Q.

(** [n] is the integer nearest to [rho], the even one in a tie. *)
Definition Near (rho : Q) (n : Z) : Prop :=
  (Qabs (inject_Z n - rho) <= 1 # 2)%Q
  /\ ((Qabs (inject_Z n - rho) == 1 # 2)%Q -> Z.even n = true).

(** The positive real [v] rounds to [n * 2^c]: [c] is the exponent of the
    binade of [v] and [n] is the nearest mantissa. *)
Definition Rounded (v : Q) (n c : Z) : Prop :=
  exists k, mag k v /\ c = fexp64 k /\ Near (v / Binary64.pow2 c) n.

(** The value of a double; an infinity or NaN has none and is given 0. *)
Definition F2Q (f : spec_float) : Q :=
  match f with
  | S754_finite s m e =>
      if s then (- (inject_Z (Zpos m) * Binary64.pow2 e))%Q else (inject_Z (Zpos m) * Binary64.pow2 e)%Q
  | _ => 0%Q
  end.

(** Finite doubles, the zeros included. *)
Definition finz (f : spec_float) : bool :=
  match f with
  | S754_zero _ | S754_finite _ _ _ => true
  | _ => false
  end.

(** The representation invariant of [spec_float]: the mantissa of a finite
    double has 53 bits, or fewer at the least exponent, and the exponent is
    in range.  Every double is of this form, and the operations preserve
    it. *)
Definition valid64 (f : spec_float) : Prop := valid_binary 53 1024 f = true.

Definition signed (s : bool) (q : Q) : Q := if s then (- q)%Q else q.

(** The real [v] rounds to the real [r], whatever the exponent range. *)
Definition Rnd (v r : Q) : Prop :=
  (v == 0 /\ r == 0)%Q
  \/ ((0 < v)%Q /\ exists n c, Rounded v n c /\ (r == inject_Z n * Binary64.pow2 c)%Q)
  \/ ((v < 0)%Q /\ exists n c, Rounded (- v) n c /\ (r == - (inject_Z n * Binary64.pow2 c))%Q).

(** [g] is representable: it rounds to itself. *)
Definition Fmt (g : Q) : Prop := Rnd g g.

(** [f] is the double returned for the exact result [v]: the rounded value
    when that is below [2^1024], an infinity otherwise. *)
Definition Res (v : Q) (f : spec_float) : Prop :=
  valid64 f
  /\ exists r, Rnd v r
     /\ (((Qabs r < Binary64.pow2 1024)%Q /\ finz f = true /\ (F2Q f == r)%Q)
         \/ ((Binary64.pow2 1024 <= r)%Q /\ f = S754_infinity false)
         \/ ((r <= - Binary64.pow2 1024)%Q /\ f = S754_infinity true)).

(** The double [f] holds the integer [z]. *)
Definition holds (z : Z) (f : spec_float) : Prop :=
  finz f = true /\ valid64 f /\ (F2Q f == inject_Z z)%Q.

(** The edge [- base + delta * k] of a cell, as the provider computes it. *)
Definition edge (base delta kf : spec_float) : spec_float :=
  SFadd 53 1024 (SFopp base) (SFmul 53 1024 delta kf).

Ltac hide_pos :=
  repeat match goal with
  | H : context [inject_Z (Z.pos ?m)] |- _ =>
      is_var m; let q := fresh "q" in set (q := inject_Z (Z.pos m)) in *; clearbody q
  | |- context [inject_Z (Z.pos ?m)] =>
      is_var m; let q := fresh "q" in set (q := inject_Z (Z.pos m)) in *; clearbody q
  end.

(** ** Auxiliary facts *)

(** The shift wraps around at 32 bits and takes the count modulo 32. *)
Example shiftLeft_samples :
  shiftLeft 2 0 = 2 /\ shiftLeft 1 25 = 33554432
  /\ shiftLeft 2 30 = -2147483648 /\ shiftLeft 1 31 = -2147483648
  /\ shiftLeft 2 31 = 0 /\ shiftLeft 1 32 = 1.
Proof.
  repeat split.
Qed.

(** Number::toString on a few doubles. *)
Example toString_samples :
  numberToString Math_PI = "3.141592653589793"
  /\ numberToString (ndiv Math_PI (Binary64.ofInt 2)) = "1.5707963267948966"
  /\ numberToString (nadd (ndiv (Binary64.ofInt 1) (Binary64.ofInt 10)) (ndiv (Binary64.ofInt 2) (Binary64.ofInt 10)))
     = "0.30000000000000004"
  /\ numberToString (ndiv (Binary64.ofInt 1) (Binary64.ofInt 10000000)) = "1e-7"
  /\ numberToString (Binary64.ofInt (10 ^ 21)) = "1e+21"
  /\ numberToString (Binary64.ofInt 123456789012345678) = "123456789012345680"
  /\ numberToString (S754_finite false 1 (-1074)) = "5e-324"
  /\ numberToString (ndiv (Binary64.ofInt 1) (Binary64.ofInt 0)) = "Infinity"
  /\ numberToString (nmul (ndiv (Binary64.ofInt 1) (Binary64.ofInt 0)) (Binary64.ofInt 0)) = "NaN".
Proof.
  vm_compute. repeat split.
Qed.

(** On the default scheme no level up to [maxLevel] overflows. *)
Lemma default_scheme_fits (level : Z) :
  0 <= level <= 25 -> 0 <= level < 32 /\ 2 * 2 ^ level < 2 ^ 31 /\ 1 * 2 ^ level < 2 ^ 31.
Proof.
  intros H.
  assert (Hp : 2 ^ level <= 2 ^ 25) by (apply Z.pow_le_mono_r; lia).
  change (2 ^ 25) with 33554432 in Hp.
  change (2 ^ 31) with 2147483648.
  lia.
Qed.

Lemma append_assoc (a b c : string) : (a ++ b) ++ c = a ++ (b ++ c).
Proof.
  induction a as [|ch a IH]; simpl; [reflexivity | now rewrite IH].
Qed.

Lemma append_nil_r (a : string) : a ++ EmptyString = a.
Proof.
  induction a as [|ch a IH]; simpl; [reflexivity | now rewrite IH].
Qed.

Lemma length_append (a b : string) :
  String.length (a ++ b) = (String.length a + String.length b)%nat.
Proof.
  induction a as [|ch a IH]; simpl; [reflexivity | now rewrite IH].
Qed.

Lemma substring_skip (a b : string) :
  substring (String.length a) (String.length b) (a ++ b) = b.
Proof.
  induction a as [|ch a IH]; simpl.
  - induction b as [|c b IHb]; simpl; [reflexivity | now rewrite IHb].
  - exact IH.
Qed.

Lemma endsWith_append (a b : string) : endsWith (a ++ b) b = true.
Proof.
  unfold endsWith.
  rewrite length_append.
  replace (String.length a + String.length b - String.length b)%nat
    with (String.length a) by lia.
  rewrite substring_skip, String.eqb_refl, andb_true_r.
  apply Nat.leb_le; lia.
Qed.

Lemma ToInt32_small (z : Z) : - 2 ^ 31 <= z < 2 ^ 31 -> ToInt32 z = z.
Proof.
  intros Hz. unfold ToInt32.
  destruct (Z_lt_le_dec z 0) as [Hneg | Hpos].
  - replace (z mod 2 ^ 32) with (z + 2 ^ 32).
    + destruct (2 ^ 31 <=? z + 2 ^ 32) eqn:E; [lia |].
      apply Z.leb_gt in E. lia.
    + apply Z.mod_unique with (q := -1); lia.
  - rewrite Z.mod_small by lia.
    destruct (2 ^ 31 <=? z) eqn:E; [| reflexivity].
    apply Z.leb_le in E. lia.
Qed.

(** As long as nothing overflows, [a << b] is [a * 2^b]. *)
Lemma shiftLeft_exact (a b : Z) :
  0 <= a -> 0 <= b < 32 -> a * 2 ^ b < 2 ^ 31 -> shiftLeft a b = a * 2 ^ b.
Proof.
  intros Ha Hb Hfit.
  assert (Hpow : 1 <= 2 ^ b) by (apply (Z.pow_le_mono_r 2 0 b); lia).
  assert (Hpos : 0 <= a * 2 ^ b) by nia.
  unfold shiftLeft, ToUint32.
  rewrite (ToInt32_small a) by nia.
  rewrite (Z.mod_small b) by lia.
  change 31 with (Z.ones 5).
  rewrite Z.land_ones by lia.
  rewrite (Z.mod_small b) by (change (2 ^ 5) with 32; lia).
  rewrite Z.shiftl_mul_pow2 by lia.
  apply ToInt32_small. lia.
Qed.

(** ** The constructor *)

(** C7.  The constructor throws (a [DeveloperError], synchronously) exactly
    when [description.url] is undefined, which includes the call without any
    argument; when the url is present it returns a provider holding it. *)
Theorem C7_constructor_requires_url :
  forall (N : Type) (num : JSNumber N) (host : Host.t N)
         (description : option Description.t),
    EsriImageServerTerrainProvider host None
      = inl (DeveloperError "description.url is required.")
    /\ ((exists e, EsriImageServerTerrainProvider host description = inl e)
        <-> Description.url (defaultValue description Description.empty) = None)
    /\ (forall e, EsriImageServerTerrainProvider host description = inl e ->
                  e = DeveloperError "description.url is required.")
    /\ (forall u,
          Description.url (defaultValue description Description.empty) = Some u ->
          exists this,
            EsriImageServerTerrainProvider host description = inr this
            /\ Provider.url this = u).
Proof.
  intros N num host description.
  unfold EsriImageServerTerrainProvider.
  split; [reflexivity |].
  destruct (Description.url (defaultValue description Description.empty))
    as [u |] eqn:Hurl.
  - split; [| split].
    + split; [intros [e He]; discriminate He | intros Habs; discriminate Habs].
    + intros e He. discriminate He.
    + intros u' Hu. injection Hu as <-. eexists. split; reflexivity.
  - split; [| split].
    + split; [reflexivity | intros _; eexists; reflexivity].
    + intros e He. now injection He as <-.
    + intros u Hu. discriminate Hu.
Qed.

(** ** The level-of-detail estimate *)

(** C8.  [computeDesiredGranularity] returns the scheme's maximum geometric
    error of the tile's level divided by the x component of the ellipsoid's
    radii (the equatorial radius); nothing else of the tile is read, so two
    tiles of one level get the same value whatever their position. *)
Theorem C8_granularity_is_error_over_radius :
  forall (N : Type) (num : JSNumber N) (tilingScheme : TilingScheme.t N)
         (level x y x' y' : Z) (extent extent' : Extent.t N)
         (sphere sphere' : BoundingSphere.t N) (ready ready' : bool)
         (mesh mesh' : option (Buffers.t N)),
    let tile := Tile.Build_t N level x y extent sphere ready mesh in
    let tile' := Tile.Build_t N level x' y' extent' sphere' ready' mesh' in
    computeDesiredGranularity tilingScheme tile
      = ndiv (TilingScheme.getLevelMaximumGeometricError tilingScheme level)
             (Cartesian3.x (Ellipsoid.getRadii (TilingScheme.ellipsoid tilingScheme)))
    /\ computeDesiredGranularity tilingScheme tile'
       = computeDesiredGranularity tilingScheme tile.
Proof.
  intros. split; reflexivity.
Qed.

(** ** The plane geometry entry point *)

(** C6.  [createTilePlaneGeometry] throws at once, whatever its arguments,
    and the tile it was handed is left as it was. *)
Theorem C6_plane_geometry_not_supported :
  forall (N : Type) (this : Provider.t N) (context : Context)
         (projection : Projections) (tile : Tile.t N),
    createTilePlaneGeometry this context projection tile
      = (inl (DeveloperError "Not supported yet."), tile).
Proof.
  intros. reflexivity.
Qed.

(** ** The raster request *)

(** C1.  A provider constructed from the url alone, on a scheme of two by
    one tiles at level zero, asks for tile (0, 0, 0) with the box west = -PI,
    south = -PI/2, east = 0, north = PI/2 (the western hemisphere, in
    radians); the url carries these four numbers and no token parameter.
    Evaluated in binary64. *)
Theorem C1_scenario_without_token :
  forall (host : Host.t spec_float) (this : Provider.t spec_float)
         (context : Context) (tile : Tile.t spec_float),
    Host.PI host = Math_PI ->
    Host.PI_OVER_TWO host = nmul Math_PI (ndiv (ofInt 1) (ofInt 2)) ->
    Host.TWO_PI host = nmul (ofInt 2) Math_PI ->
    TilingScheme.numberOfLevelZeroTilesX (Host.GeographicTilingScheme host) = 2 ->
    TilingScheme.numberOfLevelZeroTilesY (Host.GeographicTilingScheme host) = 1 ->
    EsriImageServerTerrainProvider host (Some scenarioDescription) = inr this ->
    Tile.level tile = 0 -> Tile.x tile = 0 -> Tile.y tile = 0 ->
    let l := locals host this tile in
    let request :=
      Pipeline.requestUrl (createTileEllipsoidGeometry host this context tile) in
    Locals.xStart l = nneg Math_PI
    /\ Locals.yStart l = nneg (ndiv Math_PI (ofInt 2))
    /\ Locals.xStop l = ofInt 0
    /\ Locals.yStop l = ndiv Math_PI (ofInt 2)
    /\ Locals.bbox l
       = "-3.141592653589793%2C-1.5707963267948966%2C0%2C1.5707963267948966"
    /\ request
       = "https://example/ImageServer/exportImage?format=tiff&f=image&size=256%2C256&bbox="
         ++ Locals.bbox l
    /\ includes request "&token=" = false.
Proof.
  intros host this context tile Hpi Hhalf Htwo HX HY Hnew Hlevel Hx Hy.
  unfold EsriImageServerTerrainProvider in Hnew. simpl in Hnew.
  injection Hnew as <-.
  unfold createTileEllipsoidGeometry, locals. simpl.
  rewrite Hpi, Hhalf, Htwo, HX, HY, Hlevel, Hx, Hy.
  vm_compute. repeat split.
Qed.

Lemma C1_scenario_without_token_witness :
  let tile := tileAt 0 0 0 (TilingScheme.extent (Host.GeographicTilingScheme host64)) in
  exists this,
    EsriImageServerTerrainProvider host64 (Some scenarioDescription) = inr this
    /\ Pipeline.requestUrl (createTileEllipsoidGeometry host64 this RenderContext tile)
       = "https://example/ImageServer/exportImage?format=tiff&f=image&size=256%2C256&bbox=-3.141592653589793%2C-1.5707963267948966%2C0%2C1.5707963267948966".
Proof.
  eexists. split; [reflexivity |].
  refine (let H := C1_scenario_without_token host64 _ RenderContext
                     (tileAt 0 0 0 (TilingScheme.extent (Host.GeographicTilingScheme host64)))
                     eq_refl eq_refl eq_refl eq_refl eq_refl eq_refl
                     eq_refl eq_refl eq_refl in _).
  destruct H as (_ & _ & _ & _ & Hbbox & Hrequest & _).
  rewrite Hrequest, Hbbox. reflexivity.
Defined.

Lemma scenarioProvider_constructed :
  EsriImageServerTerrainProvider host64 (Some scenarioDescription)
    = inr scenarioProvider
  /\ EsriImageServerTerrainProvider host64 (Some emptyTokenDescription)
     = inr emptyTokenProvider.
Proof.
  split; reflexivity.
Qed.

(** C2, as stated, fails: the numbers of the request are separated by the
    percent-encoded comma, not by a comma, so the url of the first scenario
    is not the described one; and a token configured as the empty string is
    not appended. *)
Lemma C2_described_url_counterexample :
  (let tile := tileAt 0 0 0 globe64 in
   let l := locals host64 scenarioProvider tile in
   Pipeline.requestUrl
     (createTileEllipsoidGeometry host64 scenarioProvider RenderContext tile)
   <> describedUrl ","
        (Provider.url scenarioProvider)
        (numberToString (Locals.xStart l)) (numberToString (Locals.yStart l))
        (numberToString (Locals.xStop l)) (numberToString (Locals.yStop l))
        (Provider.token scenarioProvider) (Provider._proxy scenarioProvider))
  /\ (let tile := tileAt 0 0 0 globe64 in
      let l := locals host64 emptyTokenProvider tile in
      let request :=
        Pipeline.requestUrl
          (createTileEllipsoidGeometry host64 emptyTokenProvider RenderContext tile) in
      Provider.token emptyTokenProvider = Some EmptyString
      /\ includes request "&token=" = false
      /\ request
         <> describedUrl "%2C"
              (Provider.url emptyTokenProvider)
              (numberToString (Locals.xStart l)) (numberToString (Locals.yStart l))
              (numberToString (Locals.xStop l)) (numberToString (Locals.yStop l))
              (Provider.token emptyTokenProvider)
              (Provider._proxy emptyTokenProvider)).
Proof.
  split.
  - vm_compute. intros H. discriminate H.
  - vm_compute. repeat split. intros H. discriminate H.
Qed.

(** C2, amended.  The request url is the provider's url followed by
    [/exportImage?format=tiff&f=image&size=256%2C256&bbox=] and west, south,
    east, north separated by [%2C]; [&token=] and the token follow exactly
    when the token is a non-empty string, so that without a proxy the url
    then ends with the token parameter; a configured proxy's [getURL] is
    applied to the whole. *)
Theorem C2_request_url_shape :
  forall (N : Type) (num : JSNumber N) (str : JSToString N) (host : Host.t N)
         (this : Provider.t N) (context : Context) (tile : Tile.t N),
    let l := locals host this tile in
    let request :=
      Pipeline.requestUrl (createTileEllipsoidGeometry host this context tile) in
    request
      = describedUrl "%2C" (Provider.url this)
          (numberToString (Locals.xStart l)) (numberToString (Locals.yStart l))
          (numberToString (Locals.xStop l)) (numberToString (Locals.yStop l))
          (effectiveToken (Provider.token this)) (Provider._proxy this)
    /\ (effectiveToken (Provider.token this) = None
        <-> (Provider.token this = None \/ Provider.token this = Some EmptyString))
    /\ (forall T,
          effectiveToken (Provider.token this) = Some T ->
          Provider._proxy this = None ->
          endsWith request ("&token=" ++ T) = true).
Proof.
  intros N num str host this context tile l request.
  assert (Hshape :
    request
      = describedUrl "%2C" (Provider.url this)
          (numberToString (Locals.xStart l)) (numberToString (Locals.yStart l))
          (numberToString (Locals.xStop l)) (numberToString (Locals.yStop l))
          (effectiveToken (Provider.token this)) (Provider._proxy this)).
  { subst request l.
    unfold createTileEllipsoidGeometry, locals, describedUrl, effectiveToken.
    simpl.
    destruct (Provider.token this) as [[| c T] |]; simpl;
      destruct (Provider._proxy this); reflexivity. }
  split; [exact Hshape |].
  split.
  - unfold effectiveToken.
    destruct (Provider.token this) as [[| c T] |]; simpl.
    + split; [intros _; right; reflexivity | reflexivity].
    + split; [intros H; discriminate H | intros [H | H]; discriminate H].
    + split; [intros _; left; reflexivity | reflexivity].
  - intros T HT Hproxy.
    rewrite Hshape. unfold describedUrl.
    rewrite HT, Hproxy.
    apply endsWith_append.
Qed.

Lemma C2_request_url_shape_witness :
  endsWith
    (Pipeline.requestUrl
       (createTileEllipsoidGeometry host64 tokenProvider RenderContext
          (tileAt 0 0 0 globe64)))
    "&token=T" = true.
Proof.
  exact (proj2 (proj2 (C2_request_url_shape spec_float _ _ host64 tokenProvider
                         RenderContext (tileAt 0 0 0 globe64)))
           "T" eq_refl eq_refl).
Defined.

(** ** Binary64 arithmetic is correctly rounded *)

(** *** Digits and shifts

    [shr] divides a mantissa by a power of two and keeps, in two bits, the
    position of what it drops. *)

Lemma fexp_is_fexp64 k : fexp 53 1024 k = fexp64 k.
Proof. reflexivity. Qed.

Lemma digits2_pos_bounds (p : positive) :
  2 ^ (Zpos (digits2_pos p) - 1) <= Zpos p < 2 ^ Zpos (digits2_pos p).
Proof.
  induction p as [p IH | p IH |]; simpl digits2_pos.
  - rewrite Pos2Z.inj_succ.
    replace (Z.succ (Zpos (digits2_pos p)) - 1) with (Z.succ (Zpos (digits2_pos p) - 1)) by lia.
    rewrite !Z.pow_succ_r by lia. lia.
  - rewrite Pos2Z.inj_succ.
    replace (Z.succ (Zpos (digits2_pos p)) - 1) with (Z.succ (Zpos (digits2_pos p) - 1)) by lia.
    rewrite !Z.pow_succ_r by lia. lia.
  - simpl. lia.
Qed.

Lemma Zdigits2_bounds (m : Z) :
  0 < m -> 2 ^ (Zdigits2 m - 1) <= m < 2 ^ Zdigits2 m.
Proof.
  destruct m as [| p | p]; try lia. intros _. apply digits2_pos_bounds.
Qed.

Lemma Zdigits2_nonneg (m : Z) : 0 <= Zdigits2 m.
Proof. destruct m; simpl; lia. Qed.

Lemma Zdigits2_unique (m k : Z) :
  0 < m -> 2 ^ (k - 1) <= m < 2 ^ k -> Zdigits2 m = k.
Proof.
  intros Hm Hk.
  pose proof (Zdigits2_bounds m Hm) as Hd.
  pose proof (Zdigits2_nonneg m) as Hn.
  assert (0 < k).
  { destruct (Z_lt_le_dec 0 k); [assumption |].
    assert (2 ^ k <= 1).
    { destruct (Z.eq_dec k 0) as [-> | ]; [simpl; lia |].
      rewrite Z.pow_neg_r by lia. lia. }
    lia. }
  destruct (Z_lt_le_dec (Zdigits2 m) k).
  - assert (2 ^ Zdigits2 m <= 2 ^ (k - 1)) by (apply Z.pow_le_mono_r; lia). lia.
  - destruct (Z_lt_le_dec k (Zdigits2 m)); [| lia].
    assert (2 ^ k <= 2 ^ (Zdigits2 m - 1)) by (apply Z.pow_le_mono_r; lia). lia.
Qed.

Lemma new_location_locOf (nb k : Z) :
  0 < nb -> 0 <= k < nb -> new_location nb k = locOf k nb.
Proof.
  intros Hnb Hk. unfold new_location, locOf.
  destruct (Z.even nb) eqn:Ev.
  - unfold new_location_even. reflexivity.
  - unfold new_location_odd. destruct (k =? 0); [reflexivity |].
    f_equal.
    assert (Hodd : Z.odd nb = true) by (rewrite <- Z.negb_even, Ev; reflexivity).
    apply Z.odd_spec in Hodd. destruct Hodd as [t Ht].
    destruct (Z.compare_spec (2 * k + 1) nb); destruct (Z.compare_spec (2 * k) nb);
      try reflexivity; lia.
Qed.

Lemma shr_1_rrep (A B : Z) (mrs : shr_record) :
  0 <= A -> 0 < B -> rrep A B mrs -> rrep A (B * 2) (shr_1 mrs).
Proof.
  intros HA HB [Hm Hl].
  assert (Hdiv : A / (B * 2) = (A / B) / 2) by (rewrite Z.div_div; lia).
  assert (Hmod : A mod (B * 2) = A mod B + B * ((A / B) mod 2))
    by (apply Z.rem_mul_r; lia).
  assert (Hr : 0 <= A mod B < B) by (apply Z.mod_pos_bound; lia).
  assert (Hq : 0 <= A / B) by (apply Z.div_pos; lia).
  destruct mrs as [m r s]. simpl in Hm, Hl.
  unfold rrep. rewrite Hdiv, Hmod, <- Hm.
  assert (Hs : orb r s = negb (A mod B =? 0)).
  { unfold locOf in Hl. destruct (A mod B =? 0); destruct r, s; simpl in *; congruence. }
  assert (Hcase : (m mod 2 = 0 /\ shr_1 (Build_shr_record m r s) = Build_shr_record (m / 2) false (orb r s))
                  \/ (m mod 2 = 1 /\ shr_1 (Build_shr_record m r s) = Build_shr_record (m / 2) true (orb r s))).
  { rewrite Hm in *. clear Hm Hl.
    destruct (A / B) as [| p | p] eqn:E; [left; split; reflexivity | | lia].
    destruct p as [p | p |].
    - right. split.
      + rewrite Pos2Z.inj_xI. rewrite Z.add_comm, Z.mul_comm, Z_mod_plus_full. reflexivity.
      + simpl shr_1. f_equal. rewrite Pos2Z.inj_xI.
        apply Z.div_unique with (r := 1); lia.
    - left. split.
      + rewrite Pos2Z.inj_xO. rewrite Z.mul_comm. apply Z_mod_mult.
      + simpl shr_1. f_equal. rewrite Pos2Z.inj_xO.
        apply Z.div_unique with (r := 0); lia.
    - right. split; reflexivity. }
  destruct Hcase as [[Hbit ->] | [Hbit ->]]; rewrite Hbit; split; try reflexivity;
    unfold loc_of_shr_record; rewrite Hs; unfold locOf.
  - rewrite Z.mul_0_r, Z.add_0_r.
    destruct (A mod B =? 0) eqn:E; cbn [negb]; [reflexivity |].
    apply Z.eqb_neq in E. f_equal. symmetry. apply Z.compare_lt_iff. lia.
  - rewrite Z.mul_1_r.
    destruct (A mod B =? 0) eqn:E; cbn [negb].
    + apply Z.eqb_eq in E. rewrite E, Z.add_0_l.
      destruct (B =? 0) eqn:E2; [apply Z.eqb_eq in E2; lia |].
      f_equal. symmetry. apply Z.compare_eq_iff. lia.
    + apply Z.eqb_neq in E.
      destruct (A mod B + B =? 0) eqn:E2; [apply Z.eqb_eq in E2; lia |].
      f_equal. symmetry. apply Z.compare_gt_iff. lia.
Qed.

Lemma pow2_xO (p : positive) : 2 ^ Zpos p~0 = 2 ^ Zpos p * 2 ^ Zpos p.
Proof.
  rewrite <- Z.pow_add_r by lia. f_equal. lia.
Qed.

Lemma pow2_xI (p : positive) : 2 ^ Zpos p~1 = 2 * (2 ^ Zpos p * 2 ^ Zpos p).
Proof.
  rewrite <- Z.pow_add_r by lia. rewrite <- Z.pow_succ_r by lia. f_equal. lia.
Qed.

Lemma iter_pos_shr_1_rrep (p : positive) : forall (A B : Z) (mrs : shr_record),
  0 <= A -> 0 < B -> rrep A B mrs -> rrep A (B * 2 ^ Zpos p) (iter_pos shr_1 p mrs).
Proof.
  induction p as [p IH | p IH |]; intros A B mrs HA HB H; simpl iter_pos.
  - rewrite pow2_xI.
    assert (Hp : 0 < 2 ^ Zpos p) by (apply Z.pow_pos_nonneg; lia).
    replace (B * (2 * (2 ^ Zpos p * 2 ^ Zpos p))) with (B * 2 * 2 ^ Zpos p * 2 ^ Zpos p) by ring.
    apply IH; [lia | nia |]. apply IH; [lia | lia |]. apply shr_1_rrep; assumption.
  - rewrite pow2_xO.
    assert (Hp : 0 < 2 ^ Zpos p) by (apply Z.pow_pos_nonneg; lia).
    replace (B * (2 ^ Zpos p * 2 ^ Zpos p)) with (B * 2 ^ Zpos p * 2 ^ Zpos p) by ring.
    apply IH; [lia | nia |]. apply IH; assumption.
  - change (2 ^ 1) with 2. apply shr_1_rrep; assumption.
Qed.

Lemma rrep_of_loc (A B q : Z) (l : location) :
  q = A / B -> l = locOf (A mod B) B -> rrep A B (shr_record_of_loc q l).
Proof.
  intros -> ->. unfold rrep. split.
  - destruct (locOf (A mod B) B) as [| []]; reflexivity.
  - destruct (locOf (A mod B) B) as [| []]; reflexivity.
Qed.

(** shr by t >= 0 positions *)
Lemma shr_rrep (A B q : Z) (l : location) (e t : Z) :
  0 <= A -> 0 < B -> 0 <= t ->
  q = A / B -> l = locOf (A mod B) B ->
  rrep A (B * 2 ^ t) (fst (shr (shr_record_of_loc q l) e t))
  /\ snd (shr (shr_record_of_loc q l) e t) = e + t.
Proof.
  intros HA HB Ht Hq Hl.
  destruct t as [| p | p]; [| | lia].
  - simpl. rewrite Z.mul_1_r, Z.add_0_r. split; [apply rrep_of_loc; assumption | reflexivity].
  - simpl. split; [| reflexivity].
    apply iter_pos_shr_1_rrep; try assumption. apply rrep_of_loc; assumption.
Qed.

(** *** One rounding step

    [round_nearest_even] picks the nearest integer, and [binary_round_aux]
    returns the double for the mantissa rounded at the exponent of the
    binade. *)

Lemma round_nearest_even_NearZ (A D : Z) :
  0 <= A -> 0 < D ->
  NearZ A D (round_nearest_even (A / D) (locOf (A mod D) D)).
Proof.
  intros HA HD.
  pose proof (Z.div_mod A D ltac:(lia)) as Hdm.
  pose proof (Z.mod_pos_bound A D HD) as Hr.
  unfold NearZ, locOf, round_nearest_even.
  destruct (A mod D =? 0) eqn:E0.
  - apply Z.eqb_eq in E0. split; [lia |]. split; [nia |]. intros H. nia.
  - apply Z.eqb_neq in E0.
    destruct (Z.compare_spec (2 * (A mod D)) D) as [Heq | Hlt | Hgt].
    + destruct (Z.even (A / D)) eqn:Ev.
      * split; [lia |]. split; [nia |]. intros _. exact Ev.
      * split; [lia |]. split; [nia |]. intros _.
        rewrite Z.even_add, Ev. reflexivity.
    + split; [lia |]. split; [nia |]. intros H. nia.
    + split; [lia |]. split; [nia |]. intros H. nia.
Qed.

Lemma div_lt_pow (A D k : Z) : 0 <= A -> 0 < D -> 0 <= k -> A < D * 2 ^ k -> A / D < 2 ^ k.
Proof.
  intros HA HD Hk H. apply Z.div_lt_upper_bound; [lia | lia].
Qed.

Lemma div_ge_pow (A D k : Z) : 0 < D -> D * 2 ^ k <= A -> 2 ^ k <= A / D.
Proof.
  intros HD H. apply Z.div_le_lower_bound; [lia | lia].
Qed.

Lemma digits_le (m k : Z) : 0 <= m -> 0 <= k -> m < 2 ^ k -> Zdigits2 m <= k.
Proof.
  intros Hm Hk H.
  destruct (Z.eq_dec m 0) as [-> | Hne]; [simpl; lia |].
  pose proof (Zdigits2_bounds m ltac:(lia)) as Hd.
  destruct (Z_le_gt_dec (Zdigits2 m) k); [assumption |].
  assert (2 ^ k <= 2 ^ (Zdigits2 m - 1)) by (apply Z.pow_le_mono_r; lia). lia.
Qed.

Lemma digits_ge (m k : Z) : 0 <= k -> 2 ^ k <= m -> k + 1 <= Zdigits2 m.
Proof.
  intros Hk H.
  assert (0 < 2 ^ k) by (apply Z.pow_pos_nonneg; lia).
  pose proof (Zdigits2_bounds m ltac:(lia)) as Hd.
  pose proof (Zdigits2_nonneg m).
  destruct (Z_le_gt_dec (k + 1) (Zdigits2 m)); [assumption |].
  assert (2 ^ Zdigits2 m <= 2 ^ k) by (apply Z.pow_le_mono_r; lia). lia.
Qed.

Lemma binary_round_aux_mkfloat (s : bool) (A B q : Z) (l : location) (e c : Z) :
  0 <= A -> 0 < B -> q = A / B -> l = locOf (A mod B) B ->
  e <= c -> -1074 <= c ->
  A < B * 2 ^ (c - e) * 2 ^ 53 ->
  (c = -1074 \/ B * 2 ^ (c - e) * 2 ^ 52 <= A) ->
  let D := B * 2 ^ (c - e) in
  binary_round_aux 53 1024 s q e l
  = mkfloat s (round_nearest_even (A / D) (locOf (A mod D) D)) c.
Proof.
  intros HA HB Hq Hl Hec Hc Hlt Hnorm D.
  assert (Ht : 0 <= c - e) by lia.
  assert (Hpt : 0 < 2 ^ (c - e)) by (apply Z.pow_pos_nonneg; lia).
  assert (HD : 0 < D) by (unfold D; nia).
  assert (Hq0 : 0 <= q) by (subst q; apply Z.div_pos; lia).
  (* the first shift goes to exponent c *)
  assert (Hshift : fexp 53 1024 (Zdigits2 q + e) = c).
  { rewrite fexp_is_fexp64. unfold fexp64.
    assert (Hqlt : q < 2 ^ (c - e + 53)).
    { subst q. apply div_lt_pow; try lia.
      rewrite Z.pow_add_r by lia. lia. }
    assert (Hdle : Zdigits2 q <= c - e + 53) by (apply digits_le; lia).
    destruct Hnorm as [-> | Hnorm]; [lia |].
    assert (Hqge : 2 ^ (c - e + 52) <= q).
    { subst q. apply div_ge_pow; try lia.
      rewrite Z.pow_add_r by lia. lia. }
    assert (Hdge : c - e + 52 + 1 <= Zdigits2 q) by (apply digits_ge; lia).
    lia. }
  unfold binary_round_aux, shr_fexp. rewrite Hshift.
  destruct (shr_rrep A B q l e (c - e) HA HB Ht Hq Hl) as [Hrep Hexp].
  destruct (shr (shr_record_of_loc q l) e (c - e)) as [mrs' e'] eqn:Eshr.
  simpl in Hrep, Hexp. fold D in Hrep. destruct Hrep as [Hm' Hl'].
  rewrite Hm', Hl'.
  assert (He' : e' = c) by lia. clear Hexp. subst e'.
  pose proof (round_nearest_even_NearZ A D HA HD) as [Hn _].
  set (n := round_nearest_even (A / D) (locOf (A mod D) D)) in *.
  assert (Hq1lt : A / D < 2 ^ 53) by (apply div_lt_pow; unfold D; lia).
  assert (Hq1 : 0 <= A / D) by (apply Z.div_pos; lia).
  assert (Hn0 : 0 <= n <= 2 ^ 53) by lia.
  assert (Hnnorm : c = -1074 \/ 2 ^ 52 <= n).
  { destruct Hnorm as [-> | Hnorm]; [left; reflexivity | right].
    assert (2 ^ 52 <= A / D) by (apply div_ge_pow; unfold D; lia). lia. }
  unfold mkfloat.
  destruct (n =? 0) eqn:En0.
  - apply Z.eqb_eq in En0. rewrite En0.
    destruct Hnnorm as [-> | Hbad]; [| lia].
    reflexivity.
  - apply Z.eqb_neq in En0.
    destruct (n =? 2 ^ 53) eqn:En53.
    + apply Z.eqb_eq in En53. rewrite En53.
      assert (Hs2 : fexp 53 1024 (Zdigits2 (2 ^ 53) + c) - c = 1).
      { rewrite fexp_is_fexp64. unfold fexp64.
        change (Zdigits2 (2 ^ 53)) with 54. lia. }
      rewrite Hs2. reflexivity.
    + apply Z.eqb_neq in En53.
      assert (Hdn : Zdigits2 n <= 53) by (apply digits_le; lia).
      assert (Hs2 : fexp 53 1024 (Zdigits2 n + c) - c <= 0).
      { rewrite fexp_is_fexp64. unfold fexp64. lia. }
      assert (Hshr : shr (shr_record_of_loc n loc_Exact) c (fexp 53 1024 (Zdigits2 n + c) - c)
                     = (shr_record_of_loc n loc_Exact, c)).
      { destruct (fexp 53 1024 (Zdigits2 n + c) - c) as [| p | p]; [reflexivity | lia | reflexivity]. }
      rewrite Hshr. simpl shr_m.
      destruct n as [| p | p]; [lia | | lia].
      reflexivity.
Qed.

(** *** Powers of two, binades, nearest integers *)

Lemma inject_Z_pow2_pos (t : Z) : 0 <= t -> (0 < inject_Z (2 ^ t))%Q.
Proof.
  intros Ht. change 0%Q with (inject_Z 0). rewrite <- Zlt_Qlt.
  apply Z.pow_pos_nonneg; lia.
Qed.

Lemma pow2_pos (e : Z) : (0 < Binary64.pow2 e)%Q.
Proof.
  unfold Binary64.pow2. destruct (0 <=? e) eqn:E.
  - apply inject_Z_pow2_pos. apply Z.leb_le. exact E.
  - apply Qinv_lt_0_compat, inject_Z_pow2_pos. apply Z.leb_gt in E. lia.
Qed.

Lemma pow2_shift (a t : Z) : 0 <= t -> (Binary64.pow2 (a + t) == Binary64.pow2 a * inject_Z (2 ^ t))%Q.
Proof.
  intros Ht. unfold Binary64.pow2.
  destruct (0 <=? a) eqn:Ea; destruct (0 <=? a + t) eqn:Eat;
    try apply Z.leb_le in Ea; try apply Z.leb_le in Eat;
    try apply Z.leb_gt in Ea; try apply Z.leb_gt in Eat; try lia.
  - rewrite Z.pow_add_r, inject_Z_mult by lia. reflexivity.
  - assert (H : 2 ^ t = 2 ^ (a + t) * 2 ^ (- a)).
    { rewrite <- Z.pow_add_r by lia. f_equal. lia. }
    rewrite H, inject_Z_mult.
    pose proof (inject_Z_pow2_pos (- a) ltac:(lia)).
    field. lra.
  - assert (H : 2 ^ (- a) = 2 ^ (- (a + t)) * 2 ^ t).
    { rewrite <- Z.pow_add_r by lia. f_equal. lia. }
    rewrite H, inject_Z_mult.
    pose proof (inject_Z_pow2_pos (- (a + t)) ltac:(lia)).
    pose proof (inject_Z_pow2_pos t ltac:(lia)).
    field. split; lra.
Qed.

Lemma pow2_add (a b : Z) : (Binary64.pow2 (a + b) == Binary64.pow2 a * Binary64.pow2 b)%Q.
Proof.
  destruct (Z_le_gt_dec 0 b) as [Hb | Hb].
  - rewrite pow2_shift by lia. unfold Binary64.pow2 at 3.
    destruct (0 <=? b) eqn:E; [reflexivity | apply Z.leb_gt in E; lia].
  - pose proof (pow2_shift (a + b) (- b) ltac:(lia)) as H.
    replace (a + b + - b) with a in H by lia.
    unfold Binary64.pow2 at 3.
    destruct (0 <=? b) eqn:E; [apply Z.leb_le in E; lia |].
    pose proof (inject_Z_pow2_pos (- b) ltac:(lia)).
    rewrite H. field. lra.
Qed.

Lemma pow2_le (a b : Z) : a <= b -> (Binary64.pow2 a <= Binary64.pow2 b)%Q.
Proof.
  intros Hab.
  pose proof (pow2_shift a (b - a) ltac:(lia)) as H.
  replace (a + (b - a)) with b in H by lia. rewrite H.
  assert (H1 : (1 <= inject_Z (2 ^ (b - a)))%Q).
  { change 1%Q with (inject_Z 1). rewrite <- Zle_Qle.
    assert (0 < 2 ^ (b - a)) by (apply Z.pow_pos_nonneg; lia). lia. }
  pose proof (pow2_pos a). nra.
Qed.

Lemma pow2_lt (a b : Z) : a < b -> (Binary64.pow2 a < Binary64.pow2 b)%Q.
Proof.
  intros Hab.
  pose proof (pow2_shift a (b - a) ltac:(lia)) as H.
  replace (a + (b - a)) with b in H by lia. rewrite H.
  assert (H1 : (2 <= inject_Z (2 ^ (b - a)))%Q).
  { change 2%Q with (inject_Z 2). rewrite <- Zle_Qle.
    replace (b - a) with (Z.succ (b - a - 1)) by lia.
    rewrite Z.pow_succ_r by lia.
    assert (0 < 2 ^ (b - a - 1)) by (apply Z.pow_pos_nonneg; lia). lia. }
  pose proof (pow2_pos a). nra.
Qed.

Lemma pow2_lt_inv (a b : Z) : (Binary64.pow2 a < Binary64.pow2 b)%Q -> a < b.
Proof.
  intros H. destruct (Z_lt_le_dec a b); [assumption |].
  pose proof (pow2_le b a ltac:(lia)). lra.
Qed.

Lemma pow2_nonneg_exp (e : Z) : 0 <= e -> (Binary64.pow2 e == inject_Z (2 ^ e))%Q.
Proof.
  intros H. unfold Binary64.pow2. destruct (0 <=? e) eqn:E; [reflexivity |].
  apply Z.leb_gt in E. lia.
Qed.

Lemma pow2_div (a b : Z) : (Binary64.pow2 a / Binary64.pow2 b == Binary64.pow2 (a - b))%Q.
Proof.
  pose proof (pow2_add (a - b) b) as H.
  replace (a - b + b) with a in H by lia.
  pose proof (pow2_pos b). rewrite H. field. lra.
Qed.

Lemma mag_unique (k k' : Z) (v : Q) : mag k v -> mag k' v -> k = k'.
Proof.
  intros [H1 H2] [H3 H4].
  assert (k - 1 < k') by (apply pow2_lt_inv; lra).
  assert (k' - 1 < k) by (apply pow2_lt_inv; lra).
  lia.
Qed.

Lemma mag_le (k1 k2 : Z) (v1 v2 : Q) : mag k1 v1 -> mag k2 v2 -> (v1 <= v2)%Q -> k1 <= k2.
Proof.
  intros [H1 H2] [H3 H4] Hv.
  assert (k1 - 1 < k2) by (apply pow2_lt_inv; lra). lia.
Qed.

(** value of an integer mantissa at an exponent *)
Lemma mag_of_digits (m e : Z) :
  0 < m -> mag (Zdigits2 m + e) (inject_Z m * Binary64.pow2 e).
Proof.
  intros Hm. pose proof (Zdigits2_bounds m Hm) as [Hlo Hhi].
  pose proof (Zdigits2_nonneg m) as Hd.
  assert (Hd1 : 1 <= Zdigits2 m).
  { destruct m; try lia. simpl. lia. }
  unfold mag. pose proof (pow2_pos e) as Hpe.
  split.
  - replace (Zdigits2 m + e - 1) with (e + (Zdigits2 m - 1)) by lia.
    rewrite pow2_shift by lia.
    rewrite Zle_Qle in Hlo. nra.
  - replace (Zdigits2 m + e) with (e + Zdigits2 m) by lia.
    rewrite pow2_shift by lia.
    rewrite Zlt_Qlt in Hhi. nra.
Qed.

Lemma Near_mono (rho1 rho2 : Q) (n1 n2 : Z) :
  Near rho1 n1 -> Near rho2 n2 -> (rho1 <= rho2)%Q -> n1 <= n2.
Proof.
  intros [H1 E1] [H2 E2] Hle.
  apply Qabs_Qle_condition in H1. apply Qabs_Qle_condition in H2.
  destruct (Z_le_gt_dec n1 n2) as [| Hgt]; [assumption | exfalso].
  assert (Hz : (inject_Z n2 + 1 <= inject_Z n1)%Q).
  { change 1%Q with (inject_Z 1). rewrite <- inject_Z_plus, <- Zle_Qle. lia. }
  assert (Ha : (inject_Z n1 - rho1 == 1 # 2)%Q) by lra.
  assert (Hb : (inject_Z n2 - rho2 == - (1 # 2))%Q) by lra.
  assert (Hn : (inject_Z n1 == inject_Z n2 + 1)%Q) by lra.
  assert (Ev1 : Z.even n1 = true).
  { apply E1. rewrite Ha. reflexivity. }
  assert (Ev2 : Z.even n2 = true).
  { apply E2. rewrite Hb. reflexivity. }
  change 1%Q with (inject_Z 1) in Hn. rewrite <- inject_Z_plus in Hn.
  apply (proj1 (inject_Z_injective _ _)) in Hn. subst n1.
  rewrite Z.even_add, Ev2 in Ev1. discriminate Ev1.
Qed.

Lemma Near_unique (rho : Q) (n1 n2 : Z) : Near rho n1 -> Near rho n2 -> n1 = n2.
Proof.
  intros H1 H2.
  pose proof (Near_mono rho rho n1 n2 H1 H2 ltac:(lra)).
  pose proof (Near_mono rho rho n2 n1 H2 H1 ltac:(lra)). lia.
Qed.

Lemma Near_integer (N : Z) : Near (inject_Z N) N.
Proof.
  unfold Near.
  assert (H : (inject_Z N - inject_Z N == 0)%Q) by ring.
  split.
  - rewrite H. discriminate.
  - intros Habs. rewrite H in Habs. discriminate Habs.
Qed.

Lemma Near_compat (rho rho' : Q) (n : Z) : (rho == rho')%Q -> Near rho n -> Near rho' n.
Proof.
  intros Heq [H1 H2]. unfold Near. rewrite <- Heq. split; assumption.
Qed.

Lemma NearZ_Near (A D n : Z) :
  0 < D -> NearZ A D n -> Near (inject_Z A / inject_Z D) n.
Proof.
  intros HD (_ & Hle & Hev).
  assert (HDq : (0 < inject_Z D)%Q).
  { change 0%Q with (inject_Z 0). rewrite <- Zlt_Qlt. exact HD. }
  assert (Hdiff : (inject_Z n - inject_Z A / inject_Z D
                   == inject_Z (n * D - A) / inject_Z D)%Q).
  { unfold Z.sub. rewrite inject_Z_plus, inject_Z_mult, inject_Z_opp. field. lra. }
  assert (Habs : (Qabs (inject_Z n - inject_Z A / inject_Z D)
                  == inject_Z (Z.abs (n * D - A)) / inject_Z D)%Q).
  { rewrite Hdiff. unfold Qdiv. rewrite Qabs_Qmult.
    change (Qabs (inject_Z (n * D - A))) with (inject_Z (Z.abs (n * D - A))).
    rewrite (Qabs_pos (/ inject_Z D)); [reflexivity |].
    apply Qlt_le_weak, Qinv_lt_0_compat. exact HDq. }
  unfold Near. rewrite Habs. split.
  - apply Qle_shift_div_r; [exact HDq |].
    rewrite Zle_Qle, inject_Z_mult in Hle. change (inject_Z 2) with 2%Q in Hle. lra.
  - intros Heq. apply Hev.
    assert (H2 : (inject_Z (Z.abs (n * D - A)) == (1 # 2) * inject_Z D)%Q).
    { rewrite <- Heq. field. lra. }
    apply inject_Z_injective.
    rewrite inject_Z_mult. change (inject_Z 2) with 2%Q. rewrite H2. ring.
Qed.

(** *** Rounded values

    Rounding is monotone, and leaves a representable value as it is. *)

Lemma inject_Z_lt_half (n m : Z) : (inject_Z n < inject_Z m + (1 # 2))%Q -> n <= m.
Proof.
  intros H. destruct (Z_le_gt_dec n m); [assumption | exfalso].
  assert ((inject_Z m + 1 <= inject_Z n)%Q).
  { change 1%Q with (inject_Z 1). rewrite <- inject_Z_plus, <- Zle_Qle. lia. }
  lra.
Qed.

Lemma inject_Z_gt_half (n m : Z) : (inject_Z m - (1 # 2) <= inject_Z n)%Q -> m <= n.
Proof.
  intros H. destruct (Z_le_gt_dec m n); [assumption | exfalso].
  assert ((inject_Z n + 1 <= inject_Z m)%Q).
  { change 1%Q with (inject_Z 1). rewrite <- inject_Z_plus, <- Zle_Qle. lia. }
  lra.
Qed.

Lemma Rounded_bounds (v : Q) (n c : Z) :
  Rounded v n c ->
  0 <= n <= 2 ^ 53 /\ -1074 <= c /\ (c = -1074 \/ 2 ^ 52 <= n).
Proof.
  intros (k & [Hlo Hhi] & Hc & [Hnear _]).
  apply Qabs_Qle_condition in Hnear.
  pose proof (pow2_pos c) as Hpc.
  assert (Hkc : k - c <= 53) by (unfold fexp64 in Hc; lia).
  assert (Hrho_hi : (v / Binary64.pow2 c < inject_Z (2 ^ 53))%Q).
  { apply Qlt_shift_div_r; [exact Hpc |].
    rewrite <- (pow2_nonneg_exp 53) by lia. rewrite <- pow2_add.
    pose proof (pow2_le k (53 + c) ltac:(lia)). lra. }
  assert (Hrho_pos : (0 < v / Binary64.pow2 c)%Q).
  { apply Qlt_shift_div_l; [exact Hpc |]. pose proof (pow2_pos (k - 1)). lra. }
  split; [split |].
  - apply (inject_Z_gt_half n 0). change (inject_Z 0) with 0%Q. lra.
  - apply inject_Z_lt_half. lra.
  - split; [unfold fexp64 in Hc; lia |].
    destruct (Z.eq_dec c (-1074)) as [| Hne]; [left; assumption | right].
    assert (Hck : c = k - 53) by (unfold fexp64 in Hc; lia).
    assert (Hrho_lo : (inject_Z (2 ^ 52) <= v / Binary64.pow2 c)%Q).
    { apply Qle_shift_div_l; [exact Hpc |].
      rewrite <- (pow2_nonneg_exp 52) by lia. rewrite <- pow2_add.
      replace (52 + c) with (k - 1) by lia. exact Hlo. }
    apply inject_Z_gt_half. lra.
Qed.

Lemma Rounded_mono (v1 v2 : Q) (n1 c1 n2 c2 : Z) :
  Rounded v1 n1 c1 -> Rounded v2 n2 c2 -> (v1 <= v2)%Q ->
  (inject_Z n1 * Binary64.pow2 c1 <= inject_Z n2 * Binary64.pow2 c2)%Q.
Proof.
  intros R1 R2 Hle.
  pose proof (Rounded_bounds _ _ _ R1) as (Hn1 & Hc1 & _).
  pose proof (Rounded_bounds _ _ _ R2) as (Hn2 & Hc2 & Hnorm2).
  destruct R1 as (k1 & Hm1 & Hk1 & Hnear1).
  destruct R2 as (k2 & Hm2 & Hk2 & Hnear2).
  pose proof (mag_le _ _ _ _ Hm1 Hm2 Hle) as Hk.
  assert (Hc : c1 <= c2) by (unfold fexp64 in *; lia).
  destruct (Z.eq_dec c1 c2) as [Heq | Hne].
  - rewrite <- Heq in *. clear Heq. pose proof (pow2_pos c1) as Hp.
    assert (Hrho : (v1 / Binary64.pow2 c1 <= v2 / Binary64.pow2 c1)%Q).
    { unfold Qdiv. apply Qmult_le_compat_r; [exact Hle |].
      apply Qlt_le_weak, Qinv_lt_0_compat. exact Hp. }
    pose proof (Near_mono _ _ _ _ Hnear1 Hnear2 Hrho) as Hn.
    rewrite Zle_Qle in Hn. nra.
  - destruct Hnorm2 as [-> | Hbig]; [lia |].
    assert (H1 : (inject_Z n1 * Binary64.pow2 c1 <= Binary64.pow2 (c1 + 53))%Q).
    { rewrite Z.add_comm, pow2_add, (pow2_nonneg_exp 53) by lia.
      pose proof (pow2_pos c1). 
      assert ((inject_Z n1 <= inject_Z (2 ^ 53))%Q) by (rewrite <- Zle_Qle; lia).
      nra. }
    assert (H2 : (Binary64.pow2 (c2 + 52) <= inject_Z n2 * Binary64.pow2 c2)%Q).
    { rewrite Z.add_comm, pow2_add, (pow2_nonneg_exp 52) by lia.
      pose proof (pow2_pos c2).
      assert ((inject_Z (2 ^ 52) <= inject_Z n2)%Q) by (rewrite <- Zle_Qle; lia).
      nra. }
    pose proof (pow2_le (c1 + 53) (c2 + 52) ltac:(lia)). lra.
Qed.

Lemma Rounded_nonneg (v : Q) (n c : Z) : Rounded v n c -> (0 <= inject_Z n * Binary64.pow2 c)%Q.
Proof.
  intros R. pose proof (Rounded_bounds _ _ _ R) as (Hn & _).
  pose proof (pow2_pos c).
  assert ((0 <= inject_Z n)%Q) by (change 0%Q with (inject_Z 0); rewrite <- Zle_Qle; lia).
  nra.
Qed.

(** an exactly representable value rounds to itself *)
Lemma Rounded_exact (N e : Z) :
  0 < N -> e = fexp64 (Zdigits2 N + e) ->
  Rounded (inject_Z N * Binary64.pow2 e) N e.
Proof.
  intros HN He. exists (Zdigits2 N + e). split; [apply mag_of_digits; exact HN |].
  split; [exact He |].
  apply (Near_compat (inject_Z N)); [| apply Near_integer].
  pose proof (pow2_pos e). field. lra.
Qed.

Lemma valid_finite (s : bool) (m : positive) (e : Z) :
  valid64 (S754_finite s m e) <-> (fexp64 (Zpos (digits2_pos m) + e) = e /\ e <= 971).
Proof.
  unfold valid64, valid_binary, bounded, canonical_mantissa.
  rewrite fexp_is_fexp64, andb_true_iff, Z.eqb_eq, Z.leb_le.
  change (1024 - 53) with 971. reflexivity.
Qed.

Lemma mkfloat_finite (s : bool) (n c : Z) :
  0 <= n <= 2 ^ 53 -> -1074 <= c -> (c = -1074 \/ 2 ^ 52 <= n) ->
  (inject_Z n * Binary64.pow2 c < Binary64.pow2 1024)%Q ->
  finz (mkfloat s n c) = true
  /\ valid64 (mkfloat s n c)
  /\ (F2Q (mkfloat s n c) == signed s (inject_Z n * Binary64.pow2 c))%Q.
Proof.
  intros Hn Hc Hnorm Hlt. unfold mkfloat.
  destruct (n =? 0) eqn:E0.
  - apply Z.eqb_eq in E0. subst n. split; [reflexivity |]. split; [reflexivity |].
    simpl. destruct s; simpl; ring.
  - apply Z.eqb_neq in E0.
    destruct (n =? 2 ^ 53) eqn:E53.
    + apply Z.eqb_eq in E53. subst n.
      assert (Hc' : c + 1 <= 971).
      { destruct (Z_le_gt_dec (c + 1) 971); [assumption | exfalso].
        rewrite <- (pow2_nonneg_exp 53), <- pow2_add in Hlt by lia.
        pose proof (pow2_le 1024 (53 + c) ltac:(lia)). lra. }
      destruct (c + 1 <=? 971) eqn:E; [| apply Z.leb_gt in E; lia].
      split; [reflexivity |]. split.
      * apply valid_finite. split; [| lia].
        change (Zpos (digits2_pos (2 ^ 52))) with 53. unfold fexp64. lia.
      * unfold F2Q.
        assert (H : (inject_Z (Zpos (2 ^ 52)) * Binary64.pow2 (c + 1) == inject_Z (2 ^ 53) * Binary64.pow2 c)%Q).
        { rewrite pow2_shift by lia. change (inject_Z (2 ^ 1)) with 2%Q.
          change (inject_Z (2 ^ 53)) with (2 * inject_Z (Zpos (2 ^ 52)))%Q. ring. }
        destruct s; simpl; rewrite H; reflexivity.
    + apply Z.eqb_neq in E53.
      assert (Hpos : 0 < n < 2 ^ 53) by lia.
      assert (Hc' : c <= 971).
      { destruct (Z_le_gt_dec c 971); [assumption | exfalso].
        destruct Hnorm as [-> | Hbig]; [lia |].
        assert ((Binary64.pow2 (52 + c) <= inject_Z n * Binary64.pow2 c)%Q).
        { rewrite pow2_add, (pow2_nonneg_exp 52) by lia.
          pose proof (pow2_pos c).
          assert ((inject_Z (2 ^ 52) <= inject_Z n)%Q) by (rewrite <- Zle_Qle; lia).
          nra. }
        pose proof (pow2_le 1024 (52 + c) ltac:(lia)). lra. }
      destruct (c <=? 971) eqn:E; [| apply Z.leb_gt in E; lia].
      assert (Hzp : Zpos (Z.to_pos n) = n) by (apply Z2Pos.id; lia).
      split; [reflexivity |]. split.
      * apply valid_finite. split; [| lia].
        change (Zpos (digits2_pos (Z.to_pos n))) with (Zdigits2 (Zpos (Z.to_pos n))).
        rewrite Hzp.
        assert (Hd : Zdigits2 n <= 53) by (apply digits_le; lia).
        destruct Hnorm as [-> | Hbig]; [unfold fexp64; lia |].
        assert (52 + 1 <= Zdigits2 n) by (apply digits_ge; lia).
        unfold fexp64. lia.
      * unfold F2Q. rewrite Hzp. destruct s; reflexivity.
Qed.

Lemma mkfloat_overflow (s : bool) (n c : Z) :
  0 <= n <= 2 ^ 53 -> -1074 <= c -> (c = -1074 \/ 2 ^ 52 <= n) ->
  (Binary64.pow2 1024 <= inject_Z n * Binary64.pow2 c)%Q ->
  mkfloat s n c = S754_infinity s.
Proof.
  intros Hn Hc Hnorm Hge. unfold mkfloat.
  pose proof (pow2_pos c) as Hpc. pose proof (pow2_pos 1024) as Hp.
  destruct (n =? 0) eqn:E0.
  - apply Z.eqb_eq in E0. subst n. exfalso. change (inject_Z 0) with 0%Q in Hge. lra.
  - destruct (n =? 2 ^ 53) eqn:E53.
    + apply Z.eqb_eq in E53. subst n.
      destruct (c + 1 <=? 971) eqn:E; [exfalso | reflexivity].
      apply Z.leb_le in E.
      rewrite <- (pow2_nonneg_exp 53), <- pow2_add in Hge by lia.
      pose proof (pow2_lt (53 + c) 1024 ltac:(lia)). lra.
    + apply Z.eqb_neq in E53.
      destruct (c <=? 971) eqn:E; [exfalso | reflexivity].
      apply Z.leb_le in E.
      assert ((inject_Z n * Binary64.pow2 c < Binary64.pow2 (53 + c))%Q).
      { rewrite pow2_add, (pow2_nonneg_exp 53) by lia.
        assert ((inject_Z n < inject_Z (2 ^ 53))%Q) by (rewrite <- Zlt_Qlt; lia).
        nra. }
      pose proof (pow2_le (53 + c) 1024 ltac:(lia)). lra.
Qed.

(** *** Comparison

    On finite doubles [SFcompare] is the order of the values. *)

Lemma valid_bounds (s : bool) (m : positive) (e : Z) :
  valid64 (S754_finite s m e) ->
  -1074 <= e <= 971 /\ Zpos m < 2 ^ 53 /\ (e = -1074 \/ 2 ^ 52 <= Zpos m)
  /\ e = fexp64 (Zdigits2 (Zpos m) + e).
Proof.
  intros H. apply valid_finite in H. destruct H as [Hc He].
  change (Zpos (digits2_pos m)) with (Zdigits2 (Zpos m)) in Hc.
  pose proof (Zdigits2_bounds (Zpos m) ltac:(lia)) as [Hlo Hhi].
  assert (Hd : Zdigits2 (Zpos m) <= 53) by (unfold fexp64 in Hc; lia).
  split; [unfold fexp64 in Hc; lia |]. split.
  - eapply Z.lt_le_trans; [exact Hhi |]. apply Z.pow_le_mono_r; lia.
  - split; [| symmetry; exact Hc].
    destruct (Z.eq_dec e (-1074)); [left; assumption | right].
    assert (Zdigits2 (Zpos m) = 53) by (unfold fexp64 in Hc; lia).
    replace (Zdigits2 (Zpos m) - 1) with 52 in Hlo by lia. exact Hlo.
Qed.

Lemma finite_lt_exp (s1 s2 : bool) (m1 m2 : positive) (e1 e2 : Z) :
  valid64 (S754_finite s1 m1 e1) -> valid64 (S754_finite s2 m2 e2) -> e1 < e2 ->
  (inject_Z (Zpos m1) * Binary64.pow2 e1 < inject_Z (Zpos m2) * Binary64.pow2 e2)%Q.
Proof.
  intros V1 V2 Hlt.
  apply valid_bounds in V1. apply valid_bounds in V2.
  destruct V1 as (He1 & Hm1 & _). destruct V2 as (He2 & _ & Hn2 & _).
  destruct Hn2 as [-> | Hn2]; [lia |].
  assert (H1 : (inject_Z (Zpos m1) * Binary64.pow2 e1 < Binary64.pow2 (53 + e1))%Q).
  { rewrite pow2_add, (pow2_nonneg_exp 53) by lia.
    pose proof (pow2_pos e1).
    assert ((inject_Z (Zpos m1) < inject_Z (2 ^ 53))%Q) by (rewrite <- Zlt_Qlt; lia).
    nra. }
  assert (H2 : (Binary64.pow2 (52 + e2) <= inject_Z (Zpos m2) * Binary64.pow2 e2)%Q).
  { rewrite pow2_add, (pow2_nonneg_exp 52) by lia.
    pose proof (pow2_pos e2).
    assert ((inject_Z (2 ^ 52) <= inject_Z (Zpos m2))%Q) by (rewrite <- Zle_Qle; lia).
    nra. }
  pose proof (pow2_le (53 + e1) (52 + e2) ltac:(lia)). lra.
Qed.

Lemma magnitude_pos (m : positive) (e : Z) : (0 < inject_Z (Zpos m) * Binary64.pow2 e)%Q.
Proof.
  pose proof (pow2_pos e).
  assert ((0 < inject_Z (Zpos m))%Q) by (change 0%Q with (inject_Z 0); rewrite <- Zlt_Qlt; lia).
  nra.
Qed.

Lemma SFcompare_Q (f1 f2 : spec_float) :
  finz f1 = true -> finz f2 = true -> valid64 f1 -> valid64 f2 ->
  SFcompare f1 f2 = Some (F2Q f1 ?= F2Q f2)%Q.
Proof.
  intros Z1 Z2 V1 V2.
  destruct f1 as [s1 | s1 | | s1 m1 e1]; try discriminate;
  destruct f2 as [s2 | s2 | | s2 m2 e2]; try discriminate; simpl SFcompare; [reflexivity | f_equal; symmetry ..].
  - unfold F2Q. pose proof (magnitude_pos m2 e2).
    destruct s2; [apply (proj1 (Qgt_alt _ _)) | apply (proj1 (Qlt_alt _ _))]; hide_pos; lra.
  - unfold F2Q. pose proof (magnitude_pos m1 e1).
    destruct s1; [apply (proj1 (Qlt_alt _ _)) | apply (proj1 (Qgt_alt _ _))]; hide_pos; lra.
  - unfold F2Q. pose proof (magnitude_pos m1 e1). pose proof (magnitude_pos m2 e2).
    destruct s1, s2.
    + destruct (Z.compare_spec e1 e2) as [Heq | Hlt | Hgt].
      * subst e2. change (Pos.compare_cont Eq m1 m2) with (m1 ?= m2)%positive.
        pose proof (pow2_pos e1).
        destruct (Pos.compare_spec m1 m2) as [-> | Hm | Hm]; simpl CompOpp.
        -- apply (proj1 (Qeq_alt _ _)). reflexivity.
        -- apply (proj1 (Qgt_alt _ _)).
           assert ((inject_Z (Zpos m1) < inject_Z (Zpos m2))%Q) by (rewrite <- Zlt_Qlt; lia).
           hide_pos; nra.
        -- apply (proj1 (Qlt_alt _ _)).
           assert ((inject_Z (Zpos m2) < inject_Z (Zpos m1))%Q) by (rewrite <- Zlt_Qlt; lia).
           hide_pos; nra.
      * apply (proj1 (Qgt_alt _ _)). pose proof (finite_lt_exp _ _ _ _ _ _ V1 V2 Hlt). hide_pos; lra.
      * apply (proj1 (Qlt_alt _ _)). pose proof (finite_lt_exp _ _ _ _ _ _ V2 V1 Hgt). hide_pos; lra.
    + apply (proj1 (Qlt_alt _ _)). hide_pos; lra.
    + apply (proj1 (Qgt_alt _ _)). hide_pos; lra.
    + destruct (Z.compare_spec e1 e2) as [Heq | Hlt | Hgt].
      * subst e2. change (Pos.compare_cont Eq m1 m2) with (m1 ?= m2)%positive.
        pose proof (pow2_pos e1).
        destruct (Pos.compare_spec m1 m2) as [-> | Hm | Hm].
        -- apply (proj1 (Qeq_alt _ _)). reflexivity.
        -- apply (proj1 (Qlt_alt _ _)).
           assert ((inject_Z (Zpos m1) < inject_Z (Zpos m2))%Q) by (rewrite <- Zlt_Qlt; lia).
           hide_pos; nra.
        -- apply (proj1 (Qgt_alt _ _)).
           assert ((inject_Z (Zpos m2) < inject_Z (Zpos m1))%Q) by (rewrite <- Zlt_Qlt; lia).
           hide_pos; nra.
      * apply (proj1 (Qlt_alt _ _)). exact (finite_lt_exp _ _ _ _ _ _ V1 V2 Hlt).
      * apply (proj1 (Qgt_alt _ _)). exact (finite_lt_exp _ _ _ _ _ _ V2 V1 Hgt).
Qed.

Lemma SFltb_Q (f1 f2 : spec_float) :
  finz f1 = true -> finz f2 = true -> valid64 f1 -> valid64 f2 ->
  (SFltb f1 f2 = true <-> (F2Q f1 < F2Q f2)%Q).
Proof.
  intros Z1 Z2 V1 V2. unfold SFltb. rewrite (SFcompare_Q _ _ Z1 Z2 V1 V2).
  rewrite Qlt_alt. destruct (F2Q f1 ?= F2Q f2)%Q; split; congruence.
Qed.

Lemma SFleb_Q (f1 f2 : spec_float) :
  finz f1 = true -> finz f2 = true -> valid64 f1 -> valid64 f2 ->
  (SFleb f1 f2 = true <-> (F2Q f1 <= F2Q f2)%Q).
Proof.
  intros Z1 Z2 V1 V2. unfold SFleb. rewrite (SFcompare_Q _ _ Z1 Z2 V1 V2).
  rewrite Qle_alt. destruct (F2Q f1 ?= F2Q f2)%Q; split; congruence.
Qed.

Lemma mag_compat (k : Z) (v v' : Q) : (v == v')%Q -> mag k v -> mag k v'.
Proof.
  unfold mag. intros E [H1 H2]. rewrite <- E. split; assumption.
Qed.

Lemma Rounded_compat (v v' : Q) (n c : Z) : (v == v')%Q -> Rounded v n c -> Rounded v' n c.
Proof.
  intros E (k & Hm & Hc & Hn). exists k. split; [exact (mag_compat _ _ _ E Hm) |].
  split; [exact Hc |]. apply (Near_compat (v / Binary64.pow2 c)); [| exact Hn].
  rewrite E. reflexivity.
Qed.

Lemma Rnd_compat (v v' r r' : Q) : (v == v')%Q -> (r == r')%Q -> Rnd v r -> Rnd v' r'.
Proof.
  intros Ev Er [[H1 H2] | [[H1 (n & c & R & H2)] | [H1 (n & c & R & H2)]]].
  - left. split; lra.
  - right; left. split; [lra |]. exists n, c. split; [exact (Rounded_compat _ _ _ _ Ev R) | lra].
  - right; right. split; [lra |]. exists n, c. split; [| lra].
    apply (Rounded_compat (- v)); [rewrite Ev; reflexivity | exact R].
Qed.

Lemma Rnd_opp (v r : Q) : Rnd v r -> Rnd (- v) (- r).
Proof.
  intros [[H1 H2] | [[H1 (n & c & R & H2)] | [H1 (n & c & R & H2)]]].
  - left. split; lra.
  - right; right. split; [lra |]. exists n, c. split; [| lra].
    apply (Rounded_compat v); [ring | exact R].
  - right; left. split; [lra |]. exists n, c. split; [exact R | lra].
Qed.

Lemma Rnd_mono (v1 v2 r1 r2 : Q) : Rnd v1 r1 -> Rnd v2 r2 -> (v1 <= v2)%Q -> (r1 <= r2)%Q.
Proof.
  intros [[A1 A2] | [[A1 (n1 & c1 & R1 & A2)] | [A1 (n1 & c1 & R1 & A2)]]]
         [[B1 B2] | [[B1 (n2 & c2 & R2 & B2)] | [B1 (n2 & c2 & R2 & B2)]]] Hle;
    try lra;
    try (pose proof (Rounded_nonneg _ _ _ R1));
    try (pose proof (Rounded_nonneg _ _ _ R2)); try lra.
  - pose proof (Rounded_mono _ _ _ _ _ _ R1 R2 Hle). lra.
  - assert (Hle' : (- v2 <= - v1)%Q) by lra.
    pose proof (Rounded_mono _ _ _ _ _ _ R2 R1 Hle'). lra.
Qed.

Lemma Rnd_sign (v r : Q) : Rnd v r -> ((0 <= v)%Q -> (0 <= r)%Q) /\ ((v <= 0)%Q -> (r <= 0)%Q).
Proof.
  intros [[A1 A2] | [[A1 (n1 & c1 & R1 & A2)] | [A1 (n1 & c1 & R1 & A2)]]];
    try (pose proof (Rounded_nonneg _ _ _ R1)); split; intros; lra.
Qed.

Lemma Rnd_exact (g r : Q) : Fmt g -> Rnd g r -> (r == g)%Q.
Proof.
  intros F R.
  pose proof (Rnd_mono _ _ _ _ F R ltac:(lra)).
  pose proof (Rnd_mono _ _ _ _ R F ltac:(lra)). lra.
Qed.

Lemma Fmt_zero : Fmt 0.
Proof. left. split; reflexivity. Qed.

Lemma Fmt_opp (g : Q) : Fmt g -> Fmt (- g).
Proof. apply Rnd_opp. Qed.

(** a dyadic number with a mantissa of at most 53 bits is representable *)
Lemma Fmt_dyadic (N t : Z) :
  0 <= N <= 2 ^ 53 -> -1074 <= t -> Fmt (inject_Z N * Binary64.pow2 t).
Proof.
  intros HN Ht.
  destruct (Z.eq_dec N 0) as [-> | Hnz].
  { apply (Rnd_compat 0 _ 0 _); [ring | ring | apply Fmt_zero]. }
  pose proof (pow2_pos t) as Hpt.
  assert (Hpos : (0 < inject_Z N * Binary64.pow2 t)%Q).
  { assert ((0 < inject_Z N)%Q) by (change 0%Q with (inject_Z 0); rewrite <- Zlt_Qlt; lia).
    nra. }
  right; left. split; [exact Hpos |].
  destruct (Z.eq_dec N (2 ^ 53)) as [-> | Hne].
  - exists (2 ^ 52), (t + 1). split.
    + apply (Rounded_compat (inject_Z (2 ^ 52) * Binary64.pow2 (t + 1))).
      * rewrite (pow2_shift t 1) by lia. change (inject_Z (2 ^ 1)) with 2%Q.
        change (inject_Z (2 ^ 53)) with (2 * inject_Z (2 ^ 52))%Q. ring.
      * apply Rounded_exact; [lia |]. change (Zdigits2 (2 ^ 52)) with 53.
        unfold fexp64. lia.
    + rewrite (pow2_shift t 1) by lia. change (inject_Z (2 ^ 1)) with 2%Q.
      change (inject_Z (2 ^ 53)) with (2 * inject_Z (2 ^ 52))%Q. ring.
  - set (d := Zdigits2 N).
    pose proof (Zdigits2_bounds N ltac:(lia)) as [Hlo Hhi]. fold d in Hlo, Hhi.
    assert (Hd : d <= 53) by (apply digits_le; lia).
    assert (Hd0 : 0 < d).
    { destruct (Z_lt_le_dec 0 d); [assumption | exfalso].
      assert (2 ^ d <= 2 ^ 0) by (apply Z.pow_le_mono_r; lia).
      change (2 ^ 0) with 1 in *. lia. }
    set (c := fexp64 (d + t)).
    assert (Hct : c <= t) by (unfold c, fexp64; lia).
    exists (N * 2 ^ (t - c)), c.
    assert (Hval : (inject_Z (N * 2 ^ (t - c)) * Binary64.pow2 c == inject_Z N * Binary64.pow2 t)%Q).
    { replace t with (c + (t - c)) at 2 by lia.
      rewrite pow2_shift by lia. rewrite inject_Z_mult. ring. }
    split; [| symmetry; exact Hval].
    exists (d + t). split; [apply mag_of_digits; lia |]. split; [reflexivity |].
    apply (Near_compat (inject_Z (N * 2 ^ (t - c)))); [| apply Near_integer].
    pose proof (pow2_pos c). rewrite <- Hval. field. lra.
Qed.

Lemma valid_Fmt (f : spec_float) : finz f = true -> valid64 f -> Fmt (F2Q f).
Proof.
  intros Z V. destruct f as [s | s | | s m e]; try discriminate.
  - apply Fmt_zero.
  - pose proof (valid_bounds _ _ _ V) as (He & Hm & _).
    unfold F2Q. destruct s; [apply Fmt_opp |]; apply Fmt_dyadic; lia.
Qed.

Lemma Res_compat (v v' : Q) (f : spec_float) : (v == v')%Q -> Res v f -> Res v' f.
Proof.
  intros E (V & r & R & H). split; [exact V |]. exists r. split; [| exact H].
  apply (Rnd_compat v _ r); [exact E | reflexivity | exact R].
Qed.

Lemma mkfloat_Res (s : bool) (v : Q) (n c : Z) :
  (0 < v)%Q -> Rounded v n c -> Res (signed s v) (mkfloat s n c).
Proof.
  intros Hv R. pose proof (Rounded_bounds _ _ _ R) as (Hn & Hc & Hnorm).
  pose proof (Rounded_nonneg _ _ _ R) as Hnn.
  assert (HR : Rnd (signed s v) (signed s (inject_Z n * Binary64.pow2 c))).
  { destruct s; unfold signed.
    - right; right. split; [lra |]. exists n, c. split; [| reflexivity].
      apply (Rounded_compat v); [ring | exact R].
    - right; left. split; [lra |]. exists n, c. split; [exact R | reflexivity]. }
  destruct (Qlt_le_dec (inject_Z n * Binary64.pow2 c) (Binary64.pow2 1024)) as [Hlt | Hge].
  - destruct (mkfloat_finite s n c Hn Hc Hnorm Hlt) as (Hf & Hv' & Hq).
    split; [exact Hv' |]. exists (signed s (inject_Z n * Binary64.pow2 c)). split; [exact HR |].
    left. split; [| split; assumption].
    destruct s; unfold signed; [rewrite Qabs_opp |]; rewrite Qabs_pos; lra.
  - rewrite (mkfloat_overflow s n c Hn Hc Hnorm Hge).
    split; [reflexivity |]. exists (signed s (inject_Z n * Binary64.pow2 c)). split; [exact HR |].
    destruct s; unfold signed; [right; right | right; left]; split; try reflexivity; lra.
Qed.

Lemma Res_zero (s : bool) : Res 0 (S754_zero s).
Proof.
  split; [reflexivity |]. exists 0%Q. split; [apply Fmt_zero |].
  left. split; [reflexivity |]. split; reflexivity.
Qed.

Lemma Res_bounded (v lo hi : Q) (f : spec_float) :
  Res v f -> Fmt lo -> Fmt hi -> (lo <= v <= hi)%Q ->
  (- Binary64.pow2 1024 < lo)%Q -> (hi < Binary64.pow2 1024)%Q ->
  finz f = true /\ valid64 f /\ Rnd v (F2Q f) /\ (lo <= F2Q f <= hi)%Q.
Proof.
  intros (V & r & R & H) Flo Fhi [Hlo Hhi] Blo Bhi.
  pose proof (Rnd_mono _ _ _ _ Flo R Hlo) as H1.
  pose proof (Rnd_mono _ _ _ _ R Fhi Hhi) as H2.
  destruct H as [(Habs & Hf & Hq) | [[Hbig _] | [Hbig _]]]; try lra.
  split; [exact Hf |]. split; [exact V |]. split.
  - apply (Rnd_compat v _ r); [reflexivity | symmetry; exact Hq | exact R].
  - lra.
Qed.

Lemma Res_exact (v : Q) (f : spec_float) :
  Res v f -> Fmt v -> (Qabs v < Binary64.pow2 1024)%Q ->
  finz f = true /\ valid64 f /\ (F2Q f == v)%Q.
Proof.
  intros HR F Habs.
  assert (Hb : (- Binary64.pow2 1024 < v /\ v < Binary64.pow2 1024)%Q).
  { apply Qabs_Qlt_condition in Habs. exact Habs. }
  destruct (Res_bounded v v v f HR F F ltac:(lra) ltac:(lra) ltac:(lra)) as (Hf & V & _ & Hq).
  split; [exact Hf |]. split; [exact V | lra].
Qed.

(** *** The operations

    [binary_normalize] (the conversion of an integer), [SFadd], [SFsub],
    [SFmul] and [SFdiv] return the double for the exact result. *)

Lemma inject_Z_pos (z : Z) : 0 < z -> (0 < inject_Z z)%Q.
Proof. intros H. change 0%Q with (inject_Z 0). rewrite <- Zlt_Qlt. exact H. Qed.

Lemma Qdiv_lt_inv (a b d : Q) : (0 < d)%Q -> (a / d < b)%Q -> (a < b * d)%Q.
Proof.
  intros Hd H. assert (E : (a == a / d * d)%Q) by (field; lra).
  rewrite E. nra.
Qed.

Lemma Qdiv_le_inv (a b d : Q) : (0 < d)%Q -> (b <= a / d)%Q -> (b * d <= a)%Q.
Proof.
  intros Hd H. assert (E : (a == a / d * d)%Q) by (field; lra).
  rewrite E. nra.
Qed.

Lemma bra_Rounded (s : bool) (A B q : Z) (l : location) (e k : Z) :
  0 < A -> 0 < B -> q = A / B -> l = locOf (A mod B) B ->
  mag k (inject_Z A / inject_Z B * Binary64.pow2 e) -> e <= fexp64 k ->
  exists n, binary_round_aux 53 1024 s q e l = mkfloat s n (fexp64 k)
            /\ Rounded (inject_Z A / inject_Z B * Binary64.pow2 e) n (fexp64 k).
Proof.
  intros HA HB Hq Hl Hmag Hek.
  set (c := fexp64 k) in *.
  assert (Hc : -1074 <= c) by (unfold c, fexp64; lia).
  assert (Hpt : 0 < 2 ^ (c - e)) by (apply Z.pow_pos_nonneg; lia).
  set (D := B * 2 ^ (c - e)).
  assert (HD : 0 < D) by (unfold D; nia).
  pose proof (inject_Z_pos A HA) as HAq. pose proof (inject_Z_pos B HB) as HBq.
  pose proof (inject_Z_pos D HD) as HDq.
  pose proof (pow2_pos e) as Hpe. pose proof (pow2_pos c) as Hpc.
  assert (Hce : (Binary64.pow2 c == Binary64.pow2 e * inject_Z (2 ^ (c - e)))%Q).
  { replace c with (e + (c - e)) at 1 by lia. apply pow2_shift. lia. }
  assert (Hval : (inject_Z A / inject_Z B * Binary64.pow2 e / Binary64.pow2 c == inject_Z A / inject_Z D)%Q).
  { unfold D. rewrite inject_Z_mult, Hce.
    pose proof (inject_Z_pos _ Hpt). field. repeat split; lra. }
  destruct Hmag as [Hlo Hhi].
  assert (Hrho_hi : (inject_Z A / inject_Z D < inject_Z (2 ^ 53))%Q).
  { rewrite <- Hval. apply Qlt_shift_div_r; [exact Hpc |].
    rewrite <- (pow2_nonneg_exp 53), <- pow2_add by lia.
    pose proof (pow2_le k (53 + c) ltac:(unfold c, fexp64; lia)). lra. }
  assert (Hlt : A < D * 2 ^ 53).
  { apply (Qdiv_lt_inv _ _ _ HDq) in Hrho_hi.
    rewrite <- inject_Z_mult, <- Zlt_Qlt in Hrho_hi. lia. }
  assert (Hnorm : c = -1074 \/ D * 2 ^ 52 <= A).
  { destruct (Z.eq_dec c (-1074)); [left; assumption | right].
    assert (Hck : c = k - 53) by (unfold c, fexp64 in *; lia).
    assert (Hrho_lo : (inject_Z (2 ^ 52) <= inject_Z A / inject_Z D)%Q).
    { rewrite <- Hval. apply Qle_shift_div_l; [exact Hpc |].
      rewrite <- (pow2_nonneg_exp 52), <- pow2_add by lia.
      replace (52 + c) with (k - 1) by lia. exact Hlo. }
    apply (Qdiv_le_inv _ _ _ HDq) in Hrho_lo.
    rewrite <- inject_Z_mult, <- Zle_Qle in Hrho_lo. lia. }
  exists (round_nearest_even (A / D) (locOf (A mod D) D)). split.
  - apply (binary_round_aux_mkfloat s A B q l e c); try assumption; lia.
  - exists k. split; [split; assumption |]. split; [reflexivity |].
    apply (Near_compat (inject_Z A / inject_Z D)); [symmetry; exact Hval |].
    apply NearZ_Near; [exact HD |]. apply round_nearest_even_NearZ; lia.
Qed.

Lemma iter_xO (m d : positive) : Zpos (Pos.iter xO m d) = Zpos m * 2 ^ Zpos d.
Proof.
  induction d as [| d IH] using Pos.peano_ind.
  - simpl. lia.
  - rewrite Pos.iter_succ, Pos2Z.inj_succ, Z.pow_succ_r by lia.
    rewrite Pos2Z.inj_xO, IH. ring.
Qed.

Lemma shl_align_spec (m : positive) (e e' : Z) :
  e' <= e ->
  Zpos (fst (shl_align m e e')) = Zpos m * 2 ^ (e - e') /\ snd (shl_align m e e') = e'.
Proof.
  intros H. unfold shl_align.
  destruct (e' - e) as [| p | p] eqn:E.
  - replace (e - e') with 0 by lia. simpl. split; lia.
  - lia.
  - replace (e - e') with (Zpos p) by lia. simpl fst. simpl snd.
    split; [apply iter_xO | reflexivity].
Qed.

Lemma shl_align_id (m : positive) (e e' : Z) : e <= e' -> shl_align m e e' = (m, e).
Proof.
  intros H. unfold shl_align. destruct (e' - e) as [| p | p] eqn:E; try reflexivity. lia.
Qed.

Lemma signed_compat (s : bool) (a b : Q) : (a == b)%Q -> (signed s a == signed s b)%Q.
Proof. intros E. destruct s; unfold signed; rewrite E; reflexivity. Qed.

Lemma binary_round_Res (s : bool) (m : positive) (e : Z) :
  Res (signed s (inject_Z (Zpos m) * Binary64.pow2 e)) (binary_round 53 1024 s m e).
Proof.
  unfold binary_round. rewrite fexp_is_fexp64.
  change (Zpos (digits2_pos m)) with (Zdigits2 (Zpos m)).
  set (k := Zdigits2 (Zpos m) + e). set (c := fexp64 k).
  pose proof (mag_of_digits (Zpos m) e ltac:(lia)) as Hmag. fold k in Hmag.
  pose proof (magnitude_pos m e) as Hpos.
  assert (Hgen : forall (mz : positive) (ez : Z),
            (inject_Z (Zpos mz) * Binary64.pow2 ez == inject_Z (Zpos m) * Binary64.pow2 e)%Q -> ez <= c ->
            Res (signed s (inject_Z (Zpos m) * Binary64.pow2 e))
                (binary_round_aux 53 1024 s (Zpos mz) ez loc_Exact)).
  { intros mz ez Hval Hez.
    assert (Hv : (inject_Z (Zpos mz) / inject_Z 1 * Binary64.pow2 ez == inject_Z (Zpos m) * Binary64.pow2 e)%Q).
    { rewrite <- Hval. change (inject_Z 1) with 1%Q. field. }
    destruct (bra_Rounded s (Zpos mz) 1 (Zpos mz) loc_Exact ez k) as (n & Hbra & HR).
    - lia.
    - lia.
    - symmetry. apply Z.div_1_r.
    - rewrite Z.mod_1_r. reflexivity.
    - apply (mag_compat _ _ _ (Qeq_sym _ _ Hv)). exact Hmag.
    - exact Hez.
    - rewrite Hbra. apply mkfloat_Res; [exact Hpos |].
      apply (Rounded_compat _ _ _ _ Hv). exact HR. }
  destruct (Z_le_gt_dec c e) as [Hce | Hce].
  - destruct (shl_align_spec m e c Hce) as [Hm He].
    destruct (shl_align m e c) as [mz ez]. cbn [fst snd] in Hm, He. subst ez.
    apply Hgen; [| lia].
    rewrite Hm, inject_Z_mult.
    replace e with (c + (e - c)) at 2 by lia. rewrite pow2_shift by lia. ring.
  - rewrite shl_align_id by lia. apply Hgen; [reflexivity | lia].
Qed.

Lemma binary_normalize_Res (z e : Z) :
  Res (inject_Z z * Binary64.pow2 e) (binary_normalize 53 1024 z e false).
Proof.
  destruct z as [| m | m]; simpl binary_normalize.
  - apply (Res_compat 0); [ring | apply Res_zero].
  - apply (binary_round_Res false m e).
  - apply (Res_compat (signed true (inject_Z (Zpos m) * Binary64.pow2 e))).
    + unfold signed. change (inject_Z (Zneg m)) with (- inject_Z (Zpos m))%Q. ring.
    + apply binary_round_Res.
Qed.

Lemma F2Q_bound (f : spec_float) : valid64 f -> (Qabs (F2Q f) < Binary64.pow2 1024)%Q.
Proof.
  intros V. destruct f as [s | s | | s m e]; try (simpl; apply pow2_pos).
  pose proof (valid_bounds _ _ _ V) as (He & Hm & _).
  pose proof (magnitude_pos m e) as Hpos.
  assert (H : (inject_Z (Zpos m) * Binary64.pow2 e < Binary64.pow2 1024)%Q).
  { assert ((inject_Z (Zpos m) * Binary64.pow2 e < Binary64.pow2 (53 + e))%Q).
    { rewrite pow2_add, (pow2_nonneg_exp 53) by lia.
      pose proof (pow2_pos e).
      assert ((inject_Z (Zpos m) < inject_Z (2 ^ 53))%Q) by (rewrite <- Zlt_Qlt; lia).
      hide_pos. nra. }
    pose proof (pow2_le (53 + e) 1024 ltac:(lia)). lra. }
  unfold F2Q. destruct s; [rewrite Qabs_opp |]; rewrite Qabs_pos; hide_pos; lra.
Qed.

Lemma Res_self (f : spec_float) : finz f = true -> valid64 f -> Res (F2Q f) f.
Proof.
  intros Z V. split; [exact V |]. exists (F2Q f). split; [apply valid_Fmt; assumption |].
  left. split; [apply F2Q_bound; exact V |]. split; [exact Z | reflexivity].
Qed.

Lemma xorb_signed_mul (a b : bool) (p q : Q) :
  (signed (xorb a b) (p * q) == signed a p * signed b q)%Q.
Proof. destruct a, b; unfold signed; simpl; ring. Qed.

Lemma xorb_signed_div (a b : bool) (p q : Q) :
  ~ (q == 0)%Q -> (signed (xorb a b) (p / q) == signed a p / signed b q)%Q.
Proof. intros H. destruct a, b; unfold signed; simpl; field; lra. Qed.

Lemma ofInt_Res (z : Z) : Res (inject_Z z) (binary_normalize 53 1024 z 0 false).
Proof.
  apply (Res_compat (inject_Z z * Binary64.pow2 0)); [| apply binary_normalize_Res].
  change (Binary64.pow2 0) with 1%Q. ring.
Qed.

Lemma SFmul_Res (x y : spec_float) :
  finz x = true -> finz y = true -> valid64 x -> valid64 y ->
  Res (F2Q x * F2Q y) (SFmul 53 1024 x y).
Proof.
  intros Zx Zy Vx Vy.
  destruct x as [sx | sx | | sx mx ex]; try discriminate;
  destruct y as [sy | sy | | sy my ey]; try discriminate; simpl SFmul;
    try (apply (Res_compat 0); [simpl F2Q; ring | apply Res_zero]).
  pose proof (valid_bounds _ _ _ Vx) as (Hex & Hmx & Hnx & _).
  pose proof (valid_bounds _ _ _ Vy) as (Hey & Hmy & Hny & _).
  set (k := Zdigits2 (Zpos (mx * my)) + (ex + ey)).
  assert (Hv : (inject_Z (Zpos (mx * my)) / inject_Z 1 * Binary64.pow2 (ex + ey)
                == inject_Z (Zpos mx) * Binary64.pow2 ex * (inject_Z (Zpos my) * Binary64.pow2 ey))%Q).
  { rewrite Pos2Z.inj_mul, inject_Z_mult, pow2_add. change (inject_Z 1) with 1%Q. field. }
  assert (Hpos : (0 < inject_Z (Zpos mx) * Binary64.pow2 ex * (inject_Z (Zpos my) * Binary64.pow2 ey))%Q).
  { pose proof (magnitude_pos mx ex). pose proof (magnitude_pos my ey). hide_pos. nra. }
  assert (Hek : ex + ey <= fexp64 k).
  { assert (Hd : forall t, 0 <= t -> 2 ^ t <= Zpos (mx * my) -> ex + ey + t + 1 - 53 <= fexp64 k).
    { intros t Ht Hge. pose proof (digits_ge _ _ Ht Hge). unfold k, fexp64. lia. }
    destruct Hnx as [Hnx | Hnx]; destruct Hny as [Hny | Hny].
    - unfold fexp64. lia.
    - destruct (Z_le_gt_dec ey 0); [unfold fexp64; lia |].
      specialize (Hd 52 ltac:(lia)). rewrite Pos2Z.inj_mul in Hd.
      assert (2 ^ 52 <= Zpos mx * Zpos my) by nia. lia.
    - destruct (Z_le_gt_dec ex 0); [unfold fexp64; lia |].
      specialize (Hd 52 ltac:(lia)). rewrite Pos2Z.inj_mul in Hd.
      assert (2 ^ 52 <= Zpos mx * Zpos my) by nia. lia.
    - specialize (Hd 104 ltac:(lia)). rewrite Pos2Z.inj_mul in Hd.
      assert (2 ^ 104 <= Zpos mx * Zpos my).
      { change (2 ^ 104) with (2 ^ 52 * 2 ^ 52). nia. }
      lia. }
  destruct (bra_Rounded (xorb sx sy) (Zpos (mx * my)) 1 (Zpos (mx * my)) loc_Exact
              (ex + ey) k) as (n & Hbra & HR).
  - lia.
  - lia.
  - symmetry. apply Z.div_1_r.
  - rewrite Z.mod_1_r. reflexivity.
  - apply (mag_compat (k) (inject_Z (Zpos (mx * my)) * Binary64.pow2 (ex + ey))).
    + change (inject_Z 1) with 1%Q. field.
    + apply mag_of_digits. lia.
  - exact Hek.
  - rewrite Hbra.
    apply (Res_compat (signed (xorb sx sy)
             (inject_Z (Zpos mx) * Binary64.pow2 ex * (inject_Z (Zpos my) * Binary64.pow2 ey)))).
    + rewrite xorb_signed_mul. reflexivity.
    + apply mkfloat_Res; [exact Hpos |]. apply (Rounded_compat _ _ _ _ Hv). exact HR.
Qed.

Lemma aligned_value (s : bool) (m : positive) (e ez : Z) :
  ez <= e ->
  (inject_Z (cond_Zopp s (Zpos (fst (shl_align m e ez)))) * Binary64.pow2 ez
   == F2Q (S754_finite s m e))%Q.
Proof.
  intros H. destruct (shl_align_spec m e ez H) as [Hm _]. rewrite Hm.
  assert (E : (Binary64.pow2 e == Binary64.pow2 ez * inject_Z (2 ^ (e - ez)))%Q).
  { replace e with (ez + (e - ez)) at 1 by lia. apply pow2_shift. lia. }
  destruct s; unfold F2Q, cond_Zopp; rewrite E;
    [rewrite inject_Z_opp |]; rewrite inject_Z_mult; ring.
Qed.

Lemma SFadd_Res (x y : spec_float) :
  finz x = true -> finz y = true -> valid64 x -> valid64 y ->
  Res (F2Q x + F2Q y) (SFadd 53 1024 x y).
Proof.
  intros Zx Zy Vx Vy.
  destruct x as [sx | sx | | sx mx ex]; try discriminate;
  destruct y as [sy | sy | | sy my ey]; try discriminate.
  - apply (Res_compat 0); [simpl F2Q; ring |].
    simpl. destruct sx, sy; apply Res_zero.
  - apply (Res_compat (F2Q (S754_finite sy my ey))); [simpl F2Q; ring |].
    apply Res_self; assumption.
  - apply (Res_compat (F2Q (S754_finite sx mx ex))); [simpl F2Q; ring |].
    apply Res_self; assumption.
  - unfold SFadd.
    eapply Res_compat; [| apply binary_normalize_Res].
    rewrite inject_Z_plus, Qmult_plus_distr_l.
    rewrite (aligned_value sx mx ex) by lia. rewrite (aligned_value sy my ey) by lia.
    reflexivity.
Qed.

Lemma valid_opp (f : spec_float) : valid64 f -> valid64 (SFopp f).
Proof. destruct f; intros H; exact H. Qed.

Lemma finz_opp (f : spec_float) : finz (SFopp f) = finz f.
Proof. destruct f; reflexivity. Qed.

Lemma F2Q_opp (f : spec_float) : (F2Q (SFopp f) == - F2Q f)%Q.
Proof.
  destruct f as [s | s | | s m e]; simpl; try ring.
  destruct s; simpl; ring.
Qed.

Lemma SFsub_Res (x y : spec_float) :
  finz x = true -> finz y = true -> valid64 x -> valid64 y ->
  Res (F2Q x - F2Q y) (SFsub 53 1024 x y).
Proof.
  intros Zx Zy Vx Vy.
  destruct x as [sx | sx | | sx mx ex]; try discriminate;
  destruct y as [sy | sy | | sy my ey]; try discriminate.
  - apply (Res_compat 0); [simpl F2Q; ring |].
    simpl. destruct sx, sy; apply Res_zero.
  - apply (Res_compat (F2Q (SFopp (S754_finite sy my ey)))).
    + rewrite F2Q_opp. simpl F2Q. ring.
    + apply (Res_self (S754_finite (negb sy) my ey)); [reflexivity | exact Vy].
  - apply (Res_compat (F2Q (S754_finite sx mx ex))); [simpl F2Q; ring |].
    apply Res_self; assumption.
  - unfold SFsub.
    eapply Res_compat; [| apply binary_normalize_Res].
    unfold Z.sub. rewrite inject_Z_plus, inject_Z_opp.
    assert (E : forall a b p : Q, ((a + - b) * p == a * p - b * p)%Q) by (intros; ring).
    rewrite E.
    rewrite (aligned_value sx mx ex) by lia. rewrite (aligned_value sy my ey) by lia.
    reflexivity.
Qed.

Lemma div_eucl_div_mod (a b : Z) : Z.div_eucl a b = (a / b, a mod b).
Proof.
  unfold Z.div, Z.modulo. destruct (Z.div_eucl a b). reflexivity.
Qed.

Lemma SFdiv_Res (x : spec_float) (sy : bool) (my : positive) (ey : Z) :
  finz x = true -> valid64 x -> valid64 (S754_finite sy my ey) ->
  Res (F2Q x / F2Q (S754_finite sy my ey)) (SFdiv 53 1024 x (S754_finite sy my ey)).
Proof.
  intros Zx Vx Vy.
  pose proof (magnitude_pos my ey) as Hy.
  destruct x as [sx | sx | | sx mx ex]; try discriminate.
  - apply (Res_compat 0); [| apply Res_zero].
    unfold F2Q. set (Y := (inject_Z (Zpos my) * Binary64.pow2 ey)%Q) in *. clearbody Y.
    destruct sy; field; lra.
  - pose proof (magnitude_pos mx ex) as Hx.
    unfold SFdiv, SFdiv_core_binary.
    set (d1 := Zdigits2 (Zpos mx)). set (d2 := Zdigits2 (Zpos my)).
    rewrite fexp_is_fexp64.
    set (k0 := d1 + ex - (d2 + ey)).
    set (e' := Z.min (fexp64 k0) (ex - ey)).
    set (s := ex - ey - e').
    assert (Hs : 0 <= s) by (unfold s, e'; lia).
    set (m' := match s with Zpos _ => Z.shiftl (Zpos mx) s | 0 => Zpos mx | Zneg _ => 0 end).
    assert (Hm' : m' = Zpos mx * 2 ^ s).
    { unfold m'. destruct s as [| p | p] eqn:E.
      - simpl. lia.
      - apply Z.shiftl_mul_pow2. lia.
      - lia. }
    assert (Hm'pos : 0 < m').
    { rewrite Hm'. assert (0 < 2 ^ s) by (apply Z.pow_pos_nonneg; lia). nia. }
    rewrite div_eucl_div_mod.
    rewrite new_location_locOf by (try apply Z.mod_pos_bound; lia).
    set (v := (inject_Z m' / inject_Z (Zpos my) * Binary64.pow2 e')%Q).
    assert (Hv : (v == inject_Z (Zpos mx) * Binary64.pow2 ex / (inject_Z (Zpos my) * Binary64.pow2 ey))%Q).
    { unfold v. rewrite Hm', inject_Z_mult.
      assert (E : (Binary64.pow2 ex == Binary64.pow2 ey * (Binary64.pow2 e' * inject_Z (2 ^ s)))%Q).
      { rewrite <- pow2_shift, <- pow2_add by lia. unfold s.
        replace (ey + (e' + (ex - ey - e'))) with ex by lia. reflexivity. }
      rewrite E. pose proof (pow2_pos ey). pose proof (pow2_pos e').
      assert (0 < inject_Z (Zpos my))%Q by (apply inject_Z_pos; lia).
      hide_pos. field. split; lra. }
    pose proof (mag_of_digits (Zpos mx) ex ltac:(lia)) as [Hx1 Hx2]. fold d1 in Hx1, Hx2.
    pose proof (mag_of_digits (Zpos my) ey ltac:(lia)) as [Hy1 Hy2]. fold d2 in Hy1, Hy2.
    set (X := (inject_Z (Zpos mx) * Binary64.pow2 ex)%Q) in *.
    set (Y := (inject_Z (Zpos my) * Binary64.pow2 ey)%Q) in *.
    assert (Hup : (X / Y < Binary64.pow2 (k0 + 1))%Q).
    { apply Qlt_shift_div_r; [exact Hy |].
      assert (E : (Binary64.pow2 (d1 + ex) == Binary64.pow2 (k0 + 1) * Binary64.pow2 (d2 + ey - 1))%Q).
      { rewrite <- pow2_add. unfold k0.
        replace (d1 + ex - (d2 + ey) + 1 + (d2 + ey - 1)) with (d1 + ex) by lia. reflexivity. }
      pose proof (pow2_pos (k0 + 1)). nra. }
    assert (Hdn : (Binary64.pow2 (k0 - 1) <= X / Y)%Q).
    { apply Qle_shift_div_l; [exact Hy |].
      assert (E : (Binary64.pow2 (d1 + ex - 1) == Binary64.pow2 (k0 - 1) * Binary64.pow2 (d2 + ey))%Q).
      { rewrite <- pow2_add. unfold k0.
        replace (d1 + ex - (d2 + ey) - 1 + (d2 + ey)) with (d1 + ex - 1) by lia. reflexivity. }
      pose proof (pow2_pos (k0 - 1)). nra. }
    assert (Hk : exists k, mag k v /\ e' <= fexp64 k).
    { destruct (Qlt_le_dec (X / Y) (Binary64.pow2 k0)) as [Hlt | Hge].
      - exists k0. split; [apply (mag_compat _ _ _ (Qeq_sym _ _ Hv)); split; assumption |].
        unfold e'. lia.
      - exists (k0 + 1). split.
        + apply (mag_compat _ _ _ (Qeq_sym _ _ Hv)).
          split; [replace (k0 + 1 - 1) with k0 by lia |]; assumption.
        + unfold e', fexp64. lia. }
    destruct Hk as (k & Hmag & Hek).
    destruct (bra_Rounded (xorb sx sy) m' (Zpos my) (m' / Zpos my)
                (locOf (m' mod Zpos my) (Zpos my)) e' k) as (n & Hbra & HR);
      try assumption; try reflexivity; try lia.
    rewrite Hbra.
    apply (Res_compat (signed (xorb sx sy) v)).
    + rewrite (signed_compat _ _ _ Hv). fold X Y.
      rewrite xorb_signed_div by lra. reflexivity.
    + apply mkfloat_Res; [| exact HR].
      rewrite Hv. fold X Y. apply Qlt_shift_div_l; lra.
Qed.

(** *** Consequences *)

Lemma Res_cases (v : Q) (f : spec_float) :
  Res v f -> finz f = true \/ f = S754_infinity false \/ f = S754_infinity true.
Proof.
  intros (_ & r & _ & [(_ & H & _) | [[_ H] | [_ H]]]); auto.
Qed.

Lemma SFleb_ninf (f : spec_float) : f <> S754_nan -> SFleb (S754_infinity true) f = true.
Proof. destruct f as [s | s | | s m e]; try destruct s; intros H; try reflexivity; congruence. Qed.

Lemma SFleb_pinf (f : spec_float) : f <> S754_nan -> SFleb f (S754_infinity false) = true.
Proof. destruct f as [s | s | | s m e]; try destruct s; intros H; try reflexivity; congruence. Qed.

Lemma Res_not_nan (v : Q) (f : spec_float) : Res v f -> f <> S754_nan.
Proof.
  intros H E. apply Res_cases in H. subst f. destruct H as [H | [H | H]]; discriminate.
Qed.

(** rounding is monotone, overflow included *)
Lemma Res_leb (v1 v2 : Q) (f1 f2 : spec_float) :
  Res v1 f1 -> Res v2 f2 -> (v1 <= v2)%Q -> SFleb f1 f2 = true.
Proof.
  intros R1 R2 Hle.
  pose proof (Res_not_nan _ _ R1) as N1. pose proof (Res_not_nan _ _ R2) as N2.
  destruct R1 as (V1 & r1 & Rn1 & H1). destruct R2 as (V2 & r2 & Rn2 & H2).
  pose proof (Rnd_mono _ _ _ _ Rn1 Rn2 Hle) as Hr.
  pose proof (pow2_pos 1024) as Hp.
  destruct H1 as [(A1 & Z1 & Q1) | [[A1 ->] | [A1 ->]]].
  - apply Qabs_Qlt_condition in A1.
    destruct H2 as [(A2 & Z2 & Q2) | [[A2 ->] | [A2 ->]]].
    + apply SFleb_Q; try assumption. lra.
    + apply SFleb_pinf. exact N1.
    + lra.
  - destruct H2 as [(A2 & Z2 & Q2) | [[A2 ->] | [A2 ->]]].
    + apply Qabs_Qlt_condition in A2. lra.
    + reflexivity.
    + lra.
  - apply SFleb_ninf. exact N2.
Qed.

(** division by a positive finite double is monotone *)
Lemma SFdiv_monotone (a b : spec_float) (m : positive) (e : Z) :
  valid64 a -> valid64 b -> valid64 (S754_finite false m e) ->
  SFleb a b = true ->
  SFleb (SFdiv 53 1024 a (S754_finite false m e)) (SFdiv 53 1024 b (S754_finite false m e))
  = true.
Proof.
  intros Va Vb Vr Hab.
  pose proof (magnitude_pos m e) as Hr.
  assert (Hfin : forall x, finz x = true -> valid64 x ->
            Res (F2Q x / (inject_Z (Zpos m) * Binary64.pow2 e)) (SFdiv 53 1024 x (S754_finite false m e))).
  { intros x Zx Vx. exact (SFdiv_Res x false m e Zx Vx Vr). }
  assert (Hinf : forall s, SFdiv 53 1024 (S754_infinity s) (S754_finite false m e)
                           = S754_infinity s).
  { intros s. destruct s; reflexivity. }
  assert (Hnn : forall x, x <> S754_nan -> valid64 x ->
            SFdiv 53 1024 x (S754_finite false m e) <> S754_nan).
  { intros x Hx Vx. destruct (finz x) eqn:Zx.
    - exact (Res_not_nan _ _ (Hfin x Zx Vx)).
    - destruct x as [s | s | | s mx ex]; try discriminate Zx; [| congruence].
      rewrite Hinf. discriminate. }
  assert (Na : a <> S754_nan) by (intros ->; discriminate Hab).
  assert (Nb : b <> S754_nan).
  { intros ->. destruct a as [s | s | | s ma ea]; try destruct s; discriminate Hab. }
  destruct (finz a) eqn:Za.
  - destruct (finz b) eqn:Zb.
    + apply (Res_leb _ _ _ _ (Hfin a Za Va) (Hfin b Zb Vb)).
      apply (SFleb_Q a b Za Zb Va Vb) in Hab.
      unfold Qdiv. apply Qmult_le_compat_r; [exact Hab |].
      apply Qlt_le_weak, Qinv_lt_0_compat. exact Hr.
    + destruct b as [s | s | | s mb eb]; try discriminate Zb; [| congruence].
      destruct s.
      * destruct a as [s | s | | s ma ea]; try destruct s; discriminate.
      * rewrite Hinf. apply SFleb_pinf. apply Hnn; assumption.
  - destruct a as [s | s | | s ma ea]; try discriminate Za; [| congruence].
    destruct s.
    + rewrite Hinf. apply SFleb_ninf. apply Hnn; assumption.
    + destruct b as [s | s | | s mb eb]; try destruct s; try discriminate Hab.
      reflexivity.
Qed.

Lemma Fmt_signed (N t : Z) :
  Z.abs N <= 2 ^ 53 -> -1074 <= t -> Fmt (inject_Z N * Binary64.pow2 t).
Proof.
  intros HN Ht. destruct (Z_le_gt_dec 0 N).
  - apply Fmt_dyadic; lia.
  - apply (Rnd_compat (- (inject_Z (- N) * Binary64.pow2 t)) _ (- (inject_Z (- N) * Binary64.pow2 t))).
    + rewrite inject_Z_opp. ring.
    + rewrite inject_Z_opp. ring.
    + apply Fmt_opp, Fmt_dyadic; lia.
Qed.

Lemma dyadic_bound (N t : Z) :
  Z.abs N <= 2 ^ 53 -> t <= 970 -> (Qabs (inject_Z N * Binary64.pow2 t) < Binary64.pow2 1024)%Q.
Proof.
  intros HN Ht. rewrite Qabs_Qmult.
  change (Qabs (inject_Z N)) with (inject_Z (Z.abs N)).
  pose proof (pow2_pos t). rewrite (Qabs_pos (Binary64.pow2 t)) by lra.
  assert (H1 : (inject_Z (Z.abs N) <= inject_Z (2 ^ 53))%Q) by (rewrite <- Zle_Qle; exact HN).
  assert (H2 : (inject_Z (2 ^ 53) * Binary64.pow2 t < Binary64.pow2 1024)%Q).
  { rewrite <- (pow2_nonneg_exp 53), <- pow2_add by lia. apply pow2_lt. lia. }
  assert (H3 : (0 <= inject_Z (Z.abs N))%Q).
  { change 0%Q with (inject_Z 0). rewrite <- Zle_Qle. lia. }
  nra.
Qed.

Lemma Res_dyadic (N t : Z) (v : Q) (f : spec_float) :
  Res v f -> (v == inject_Z N * Binary64.pow2 t)%Q ->
  Z.abs N <= 2 ^ 53 -> -1074 <= t <= 970 ->
  finz f = true /\ valid64 f /\ (F2Q f == inject_Z N * Binary64.pow2 t)%Q.
Proof.
  intros R E HN Ht.
  apply (Res_exact (inject_Z N * Binary64.pow2 t) f).
  - exact (Res_compat _ _ _ E R).
  - apply Fmt_signed; lia.
  - apply dyadic_bound; lia.
Qed.

Lemma Res_int (z : Z) (v : Q) (f : spec_float) :
  Res v f -> (v == inject_Z z)%Q -> Z.abs z <= 2 ^ 53 -> holds z f.
Proof.
  intros R E Hz.
  destruct (Res_dyadic z 0 v f R) as (H1 & H2 & H3); try lia.
  - rewrite E. change (Binary64.pow2 0) with 1%Q. ring.
  - split; [exact H1 |]. split; [exact H2 |]. rewrite H3. change (Binary64.pow2 0) with 1%Q. ring.
Qed.

Lemma ofInt_holds (z : Z) : Z.abs z <= 2 ^ 53 -> holds z (binary_normalize 53 1024 z 0 false).
Proof. intros H. apply (Res_int z _ _ (ofInt_Res z)); [reflexivity | exact H]. Qed.

Lemma SFadd_holds (a b : Z) (fa fb : spec_float) :
  holds a fa -> holds b fb -> Z.abs (a + b) <= 2 ^ 53 -> holds (a + b) (SFadd 53 1024 fa fb).
Proof.
  intros (Za & Va & Qa) (Zb & Vb & Qb) H.
  apply (Res_int _ _ _ (SFadd_Res fa fb Za Zb Va Vb)); [| exact H].
  rewrite Qa, Qb, inject_Z_plus. reflexivity.
Qed.

Lemma SFsub_holds (a b : Z) (fa fb : spec_float) :
  holds a fa -> holds b fb -> Z.abs (a - b) <= 2 ^ 53 -> holds (a - b) (SFsub 53 1024 fa fb).
Proof.
  intros (Za & Va & Qa) (Zb & Vb & Qb) H.
  apply (Res_int _ _ _ (SFsub_Res fa fb Za Zb Va Vb)); [| exact H].
  rewrite Qa, Qb. unfold Z.sub. rewrite inject_Z_plus, inject_Z_opp. reflexivity.
Qed.

Lemma holds_finite (z : Z) (f : spec_float) :
  holds z f -> 0 < z -> exists m e, f = S754_finite false m e.
Proof.
  intros (Zf & Vf & Qf) Hz. pose proof (inject_Z_pos z Hz) as Hq.
  destruct f as [s | s | | s m e]; try discriminate Zf.
  - simpl in Qf. lra.
  - destruct s; [| exists m, e; reflexivity].
    pose proof (magnitude_pos m e). unfold F2Q in Qf. hide_pos. lra.
Qed.

(** A finite double that is not zero is determined by its value. *)
Lemma valid_unique (f1 f2 : spec_float) :
  finz f1 = true -> finz f2 = true -> valid64 f1 -> valid64 f2 ->
  (F2Q f1 == F2Q f2)%Q -> ~ (F2Q f1 == 0)%Q -> f1 = f2.
Proof.
  intros Z1 Z2 V1 V2 E N.
  destruct f1 as [s1 | s1 | | s1 m1 e1]; try discriminate Z1.
  { exfalso. apply N. reflexivity. }
  destruct f2 as [s2 | s2 | | s2 m2 e2]; try discriminate Z2.
  { exfalso. apply N. rewrite E. reflexivity. }
  pose proof (magnitude_pos m1 e1) as P1. pose proof (magnitude_pos m2 e2) as P2.
  assert (Hs : s1 = s2).
  { unfold F2Q in E. destruct s1, s2; try reflexivity; exfalso; hide_pos; lra. }
  subst s2.
  assert (Hv : (inject_Z (Zpos m1) * Binary64.pow2 e1 == inject_Z (Zpos m2) * Binary64.pow2 e2)%Q).
  { unfold F2Q in E. destruct s1; hide_pos; lra. }
  assert (He : e1 = e2).
  { destruct (Z.lt_trichotomy e1 e2) as [H | [H | H]]; [exfalso | exact H | exfalso].
    - pose proof (finite_lt_exp _ _ _ _ _ _ V1 V2 H). hide_pos. lra.
    - pose proof (finite_lt_exp _ _ _ _ _ _ V2 V1 H). hide_pos. lra. }
  subst e2.
  assert (Hm : Zpos m1 = Zpos m2).
  { apply (proj1 (inject_Z_injective _ _)).
    pose proof (pow2_pos e1) as Hp.
    apply (Qmult_inj_r _ _ (Binary64.pow2 e1)); [lra | exact Hv]. }
  congruence.
Qed.

Lemma holds_unique (z : Z) (f1 f2 : spec_float) :
  holds z f1 -> holds z f2 -> z <> 0 -> f1 = f2.
Proof.
  intros (Z1 & V1 & Q1) (Z2 & V2 & Q2) Hz.
  apply valid_unique; try assumption.
  - rewrite Q1, Q2. reflexivity.
  - rewrite Q1. change 0%Q with (inject_Z 0). rewrite inject_Z_injective. exact Hz.
Qed.

Lemma holds_zero (f : spec_float) : holds 0 f -> exists s, f = S754_zero s.
Proof.
  intros (Zf & Vf & Qf).
  destruct f as [s | s | | s m e]; try discriminate Zf; [exists s; reflexivity |].
  exfalso. pose proof (magnitude_pos m e). unfold F2Q in Qf.
  change (inject_Z 0) with 0%Q in Qf. destruct s; hide_pos; lra.
Qed.

Lemma positive_finite (f : spec_float) :
  finz f = true -> (0 < F2Q f)%Q -> exists m e, f = S754_finite false m e.
Proof.
  intros Zf Hq.
  destruct f as [s | s | | s m e]; try discriminate Zf.
  - simpl in Hq. lra.
  - destruct s; [| exists m, e; reflexivity].
    pose proof (magnitude_pos m e). unfold F2Q in Hq. hide_pos. lra.
Qed.

(** ** The edges of a range cut in 2^j cells

    The range starts at [- base] and has length [2 * base], where
    [base = P * 2^b] with a mantissa [P] of 53 bits; cell [k] starts at
    [- base + delta * k] computed in binary64, [delta = 2 * base / 2^j]. *)
Section Edges.

Variables (P b j : Z).
Hypothesis HP : 2 ^ 52 <= P < 2 ^ 53.
Hypothesis Hb : -1000 <= b <= 900.
Hypothesis Hj : 0 <= j <= 30.

Variables (base delta : spec_float).
Hypothesis base_finz : finz base = true.
Hypothesis base_valid : valid64 base.
Hypothesis base_value : (F2Q base == inject_Z P * Binary64.pow2 b)%Q.
Hypothesis delta_finz : finz delta = true.
Hypothesis delta_valid : valid64 delta.
Hypothesis delta_value : (F2Q delta == inject_Z P * Binary64.pow2 (b + 1 - j))%Q.

Lemma pow2_b1 : (Binary64.pow2 (b + 1) == 2 * Binary64.pow2 b)%Q.
Proof. rewrite pow2_shift by lia. change (inject_Z (2 ^ 1)) with 2%Q. ring. Qed.

Lemma pow2_bj : (Binary64.pow2 (b + 1) == Binary64.pow2 (b + 1 - j) * inject_Z (2 ^ j))%Q.
Proof. replace (b + 1) with (b + 1 - j + j) at 1 by lia. apply pow2_shift. lia. Qed.

Lemma two_j_pos : 0 < 2 ^ j.
Proof. apply Z.pow_pos_nonneg; lia. Qed.

Lemma two_j_small : 2 * 2 ^ j <= 2 ^ 52.
Proof.
  change (2 ^ 52) with (2 * 2 ^ 51). 
  assert (2 ^ j <= 2 ^ 51) by (apply Z.pow_le_mono_r; lia). lia.
Qed.

Lemma product_bounds (k : Z) (kf : spec_float) :
  holds k kf -> 0 <= k <= 2 ^ j ->
  let mu := SFmul 53 1024 delta kf in
  finz mu = true /\ valid64 mu
  /\ Rnd (inject_Z P * Binary64.pow2 (b + 1 - j) * inject_Z k) (F2Q mu)
  /\ (0 <= F2Q mu <= inject_Z P * Binary64.pow2 (b + 1))%Q.
Proof.
  intros (Zk & Vk & Qk) Hk mu.
  pose proof (SFmul_Res delta kf delta_finz Zk delta_valid Vk) as R.
  apply (Res_compat _ (inject_Z P * Binary64.pow2 (b + 1 - j) * inject_Z k)) in R;
    [| rewrite delta_value, Qk; reflexivity].
  pose proof (pow2_pos (b + 1 - j)) as Hd.
  assert (HPq : (0 < inject_Z P)%Q) by (apply inject_Z_pos; lia).
  assert (Hk0 : (0 <= inject_Z k)%Q) by (change 0%Q with (inject_Z 0); rewrite <- Zle_Qle; lia).
  assert (Hk1 : (inject_Z k <= inject_Z (2 ^ j))%Q) by (rewrite <- Zle_Qle; lia).
  apply (Res_bounded _ 0 (inject_Z P * Binary64.pow2 (b + 1))); try exact R.
  - apply Fmt_zero.
  - apply Fmt_dyadic; lia.
  - rewrite pow2_bj.
    assert (0 <= inject_Z P * Binary64.pow2 (b + 1 - j))%Q by nra.
    set (pd := (inject_Z P * Binary64.pow2 (b + 1 - j))%Q) in *.
    rewrite Qmult_assoc. fold pd. split; nra.
  - pose proof (pow2_pos 1024). lra.
  - pose proof (dyadic_bound P (b + 1) ltac:(lia) ltac:(lia)) as H.
    apply Qabs_Qlt_condition in H. lra.
Qed.

Lemma edge_bounds (k : Z) (kf : spec_float) :
  holds k kf -> 0 <= k <= 2 ^ j ->
  finz (edge base delta kf) = true /\ valid64 (edge base delta kf)
  /\ Rnd (- F2Q base + F2Q (SFmul 53 1024 delta kf)) (F2Q (edge base delta kf))
  /\ (- F2Q base <= F2Q (edge base delta kf) <= F2Q base)%Q.
Proof.
  intros Hk Hr.
  destruct (product_bounds k kf Hk Hr) as (Zm & Vm & _ & Hm).
  unfold edge.
  pose proof (SFadd_Res (SFopp base) (SFmul 53 1024 delta kf)
                ltac:(rewrite finz_opp; exact base_finz) Zm
                (valid_opp _ base_valid) Vm) as R.
  apply (Res_compat _ (- F2Q base + F2Q (SFmul 53 1024 delta kf))) in R;
    [| rewrite F2Q_opp; reflexivity].
  pose proof (valid_Fmt base base_finz base_valid) as Fb.
  pose proof (F2Q_bound base base_valid) as Bb. apply Qabs_Qlt_condition in Bb.
  rewrite pow2_b1 in Hm.
  assert (HR : (inject_Z P * (2 * Binary64.pow2 b) == 2 * F2Q base)%Q) by (rewrite base_value; ring).
  apply (Res_bounded _ (- F2Q base) (F2Q base)); try exact R.
  - apply Fmt_opp. exact Fb.
  - exact Fb.
  - lra.
  - lra.
  - lra.
Qed.

Lemma edge_increasing (k : Z) (kf kf' : spec_float) :
  holds k kf -> holds (k + 1) kf' -> 0 <= k < 2 ^ j ->
  (F2Q (edge base delta kf) < F2Q (edge base delta kf'))%Q.
Proof.
  intros Hk Hk' Hr.
  destruct (product_bounds k kf Hk ltac:(lia)) as (_ & _ & Rm & _).
  destruct (product_bounds (k + 1) kf' Hk' ltac:(lia)) as (_ & _ & Rm' & _).
  destruct (edge_bounds k kf Hk ltac:(lia)) as (_ & _ & Re & _).
  destruct (edge_bounds (k + 1) kf' Hk' ltac:(lia)) as (_ & _ & Re' & _).
  pose proof two_j_pos as Hjp. pose proof two_j_small as Hjs.
  set (G := (P * k + 2 ^ j - 1) / 2 ^ j).
  assert (HG1 : P * k <= G * 2 ^ j).
  { unfold G. pose proof (Z.div_mod (P * k + 2 ^ j - 1) (2 ^ j) ltac:(lia)).
    pose proof (Z.mod_pos_bound (P * k + 2 ^ j - 1) (2 ^ j) Hjp). nia. }
  assert (HG2 : (G + 1) * 2 ^ j <= P * (k + 1)).
  { unfold G. pose proof (Z.div_mod (P * k + 2 ^ j - 1) (2 ^ j) ltac:(lia)).
    pose proof (Z.mod_pos_bound (P * k + 2 ^ j - 1) (2 ^ j) Hjp). nia. }
  assert (HG0 : 0 <= G) by (unfold G; apply Z.div_pos; nia).
  assert (HGP : G + 1 <= P) by nia.
  pose proof (pow2_pos (b + 1 - j)) as Hd. pose proof (pow2_pos b) as Hpb.
  (* separators between the two products *)
  assert (S1 : (inject_Z P * Binary64.pow2 (b + 1 - j) * inject_Z k <= inject_Z G * Binary64.pow2 (b + 1))%Q).
  { rewrite pow2_bj.
    assert ((inject_Z (P * k) <= inject_Z (G * 2 ^ j))%Q) by (rewrite <- Zle_Qle; exact HG1).
    rewrite !inject_Z_mult in H. nra. }
  assert (S2 : (inject_Z (G + 1) * Binary64.pow2 (b + 1)
                <= inject_Z P * Binary64.pow2 (b + 1 - j) * inject_Z (k + 1))%Q).
  { rewrite pow2_bj.
    assert ((inject_Z ((G + 1) * 2 ^ j) <= inject_Z (P * (k + 1)))%Q)
      by (rewrite <- Zle_Qle; exact HG2).
    rewrite !inject_Z_mult in H. nra. }
  pose proof (Rnd_mono _ _ _ _ Rm (Fmt_dyadic G (b + 1) ltac:(lia) ltac:(lia)) S1) as M1.
  pose proof (Rnd_mono _ _ _ _ (Fmt_dyadic (G + 1) (b + 1) ltac:(lia) ltac:(lia)) Rm' S2) as M2.
  (* separators between the two sums *)
  assert (F1 : Fmt (inject_Z (2 * G - P) * Binary64.pow2 b)) by (apply Fmt_signed; lia).
  assert (F2 : Fmt (inject_Z (2 * G + 2 - P) * Binary64.pow2 b)) by (apply Fmt_signed; lia).
  assert (E1 : (- F2Q base + inject_Z G * Binary64.pow2 (b + 1) == inject_Z (2 * G - P) * Binary64.pow2 b)%Q).
  { rewrite base_value, pow2_b1. unfold Z.sub.
    rewrite inject_Z_plus, inject_Z_opp, inject_Z_mult. change (inject_Z 2) with 2%Q. ring. }
  assert (E2 : (- F2Q base + inject_Z (G + 1) * Binary64.pow2 (b + 1)
                == inject_Z (2 * G + 2 - P) * Binary64.pow2 b)%Q).
  { rewrite base_value, pow2_b1. unfold Z.sub.
    rewrite !inject_Z_plus, inject_Z_opp, inject_Z_mult.
    change (inject_Z 2) with 2%Q. change (inject_Z 1) with 1%Q. ring. }
  pose proof (Rnd_mono _ _ _ _ Re F1 ltac:(lra)) as N1.
  pose proof (Rnd_mono _ _ _ _ F2 Re' ltac:(lra)) as N2.
  assert (Hlt : (inject_Z (2 * G - P) * Binary64.pow2 b < inject_Z (2 * G + 2 - P) * Binary64.pow2 b)%Q).
  { assert ((inject_Z (2 * G - P) < inject_Z (2 * G + 2 - P))%Q) by (rewrite <- Zlt_Qlt; lia).
    nra. }
  lra.
Qed.

Lemma base_positive : (0 < F2Q base)%Q.
Proof.
  rewrite base_value. pose proof (pow2_pos b).
  assert ((0 < inject_Z P)%Q) by (apply inject_Z_pos; lia). nra.
Qed.

Lemma delta_positive : (0 < F2Q delta)%Q.
Proof.
  rewrite delta_value. pose proof (pow2_pos (b + 1 - j)).
  assert ((0 < inject_Z P)%Q) by (apply inject_Z_pos; lia). nra.
Qed.

(** The first edge is [- base], exactly. *)
Lemma edge_first (kf : spec_float) : holds 0 kf -> edge base delta kf = SFopp base.
Proof.
  intros H. destruct (holds_zero kf H) as (s & ->).
  destruct (positive_finite base base_finz base_positive) as (mb & eb & ->).
  destruct (positive_finite delta delta_finz delta_positive) as (md & ed & ->).
  reflexivity.
Qed.

(** The last edge is [base], exactly. *)
Lemma edge_last (kf : spec_float) : holds (2 ^ j) kf -> edge base delta kf = base.
Proof.
  intros H. pose proof two_j_pos as Hjp.
  destruct (product_bounds (2 ^ j) kf H ltac:(lia)) as (_ & _ & Rm & _).
  destruct (edge_bounds (2 ^ j) kf H ltac:(lia)) as (Ze & Ve & Re & _).
  assert (Em : (F2Q (SFmul 53 1024 delta kf) == inject_Z P * Binary64.pow2 (b + 1))%Q).
  { apply Rnd_exact; [apply Fmt_dyadic; lia |].
    assert (Ev : (inject_Z P * Binary64.pow2 (b + 1 - j) * inject_Z (2 ^ j)
                  == inject_Z P * Binary64.pow2 (b + 1))%Q) by (rewrite pow2_bj; ring).
    exact (Rnd_compat _ _ _ _ Ev (Qeq_refl _) Rm). }
  assert (Ee : (F2Q (edge base delta kf) == F2Q base)%Q).
  { apply Rnd_exact; [apply valid_Fmt; assumption |].
    assert (Ev : (- F2Q base + F2Q (SFmul 53 1024 delta kf) == F2Q base)%Q)
      by (rewrite Em, base_value, pow2_b1; ring).
    exact (Rnd_compat _ _ _ _ Ev (Qeq_refl _) Re). }
  pose proof base_positive.
  apply valid_unique; try assumption. rewrite Ee. lra.
Qed.

(** The product [delta * k] is determined by its exact value. *)
Lemma product_unique (k : Z) (kf : spec_float) (mu : spec_float) :
  holds k kf -> 0 < k <= 2 ^ j ->
  finz mu = true -> valid64 mu ->
  Rnd (inject_Z P * Binary64.pow2 (b + 1 - j) * inject_Z k) (F2Q mu) ->
  SFmul 53 1024 delta kf = mu.
Proof.
  intros H Hk Zm Vm Rm'.
  destruct (product_bounds k kf H ltac:(lia)) as (Zm0 & Vm0 & Rm & _).
  assert (Hlow : (inject_Z P * Binary64.pow2 (b + 1 - j) <= F2Q (SFmul 53 1024 delta kf))%Q).
  { apply (Rnd_mono (inject_Z P * Binary64.pow2 (b + 1 - j)) (inject_Z P * Binary64.pow2 (b + 1 - j) * inject_Z k)).
    - apply Fmt_dyadic; lia.
    - exact Rm.
    - pose proof delta_positive as Hd. rewrite delta_value in Hd.
      assert ((inject_Z 1 <= inject_Z k)%Q) by (rewrite <- Zle_Qle; lia).
      change (inject_Z 1) with 1%Q in *. nra. }
  pose proof delta_positive as Hd. rewrite delta_value in Hd.
  apply valid_unique; try assumption; [| lra].
  pose proof (Rnd_mono _ _ _ _ Rm Rm' ltac:(lra)).
  pose proof (Rnd_mono _ _ _ _ Rm' Rm ltac:(lra)). lra.
Qed.

End Edges.

(** Halving the cells keeps the edges: edge [2 k] of the range cut in
    [2^(j+1)] cells is edge [k] of the range cut in [2^j] cells. *)
Lemma edge_refine (P b j : Z) (base delta delta' : spec_float) (k : Z)
  (kf kf' : spec_float) :
  2 ^ 52 <= P < 2 ^ 53 -> -1000 <= b <= 900 -> 0 <= j -> j + 1 <= 30 ->
  finz base = true -> valid64 base -> (F2Q base == inject_Z P * Binary64.pow2 b)%Q ->
  finz delta = true -> valid64 delta ->
  (F2Q delta == inject_Z P * Binary64.pow2 (b + 1 - j))%Q ->
  finz delta' = true -> valid64 delta' ->
  (F2Q delta' == inject_Z P * Binary64.pow2 (b + 1 - (j + 1)))%Q ->
  holds k kf -> holds (2 * k) kf' -> 0 <= k <= 2 ^ j ->
  edge base delta' kf' = edge base delta kf.
Proof.
  intros HP Hb Hj Hj1 Zb Vb Qb Zd Vd Qd Zd' Vd' Qd' Hk Hk' Hr.
  destruct (Z.eq_dec k 0) as [-> | Hk0].
  - change (2 * 0) with 0 in Hk'.
    assert (E1 : edge base delta kf = SFopp base)
      by (eapply (edge_first P b j); eassumption).
    assert (E2 : edge base delta' kf' = SFopp base)
      by (eapply (edge_first P b (j + 1)); eassumption).
    rewrite E1, E2. reflexivity.
  - assert (H2 : 2 ^ (j + 1) = 2 * 2 ^ j) by (rewrite Z.pow_add_r by lia; lia).
    assert (Hj' : 0 <= j + 1 <= 30) by lia.
    assert (Hj0 : 0 <= j <= 30) by lia.
    assert (Hr' : 0 <= 2 * k <= 2 ^ (j + 1)) by lia.
    assert (Hr0 : 0 < k <= 2 ^ j) by lia.
    destruct (product_bounds P b (j + 1) HP Hb Hj' delta' Zd' Vd' Qd' (2 * k) kf' Hk' Hr')
      as (Zm' & Vm' & Rm' & _).
    unfold edge. f_equal. symmetry.
    apply (product_unique P b j HP Hb Hj0 delta Zd Vd Qd k kf _ Hk Hr0 Zm' Vm').
    assert (Ev : (inject_Z P * Binary64.pow2 (b + 1 - (j + 1)) * inject_Z (2 * k)
                  == inject_Z P * Binary64.pow2 (b + 1 - j) * inject_Z k)%Q).
    { replace (b + 1 - j) with (b + 1 - (j + 1) + 1) by lia.
      rewrite (pow2_shift (b + 1 - (j + 1)) 1) by lia.
      rewrite inject_Z_mult. change (inject_Z (2 ^ 1)) with 2%Q. change (inject_Z 2) with 2%Q.
      ring. }
    exact (Rnd_compat _ _ _ _ Ev (Qeq_refl _) Rm').
Qed.

(** ** The extent of the request, in binary64 *)

(** The constants of the host are the doubles nearest to pi, 2 pi and
    pi / 2: one mantissa at three exponents. *)
Lemma host64_constants :
  Host.PI host64 = S754_finite false 7074237752028440 (-51)
  /\ Host.TWO_PI host64 = S754_finite false 7074237752028440 (-50)
  /\ Host.PI_OVER_TWO host64 = S754_finite false 7074237752028440 (-52).
Proof.
  vm_compute. repeat split.
Qed.

Lemma globe64_bounds :
  Extent.west globe64 = SFopp (Host.PI host64)
  /\ Extent.east globe64 = Host.PI host64
  /\ Extent.south globe64 = SFopp (Host.PI_OVER_TWO host64)
  /\ Extent.north globe64 = Host.PI_OVER_TWO host64.
Proof.
  repeat split.
Qed.

Lemma ofInt_holds' (z : Z) : Z.abs z <= 2 ^ 53 -> holds z (Binary64.ofInt z).
Proof. apply ofInt_holds. Qed.

(** The width of a cell: the length of the range divided by a power of two
    is exact. *)
Lemma cell_width (P b j : Z) (total : spec_float) :
  2 ^ 52 <= P < 2 ^ 53 -> -1000 <= b <= 900 -> 0 <= j <= 30 ->
  finz total = true -> valid64 total -> (F2Q total == inject_Z P * Binary64.pow2 (b + 1))%Q ->
  let delta := SFdiv 53 1024 total (Binary64.ofInt (2 ^ j)) in
  finz delta = true /\ valid64 delta
  /\ (F2Q delta == inject_Z P * Binary64.pow2 (b + 1 - j))%Q.
Proof.
  intros HP Hb Hj Zt Vt Qt delta.
  assert (Hjp : 0 < 2 ^ j) by (apply Z.pow_pos_nonneg; lia).
  assert (Hjs : 2 ^ j <= 2 ^ 53) by (apply Z.pow_le_mono_r; lia).
  pose proof (ofInt_holds' (2 ^ j) ltac:(lia)) as Hn.
  destruct (holds_finite _ _ Hn Hjp) as (m & e & Ef).
  destruct Hn as (Zn & Vn & Qn).
  unfold delta. rewrite Ef in *.
  pose proof (SFdiv_Res total false m e Zt Vt Vn) as R.
  apply (Res_dyadic P (b + 1 - j) _ _ R); try lia.
  rewrite Qt, Qn.
  replace (b + 1) with (b + 1 - j + j) at 1 by lia. rewrite pow2_shift by lia.
  pose proof (inject_Z_pos _ Hjp). field. lra.
Qed.

(** One axis of the grid.  The range from [- base] to [base] is cut in
    [2^j] cells of width [total / 2^j] with [total = 2 * base]; cell [k]
    lies within the range and is not empty. *)
Lemma axis_cell (P b j k : Z) (base total kf kf' : spec_float) :
  2 ^ 52 <= P < 2 ^ 53 -> -1000 <= b <= 900 -> 0 <= j <= 30 ->
  finz base = true -> valid64 base -> (F2Q base == inject_Z P * Binary64.pow2 b)%Q ->
  finz total = true -> valid64 total -> (F2Q total == inject_Z P * Binary64.pow2 (b + 1))%Q ->
  holds k kf -> holds (k + 1) kf' -> 0 <= k < 2 ^ j ->
  let delta := SFdiv 53 1024 total (Binary64.ofInt (2 ^ j)) in
  SFleb (SFopp base) (edge base delta kf) = true
  /\ SFltb (edge base delta kf) (edge base delta kf') = true
  /\ SFleb (edge base delta kf') base = true.
Proof.
  intros HP Hb Hj Zb Vb Qb Zt Vt Qt Hk Hk' Hr delta.
  destruct (cell_width P b j total HP Hb Hj Zt Vt Qt) as (Zd & Vd & Qd). fold delta in Zd, Vd, Qd.
  destruct (edge_bounds P b j HP Hb Hj base delta Zb Vb Qb Zd Vd Qd k kf Hk ltac:(lia))
    as (Z1 & V1 & _ & B1).
  destruct (edge_bounds P b j HP Hb Hj base delta Zb Vb Qb Zd Vd Qd (k + 1) kf' Hk' ltac:(lia))
    as (Z2 & V2 & _ & B2).
  pose proof (edge_increasing P b j HP Hb Hj base delta Zb Vb Qb Zd Vd Qd k kf kf' Hk Hk' Hr)
    as Hlt.
  split; [| split].
  - apply SFleb_Q; try assumption.
    + rewrite finz_opp. exact Zb.
    + apply valid_opp. exact Vb.
    + rewrite F2Q_opp. lra.
  - apply SFltb_Q; assumption.
  - apply SFleb_Q; try assumption. lra.
Qed.

(** The level-zero numbers of tiles are powers of two and their products
    with [2^level] fit 31 bits: the shifts are exact. *)
Lemma tile_count_exact (c level : Z) :
  0 <= c -> 0 <= level -> 2 ^ c * 2 ^ level < 2 ^ 31 ->
  shiftLeft (2 ^ c) level = 2 ^ (c + level) /\ 0 <= c + level <= 30.
Proof.
  intros Hc Hl Hfit.
  assert (Hpc : 0 < 2 ^ c) by (apply Z.pow_pos_nonneg; lia).
  assert (Hpl : 0 < 2 ^ level) by (apply Z.pow_pos_nonneg; lia).
  rewrite <- Z.pow_add_r in Hfit by lia.
  assert (Hj : c + level < 31) by (apply (Z.pow_lt_mono_r_iff 2); lia).
  split; [| lia].
  rewrite shiftLeft_exact.
  - rewrite Z.pow_add_r by lia. reflexivity.
  - lia.
  - destruct (Z_lt_le_dec level 32); [lia | exfalso].
    assert (2 ^ 32 <= 2 ^ level) by (apply Z.pow_le_mono_r; lia). nia.
  - rewrite <- Z.pow_add_r by lia. apply Z.pow_lt_mono_r; lia.
Qed.

(** The row index and its successor are integers, computed exactly. *)
Lemma row_index_holds (ny y : Z) :
  0 <= y < ny -> ny < 2 ^ 31 ->
  let tileY :=
    SFsub 53 1024 (SFsub 53 1024 (Binary64.ofInt ny) (Binary64.ofInt y)) (Binary64.ofInt 1) in
  holds (ny - y - 1) tileY
  /\ holds (ny - y - 1 + 1) (SFadd 53 1024 tileY (Binary64.ofInt 1)).
Proof.
  intros Hy Hny tileY.
  assert (H31 : 2 ^ 31 < 2 ^ 53) by (apply Z.pow_lt_mono_r; lia).
  assert (H1 : holds (ny - y - 1) tileY).
  { unfold tileY. apply SFsub_holds; [apply SFsub_holds | | lia];
      try (apply ofInt_holds'; lia). lia. }
  split; [exact H1 |].
  apply SFadd_holds; [exact H1 | apply ofInt_holds'; lia | lia].
Qed.

Lemma column_index_holds (x : Z) :
  0 <= x < 2 ^ 31 ->
  holds x (Binary64.ofInt x)
  /\ holds (x + 1) (SFadd 53 1024 (Binary64.ofInt x) (Binary64.ofInt 1)).
Proof.
  intros Hx.
  assert (H31 : 2 ^ 31 < 2 ^ 53) by (apply Z.pow_lt_mono_r; lia).
  assert (H1 : holds x (Binary64.ofInt x)) by (apply ofInt_holds'; lia).
  split; [exact H1 |].
  apply SFadd_holds; [exact H1 | apply ofInt_holds'; lia | lia].
Qed.

(** The four edges of the request, as edges of the two axes. *)
Lemma request_edges (this : Provider.t spec_float) (tile : Tile.t spec_float) :
  let scheme := Provider.tilingScheme this in
  let nx := shiftLeft (TilingScheme.numberOfLevelZeroTilesX scheme) (Tile.level tile) in
  let ny := shiftLeft (TilingScheme.numberOfLevelZeroTilesY scheme) (Tile.level tile) in
  let xDelta := SFdiv 53 1024 (Host.TWO_PI host64) (Binary64.ofInt nx) in
  let yDelta := SFdiv 53 1024 (Host.PI host64) (Binary64.ofInt ny) in
  let tileY :=
    SFsub 53 1024 (SFsub 53 1024 (Binary64.ofInt ny) (Binary64.ofInt (Tile.y tile)))
      (Binary64.ofInt 1) in
  let l := locals host64 this tile in
  Locals.xStart l = edge (Host.PI host64) xDelta (Binary64.ofInt (Tile.x tile))
  /\ Locals.xStop l
     = edge (Host.PI host64) xDelta
         (SFadd 53 1024 (Binary64.ofInt (Tile.x tile)) (Binary64.ofInt 1))
  /\ Locals.yStart l = edge (Host.PI_OVER_TWO host64) yDelta tileY
  /\ Locals.yStop l
     = edge (Host.PI_OVER_TWO host64) yDelta (SFadd 53 1024 tileY (Binary64.ofInt 1)).
Proof.
  repeat split.
Qed.

(** C3, amended.  In binary64, on a scheme whose bounds are the whole globe
    and whose numbers of level-zero tiles are powers of two (as the
    provider's default scheme of two tiles by one), and for a level at which
    the numbers of tiles fit a signed 32-bit integer (as they do up to
    [maxLevel]): for every tile address within the scheme the requested box
    has west < east and south < north and lies within the scheme's bounds.
    The comparisons are those of JavaScript on doubles. *)
Theorem C3_request_extent_within_bounds :
  forall (this : Provider.t spec_float) (tile : Tile.t spec_float) (a b : Z),
    let scheme := Provider.tilingScheme this in
    let X0 := TilingScheme.numberOfLevelZeroTilesX scheme in
    let Y0 := TilingScheme.numberOfLevelZeroTilesY scheme in
    let level := Tile.level tile in
    let l := locals host64 this tile in
    TilingScheme.extent scheme = globe64 ->
    0 <= a -> X0 = 2 ^ a ->
    0 <= b -> Y0 = 2 ^ b ->
    0 <= level ->
    X0 * 2 ^ level < 2 ^ 31 ->
    Y0 * 2 ^ level < 2 ^ 31 ->
    0 <= Tile.x tile < X0 * 2 ^ level ->
    0 <= Tile.y tile < Y0 * 2 ^ level ->
    SFltb (Locals.xStart l) (Locals.xStop l) = true
    /\ SFltb (Locals.yStart l) (Locals.yStop l) = true
    /\ SFleb (Extent.west (TilingScheme.extent scheme)) (Locals.xStart l) = true
    /\ SFleb (Locals.xStop l) (Extent.east (TilingScheme.extent scheme)) = true
    /\ SFleb (Extent.south (TilingScheme.extent scheme)) (Locals.yStart l) = true
    /\ SFleb (Locals.yStop l) (Extent.north (TilingScheme.extent scheme)) = true.
Proof.
  intros this tile a b scheme X0 Y0 level l Hglobe Ha HX0 Hb HY0 Hlevel HfitX HfitY Hx Hy.
  destruct (request_edges this tile) as (Exs & Exe & Eys & Eye).
  fold scheme X0 Y0 level l in Exs, Exe, Eys, Eye.
  rewrite Exs, Exe, Eys, Eye, Hglobe. clear Exs Exe Eys Eye.
  destruct globe64_bounds as (-> & -> & -> & ->).
  rewrite HX0, HY0 in *.
  destruct (tile_count_exact a level Ha Hlevel HfitX) as (-> & Hjx).
  destruct (tile_count_exact b level Hb Hlevel HfitY) as (-> & Hjy).
  rewrite <- Z.pow_add_r in Hx, Hy, HfitX, HfitY by lia.
  destruct (column_index_holds (Tile.x tile) ltac:(lia)) as (Kx & Kx').
  destruct (row_index_holds (2 ^ (b + level)) (Tile.y tile) Hy HfitY) as (Ky & Ky').
  destruct host64_constants as (Epi & Etwo & Ehalf).
  destruct (axis_cell 7074237752028440 (-51) (a + level) (Tile.x tile)
              (Host.PI host64) (Host.TWO_PI host64) _ _
              ltac:(lia) ltac:(lia) Hjx
              ltac:(rewrite Epi; reflexivity) ltac:(rewrite Epi; reflexivity)
              ltac:(rewrite Epi; reflexivity)
              ltac:(rewrite Etwo; reflexivity) ltac:(rewrite Etwo; reflexivity)
              ltac:(rewrite Etwo; reflexivity)
              Kx Kx' Hx) as (Hw & Hwe & He).
  destruct (axis_cell 7074237752028440 (-52) (b + level) (2 ^ (b + level) - Tile.y tile - 1)
              (Host.PI_OVER_TWO host64) (Host.PI host64) _ _
              ltac:(lia) ltac:(lia) Hjy
              ltac:(rewrite Ehalf; reflexivity) ltac:(rewrite Ehalf; reflexivity)
              ltac:(rewrite Ehalf; reflexivity)
              ltac:(rewrite Epi; reflexivity) ltac:(rewrite Epi; reflexivity)
              ltac:(rewrite Epi; reflexivity)
              Ky Ky' ltac:(lia)) as (Hs & Hsn & Hn).
  repeat split; assumption.
Qed.

Lemma C3_request_extent_within_bounds_witness :
  let l := locals host64 scenarioProvider (tileAt 3 5 2 globe64) in
  SFltb (Locals.xStart l) (Locals.xStop l) = true
  /\ SFltb (Locals.yStart l) (Locals.yStop l) = true
  /\ SFleb (Extent.west globe64) (Locals.xStart l) = true
  /\ SFleb (Locals.xStop l) (Extent.east globe64) = true
  /\ SFleb (Extent.south globe64) (Locals.yStart l) = true
  /\ SFleb (Locals.yStop l) (Extent.north globe64) = true.
Proof.
  apply (C3_request_extent_within_bounds scenarioProvider (tileAt 3 5 2 globe64) 1 0);
    first [ reflexivity | simpl; lia ].
Defined.

(** C3, as stated, fails, in two ways.  Tile (level 30, x 0, y 0) is an
    address of the two by one scheme, but [2 << 30] is negative, and the
    requested box has its east edge west of its west edge.  And on a scheme
    of 25 by 25 tiles, whose numbers of tiles are not powers of two, rounding
    puts the east edge of the last column of level 0 above the bound. *)
Lemma C3_request_extent_counterexample :
  let X0 := TilingScheme.numberOfLevelZeroTilesX (Host.GeographicTilingScheme host64) in
  let Y0 := TilingScheme.numberOfLevelZeroTilesY (Host.GeographicTilingScheme host64) in
  let l := locals host64 scenarioProvider (tileAt 30 0 0 globe64) in
  let l' := locals host64 (squareProvider 25) (tileAt 0 24 0 globe64) in
  ((0 <= 0 < X0 * 2 ^ 30 /\ 0 <= 0 < Y0 * 2 ^ 30)
   /\ Locals.tilesInXDirection l = - 2 ^ 31
   /\ SFltb (Locals.xStart l) (Locals.xStop l) = false
   /\ SFltb (Locals.xStop l) (Locals.xStart l) = true)
  /\ ((0 <= 24 < 25 * 2 ^ 0 /\ 0 <= 0 < 25 * 2 ^ 0)
      /\ TilingScheme.extent (Provider.tilingScheme (squareProvider 25)) = globe64
      /\ SFleb (Locals.xStop l') (Extent.east globe64) = false).
Proof.
  split.
  - split; [simpl; lia |].
    split; [reflexivity |].
    split; vm_compute; reflexivity.
  - split; [simpl; lia |].
    split; [reflexivity |].
    vm_compute; reflexivity.
Qed.

(** The same edge as JavaScript prints it. *)
Example rounding_crosses_the_bound :
  let l := locals host64 (squareProvider 25) (tileAt 0 24 0 globe64) in
  numberToString (Locals.xStop l) = "3.141592653589794"
  /\ numberToString (Extent.east globe64) = "3.141592653589793".
Proof.
  vm_compute. split; reflexivity.
Qed.

(** ** The inverted row index *)

(** C4, as stated, fails: at level 31 the number of rows of the two by one
    scheme is [1 << 31], which is -2^31 and not 2^31, and the row index
    derived from it is negative. *)
Lemma C4_level_31_counterexample :
  let Y0 := TilingScheme.numberOfLevelZeroTilesY (Host.GeographicTilingScheme host64) in
  let l := locals host64 scenarioProvider (tileAt 31 0 0 globe64) in
  Y0 * 2 ^ 31 = 2147483648
  /\ Locals.tilesInYDirection l = -2147483648
  /\ Locals.tilesInYDirection l <> Y0 * 2 ^ 31
  /\ Locals.tileY l = ofInt (-2147483649)
  /\ Locals.tileY l <> ofInt (Y0 * 2 ^ 31 - 0 - 1).
Proof.
  repeat split; try reflexivity; vm_compute; intros H; discriminate H.
Qed.

(** C4, amended.  For a level between 0 and 31 at which the number of rows
    [numberOfLevelZeroTilesY * 2^level] fits a signed 32-bit integer,
    [tilesInYDirection] is that number, the row index of the request is
    [tilesInYDirection - tile.y - 1], and south and north are computed from
    this index and the next. *)
Theorem C4_row_index_inverted :
  forall (N : Type) (num : JSNumber N) (str : JSToString N) (host : Host.t N)
         (this : Provider.t N) (tile : Tile.t N),
    let Y0 := TilingScheme.numberOfLevelZeroTilesY (Provider.tilingScheme this) in
    let level := Tile.level tile in
    let l := locals host this tile in
    0 <= level < 32 ->
    0 <= Y0 ->
    Y0 * 2 ^ level < 2 ^ 31 ->
    Locals.tilesInYDirection l = Y0 * 2 ^ level
    /\ Locals.tileY l
       = nsub (nsub (ofInt (Y0 * 2 ^ level)) (ofInt (Tile.y tile))) (ofInt 1)
    /\ Locals.yStart l
       = nadd (nneg (Host.PI_OVER_TWO host))
              (nmul (ndiv (Host.PI host) (ofInt (Y0 * 2 ^ level))) (Locals.tileY l))
    /\ Locals.yStop l
       = nadd (nneg (Host.PI_OVER_TWO host))
              (nmul (ndiv (Host.PI host) (ofInt (Y0 * 2 ^ level)))
                    (nadd (Locals.tileY l) (ofInt 1))).
Proof.
  intros N num str host this tile Y0 level l Hlevel HY0 Hfit.
  assert (HtY : shiftLeft Y0 level = Y0 * 2 ^ level)
    by (apply shiftLeft_exact; assumption).
  subst l. unfold locals. simpl.
  fold Y0. fold level. rewrite HtY.
  repeat split; reflexivity.
Qed.

Lemma C4_row_index_inverted_witness :
  let l := locals host64 scenarioProvider (tileAt 3 5 2 globe64) in
  Locals.tilesInYDirection l = 1 * 2 ^ 3
  /\ Locals.tileY l = nsub (nsub (ofInt (1 * 2 ^ 3)) (ofInt 2)) (ofInt 1)
  /\ Locals.yStart l
     = nadd (nneg (Host.PI_OVER_TWO host64))
            (nmul (ndiv (Host.PI host64) (ofInt (1 * 2 ^ 3))) (Locals.tileY l))
  /\ Locals.yStop l
     = nadd (nneg (Host.PI_OVER_TWO host64))
            (nmul (ndiv (Host.PI host64) (ofInt (1 * 2 ^ 3)))
                  (nadd (Locals.tileY l) (ofInt 1))).
Proof.
  apply (C4_row_index_inverted spec_float _ _ host64 scenarioProvider
           (tileAt 3 5 2 globe64)); simpl; lia.
Defined.

(** ** Monotonicity of the estimate, in binary64 *)

(** The error budget of the sample schemes, [40075 / 2^level]: infinite
    below level 0, where [2^level] is 0; the rounded quotient up to level
    1023; zero from level 1024 on, where [2^level] is infinite as a
    double. *)
Lemma halving_cases (l : Z) :
  let E := SFdiv 53 1024 (Binary64.ofInt 40075) (Binary64.ofInt (2 ^ l)) in
  (l < 0 /\ E = S754_infinity false)
  \/ (0 <= l <= 1023 /\ Res (inject_Z 40075 / inject_Z (2 ^ l)) E)
  \/ (1024 <= l /\ E = S754_zero false).
Proof.
  intros E.
  destruct (Z_lt_le_dec l 0) as [Hneg | Hnn].
  { left. split; [exact Hneg |]. unfold E. rewrite Z.pow_neg_r by lia. reflexivity. }
  right.
  assert (Hp : 0 < 2 ^ l) by (apply Z.pow_pos_nonneg; lia).
  assert (Hv : (inject_Z (2 ^ l) == inject_Z 1 * Binary64.pow2 l)%Q).
  { rewrite pow2_nonneg_exp by lia. change (inject_Z 1) with 1%Q. ring. }
  pose proof (ofInt_Res (2 ^ l)) as R.
  destruct (Z_le_gt_dec l 1023) as [Hsmall | Hbig].
  - left. split; [lia |].
    destruct (Res_exact _ _ R) as (Zf & Vf & Qf).
    + apply (Rnd_compat (inject_Z 1 * Binary64.pow2 l) _ (inject_Z 1 * Binary64.pow2 l));
        [symmetry; exact Hv | symmetry; exact Hv | apply Fmt_dyadic; lia].
    + rewrite Hv. pose proof (pow2_pos l). pose proof (pow2_lt l 1024 ltac:(lia)).
      change (inject_Z 1) with 1%Q. rewrite Qabs_pos; lra.
    + destruct (positive_finite _ Zf) as (m & e & Ef).
      { rewrite Qf. apply inject_Z_pos. exact Hp. }
      unfold E. change (Binary64.ofInt (2 ^ l)) with (binary_normalize 53 1024 (2 ^ l) 0 false).
      rewrite Ef in *.
      pose proof (ofInt_holds' 40075 ltac:(vm_compute; discriminate)) as (Zn & Vn & Qn).
      apply (Res_compat (F2Q (Binary64.ofInt 40075) / F2Q (S754_finite false m e))).
      * rewrite Qn, Qf. reflexivity.
      * apply SFdiv_Res; assumption.
  - right. split; [lia |].
    destruct R as (Vf & r & Rn & Hr).
    assert (Hge : (Binary64.pow2 1024 <= r)%Q).
    { apply (Rnd_mono (inject_Z 1 * Binary64.pow2 1024) (inject_Z (2 ^ l)) (inject_Z 1 * Binary64.pow2 1024) r).
      - apply Fmt_dyadic; lia.
      - exact Rn.
      - rewrite Hv. pose proof (pow2_le 1024 l ltac:(lia)).
        change (inject_Z 1) with 1%Q. lra. }
    unfold E. change (Binary64.ofInt (2 ^ l)) with (binary_normalize 53 1024 (2 ^ l) 0 false).
    destruct Hr as [(Habs & _) | [[_ ->] | [Hle _]]].
    + apply Qabs_Qlt_condition in Habs. lra.
    + reflexivity.
    + pose proof (pow2_pos 1024). lra.
Qed.

Lemma halving_valid (l : Z) :
  valid64 (SFdiv 53 1024 (Binary64.ofInt 40075) (Binary64.ofInt (2 ^ l))).
Proof.
  destruct (halving_cases l) as [[_ ->] | [[_ (V & _)] | [_ ->]]];
    [reflexivity | exact V | reflexivity].
Qed.

(** The error budget of the sample schemes does not increase with the
    level, at any level. *)
Lemma halving_nonincreasing (l1 l2 : Z) :
  l1 <= l2 ->
  SFleb (SFdiv 53 1024 (Binary64.ofInt 40075) (Binary64.ofInt (2 ^ l2)))
        (SFdiv 53 1024 (Binary64.ofInt 40075) (Binary64.ofInt (2 ^ l1))) = true.
Proof.
  intros Hl.
  assert (Hnn : forall l, SFdiv 53 1024 (Binary64.ofInt 40075) (Binary64.ofInt (2 ^ l))
                          <> S754_nan).
  { intros l. destruct (halving_cases l) as [[_ ->] | [[_ R] | [_ ->]]];
      [discriminate | exact (Res_not_nan _ _ R) | discriminate]. }
  destruct (halving_cases l1) as [[H1 E1] | [[H1 R1] | [H1 E1]]].
  - rewrite E1. apply SFleb_pinf. apply Hnn.
  - destruct (halving_cases l2) as [[H2 E2] | [[H2 R2] | [H2 E2]]]; [lia | |].
    + apply (Res_leb _ _ _ _ R2 R1).
      assert (Hp1 : 0 < 2 ^ l1) by (apply Z.pow_pos_nonneg; lia).
      assert (Hp12 : 2 ^ l1 <= 2 ^ l2) by (apply Z.pow_le_mono_r; lia).
      pose proof (inject_Z_pos _ Hp1) as Q1.
      assert (Q12 : (inject_Z (2 ^ l1) <= inject_Z (2 ^ l2))%Q) by (rewrite <- Zle_Qle; exact Hp12).
      assert (Q2 : (0 < inject_Z (2 ^ l2))%Q) by lra.
      apply Qle_shift_div_l; [lra |].
      assert (E : (inject_Z 40075 / inject_Z (2 ^ l2) * inject_Z (2 ^ l1)
                   == inject_Z 40075 * (inject_Z (2 ^ l1) / inject_Z (2 ^ l2)))%Q)
        by (field; lra).
      rewrite E.
      assert ((inject_Z (2 ^ l1) / inject_Z (2 ^ l2) <= 1)%Q)
        by (apply Qle_shift_div_r; lra).
      assert ((0 < inject_Z 40075)%Q) by reflexivity.
      nra.
    + rewrite E2. apply (Res_leb 0 _ _ _ (Res_zero false) R1).
      apply Qle_shift_div_l.
      * apply inject_Z_pos. apply Z.pow_pos_nonneg; lia.
      * rewrite Qmult_0_l. discriminate.
  - destruct (halving_cases l2) as [[H2 E2] | [[H2 R2] | [H2 E2]]]; [lia | lia |].
    rewrite E1, E2. reflexivity.
Qed.

(** C9, as stated, fails: the scheme has to sit on an ellipsoid of positive
    finite radius.  On the sample scheme, whose error budget does not
    increase with the level, a radius of -1 turns the order around (the
    estimate is -40075 at level 0 and -20037.5 at level 1), and a radius of 0
    gives [Infinity] at level 0 and [NaN] at level 2000, where the budget has
    reached 0. *)
Lemma C9_granularity_counterexample :
  let E := fun level : Z => SFdiv 53 1024 (Binary64.ofInt 40075) (Binary64.ofInt (2 ^ level)) in
  (forall r, TilingScheme.getLevelMaximumGeometricError (schemeOfRadius r) = E)
  /\ (forall l1 l2 : Z, l1 <= l2 -> SFleb (E l2) (E l1) = true)
  /\ SFleb (computeDesiredGranularity (schemeOfRadius (ofInt (-1))) (tileAt 1 0 0 globe64))
           (computeDesiredGranularity (schemeOfRadius (ofInt (-1))) (tileAt 0 0 0 globe64))
     = false
  /\ SFleb (computeDesiredGranularity (schemeOfRadius (ofInt 0)) (tileAt 2000 0 0 globe64))
           (computeDesiredGranularity (schemeOfRadius (ofInt 0)) (tileAt 0 0 0 globe64))
     = false
  /\ numberToString
       (computeDesiredGranularity (schemeOfRadius (ofInt 0)) (tileAt 2000 0 0 globe64))
     = "NaN".
Proof.
  split; [reflexivity |].
  split; [intros l1 l2 H; apply halving_nonincreasing; exact H |].
  split; [vm_compute; reflexivity |].
  split; vm_compute; reflexivity.
Qed.

(** C9, amended.  In binary64, on a scheme whose maximum geometric error
    does not increase with the level and whose ellipsoid has a positive
    finite equatorial radius, the estimate for a tile of a deeper level is at
    most the estimate for a tile of a shallower one.  The error may be any
    double that the comparison accepts, the infinities included, and the
    quotient may overflow or underflow. *)
Theorem C9_granularity_nonincreasing :
  forall (tilingScheme : TilingScheme.t spec_float) (tile1 tile2 : Tile.t spec_float),
    let radius := Cartesian3.x (Ellipsoid.getRadii (TilingScheme.ellipsoid tilingScheme)) in
    let E := TilingScheme.getLevelMaximumGeometricError tilingScheme in
    positiveFinite radius = true ->
    valid64 radius ->
    (forall l : Z, valid64 (E l)) ->
    (forall l1 l2 : Z, l1 <= l2 -> SFleb (E l2) (E l1) = true) ->
    Tile.level tile1 <= Tile.level tile2 ->
    SFleb (computeDesiredGranularity tilingScheme tile2)
          (computeDesiredGranularity tilingScheme tile1) = true.
Proof.
  intros tilingScheme tile1 tile2 radius E Hpos Vr VE Hmono Hlevels.
  unfold computeDesiredGranularity. cbn [ndiv Binary64_JSNumber]. fold radius E.
  destruct radius as [s | s | | s m e]; try discriminate Hpos.
  destruct s; [discriminate Hpos |].
  apply SFdiv_monotone; try apply VE; try exact Vr.
  apply Hmono. exact Hlevels.
Qed.

Lemma C9_granularity_nonincreasing_witness :
  SFleb (computeDesiredGranularity (Host.GeographicTilingScheme host64) (tileAt 7 0 0 globe64))
        (computeDesiredGranularity (Host.GeographicTilingScheme host64) (tileAt 3 5 2 globe64))
  = true.
Proof.
  apply C9_granularity_nonincreasing.
  - reflexivity.
  - reflexivity.
  - intros l. apply halving_valid.
  - intros l1 l2 H. apply halving_nonincreasing. exact H.
  - simpl. lia.
Defined.

(** ** What the request depends on *)

(** C10.  The request is computed from the tile's address and the scheme's
    numbers of level-zero tiles (and the constants of the host): two tiles
    with the same address get the same local variables and the same request
    url whatever their stored extents, and providers whose schemes agree on
    the two numbers ask for the same box; the tessellator, in contrast, is
    handed the extent stored in the tile. *)
Theorem C10_request_ignores_stored_extent :
  forall (N : Type) (num : JSNumber N) (str : JSToString N) (host : Host.t N)
         (this this' : Provider.t N) (context : Context)
         (tile1 tile2 : Tile.t N) (pixels : list Z),
    Tile.level tile1 = Tile.level tile2 ->
    Tile.x tile1 = Tile.x tile2 ->
    Tile.y tile1 = Tile.y tile2 ->
    TilingScheme.numberOfLevelZeroTilesX (Provider.tilingScheme this')
      = TilingScheme.numberOfLevelZeroTilesX (Provider.tilingScheme this) ->
    TilingScheme.numberOfLevelZeroTilesY (Provider.tilingScheme this')
      = TilingScheme.numberOfLevelZeroTilesY (Provider.tilingScheme this) ->
    locals host this tile1 = locals host this tile2
    /\ Pipeline.requestUrl (createTileEllipsoidGeometry host this context tile1)
       = Pipeline.requestUrl (createTileEllipsoidGeometry host this context tile2)
    /\ Locals.bbox (locals host this' tile1) = Locals.bbox (locals host this tile2)
    /\ HeightmapDescription.extent
         (heightmapDescription (Provider.tilingScheme this) tile1 pixels)
       = Tile.extent tile1
    /\ HeightmapDescription.extent
         (heightmapDescription (Provider.tilingScheme this) tile2 pixels)
       = Tile.extent tile2.
Proof.
  intros N num str host this this' context tile1 tile2 pixels
         Hlevel Hx Hy HX HY.
  assert (Hlocals : locals host this tile1 = locals host this tile2).
  { unfold locals. rewrite Hlevel, Hx, Hy. reflexivity. }
  split; [exact Hlocals |].
  split.
  { change (Locals.url (locals host this tile1)
            = Locals.url (locals host this tile2)).
    now rewrite Hlocals. }
  split; [| split; reflexivity].
  unfold locals. simpl. rewrite Hlevel, Hx, Hy, HX, HY. reflexivity.
Qed.

Lemma C10_request_ignores_stored_extent_witness :
  Tile.extent (tileAt 3 5 2 globe64) <> Tile.extent (tileAt 3 5 2 nowhere64)
  /\ Pipeline.requestUrl
       (createTileEllipsoidGeometry host64 scenarioProvider RenderContext
          (tileAt 3 5 2 globe64))
     = Pipeline.requestUrl
         (createTileEllipsoidGeometry host64 scenarioProvider RenderContext
            (tileAt 3 5 2 nowhere64)).
Proof.
  split.
  - intros H. discriminate H.
  - exact (proj1 (proj2 (C10_request_ignores_stored_extent spec_float _ _ host64
                           scenarioProvider scenarioProvider RenderContext
                           (tileAt 3 5 2 globe64) (tileAt 3 5 2 nowhere64) []
                           eq_refl eq_refl eq_refl eq_refl eq_refl))).
Defined.

(** ** The asynchronous part *)

Section Pipeline.

Context {N : Type} {num : JSNumber N}.
Variable host : Host.t N.
Variable this : Provider.t N.

(** The continuation, phase by phase. *)
Lemma imageLoaded_cases (image : Image.t) (tile : Tile.t N) :
  imageLoaded host (Provider.tilingScheme this) image tile
  = match Host.getImageData host image with
    | inl e => (inl e, tile)
    | inr pixels =>
        match Host.computeBuffers host
                (heightmapDescription (Provider.tilingScheme this) tile pixels) with
        | inl e => (inl e, tile)
        | inr buffers =>
            (inr true,
             createTileEllipsoidGeometryFromBuffers
               (Canvas2D (Image.width image) (Image.height image)) tile buffers)
        end
    end.
Proof.
  unfold imageLoaded, bind, get, call, modify, ret.
  destruct (Host.getImageData host image) as [e | pixels]; [reflexivity |].
  destruct (Host.computeBuffers host _) as [e | buffers]; reflexivity.
Qed.

Lemma settle_ok (tile0 : Tile.t N) (o : Outcome) (s : Pipeline.t N) :
  pipeline_ok tile0 s -> pipeline_ok tile0 (settle host this o s).
Proof.
  intros [[Hpending Htile] | [(e & Hrejected & Htile) | (Hresolved & Hrest)]].
  - unfold settle. rewrite Hpending.
    destruct o as [image | e].
    + rewrite imageLoaded_cases.
      destruct (Host.getImageData host image) as [e | pixels].
      * right; left. exists e. split; [reflexivity | exact Htile].
      * destruct (Host.computeBuffers host _) as [e | buffers].
        -- right; left. exists e. split; [reflexivity | exact Htile].
        -- right; right. simpl. repeat split. exists buffers. reflexivity.
    + right; left. exists e. split; [reflexivity | exact Htile].
  - unfold settle. rewrite Hrejected.
    right; left. exists e. split; assumption.
  - unfold settle. rewrite Hresolved.
    right; right. split; assumption.
Qed.

Lemma reaches_ok (tile0 : Tile.t N) (s0 s : Pipeline.t N) :
  pipeline_ok tile0 s0 -> reaches host this s0 s -> pipeline_ok tile0 s.
Proof.
  intros Hok Hreach.
  induction Hreach as [s | s1 s2 s3 _ IH Hstep].
  - exact Hok.
  - destruct Hstep as [o s2 _]. apply settle_ok. apply IH. exact Hok.
Qed.

(** A settled promise stays as it is. *)
Lemma settled_is_final (s s' : Pipeline.t N) :
  Pipeline.handle s <> Pending -> reaches host this s s' -> s' = s.
Proof.
  intros Hsettled Hreach.
  induction Hreach as [s | s1 s2 s3 _ IH Hstep].
  - reflexivity.
  - specialize (IH Hsettled). subst s2.
    destruct Hstep as [o s1 Hpending]. contradiction.
Qed.

End Pipeline.

(** C5.  An invocation of [createTileEllipsoidGeometry] on a tile without
    geometry: as long as the returned promise is pending the tile is
    untouched; the readiness flag is set exactly when the promise is resolved,
    and then it is resolved with [true] and the buffers are attached; when
    the image request, the read-back of the pixels or the tessellation fails,
    the promise is rejected with that error and the tile is left as it was
    (flag unset, no buffers); a settled invocation never changes again; and
    when all three succeed the promise is resolved with [true]. *)
Theorem C5_tile_ready_only_on_success :
  forall (N : Type) (num : JSNumber N) (str : JSToString N) (host : Host.t N)
         (this : Provider.t N) (context : Context) (tile : Tile.t N)
         (s : Pipeline.t N),
    Tile.geometryReady tile = false ->
    Tile.mesh tile = None ->
    let s0 := createTileEllipsoidGeometry host this context tile in
    reaches host this s0 s ->
    (Pipeline.handle s0 = Pending /\ Pipeline.tile s0 = tile)
    /\ (Pipeline.handle s = Pending -> Pipeline.tile s = tile)
    /\ (forall e, Pipeline.handle s = Rejected e ->
                  Pipeline.tile s = tile
                  /\ Tile.geometryReady (Pipeline.tile s) = false
                  /\ Tile.mesh (Pipeline.tile s) = None)
    /\ (forall v, Pipeline.handle s = Resolved v ->
                  v = true
                  /\ Tile.geometryReady (Pipeline.tile s) = true
                  /\ exists buffers, Tile.mesh (Pipeline.tile s) = Some buffers)
    /\ (Tile.geometryReady (Pipeline.tile s) = true
        <-> Pipeline.handle s = Resolved true)
    /\ (Pipeline.handle s <> Pending ->
        forall s', reaches host this s s' -> s' = s)
    /\ (forall e,
          Pipeline.handle (settle host this (ImageFailed e) s0) = Rejected e)
    /\ (forall image e,
          Host.getImageData host image = inl e ->
          Pipeline.handle (settle host this (ImageLoaded image) s0) = Rejected e)
    /\ (forall image pixels e,
          Host.getImageData host image = inr pixels ->
          Host.computeBuffers host
            (heightmapDescription (Provider.tilingScheme this) tile pixels) = inl e ->
          Pipeline.handle (settle host this (ImageLoaded image) s0) = Rejected e)
    /\ (forall image pixels buffers,
          Host.getImageData host image = inr pixels ->
          Host.computeBuffers host
            (heightmapDescription (Provider.tilingScheme this) tile pixels)
            = inr buffers ->
          Pipeline.handle (settle host this (ImageLoaded image) s0) = Resolved true
          /\ Tile.mesh (Pipeline.tile (settle host this (ImageLoaded image) s0))
             = Some buffers
          /\ Tile.geometryReady
               (Pipeline.tile (settle host this (ImageLoaded image) s0)) = true).
Proof.
  intros N num str host this context tile s Hready Hmesh s0 Hreach.
  assert (Hok0 : pipeline_ok tile s0) by (left; split; reflexivity).
  pose proof (reaches_ok host this tile s0 s Hok0 Hreach) as Hok.
  split; [split; reflexivity |].
  split.
  { intros Hpending.
    destruct Hok as [[_ Ht] | [(e & He & _) | (Hres & _)]];
      [exact Ht | congruence | congruence]. }
  split.
  { intros e He.
    destruct Hok as [[Hp _] | [(e' & _ & Ht) | (Hres & _)]];
      [congruence | | congruence].
    rewrite Ht. repeat split; assumption. }
  split.
  { intros v Hv.
    destruct Hok as [[Hp _] | [(e' & He & _) | (Hres & Hrdy & Hbuf)]];
      [congruence | congruence |].
    rewrite Hres in Hv. injection Hv as <-. repeat split; assumption. }
  split.
  { destruct Hok as [[Hp Ht] | [(e' & He & Ht) | (Hres & Hrdy & _)]].
    - rewrite Ht, Hready, Hp. split; intros H; discriminate H.
    - rewrite Ht, Hready, He. split; intros H; discriminate H.
    - rewrite Hrdy, Hres. split; reflexivity. }
  split; [intros Hsettled s' Hs'; exact (settled_is_final host this s s' Hsettled Hs') |].
  split; [intros e; reflexivity |].
  split.
  { intros image e Hpixels. unfold settle. simpl.
    rewrite imageLoaded_cases, Hpixels. reflexivity. }
  split.
  { intros image pixels e Hpixels Hbuffers. unfold settle. simpl.
    rewrite imageLoaded_cases, Hpixels, Hbuffers. reflexivity. }
  intros image pixels buffers Hpixels Hbuffers. unfold settle. simpl.
  rewrite imageLoaded_cases, Hpixels, Hbuffers. repeat split.
Qed.

Lemma C5_tile_ready_only_on_success_witness :
  let tile := tileAt 0 0 0 globe64 in
  let s0 := createTileEllipsoidGeometry host64 scenarioProvider RenderContext tile in
  let loaded := settle host64 scenarioProvider (ImageLoaded sampleImage) s0 in
  let failed := settle host64 scenarioProvider (ImageFailed (HostError "404")) s0 in
  (Tile.geometryReady (Pipeline.tile loaded) = true
   <-> Pipeline.handle loaded = Resolved true)
  /\ (Pipeline.handle failed = Rejected (HostError "404") ->
      Pipeline.tile failed = tile
      /\ Tile.geometryReady (Pipeline.tile failed) = false
      /\ Tile.mesh (Pipeline.tile failed) = None).
Proof.
  intros tile s0 loaded failed.
  split.
  - exact (proj1 (proj2 (proj2 (proj2 (proj2
             (C5_tile_ready_only_on_success spec_float _ _ host64 scenarioProvider
                RenderContext tile loaded eq_refl eq_refl
                (reaches_step host64 scenarioProvider s0 s0 loaded
                   (reaches_refl host64 scenarioProvider s0)
                   (step_settle host64 scenarioProvider (ImageLoaded sampleImage)
                      s0 eq_refl)))))))).
  - exact (proj1 (proj2 (proj2
             (C5_tile_ready_only_on_success spec_float _ _ host64 scenarioProvider
                RenderContext tile failed eq_refl eq_refl
                (reaches_step host64 scenarioProvider s0 s0 failed
                   (reaches_refl host64 scenarioProvider s0)
                   (step_settle host64 scenarioProvider
                      (ImageFailed (HostError "404")) s0 eq_refl)))))
             (HostError "404")).
Defined.

(** * Further properties of the provider *)

(** ** The grid of requested boxes, in binary64 *)

(** The two axes of the grid on the host's constants. *)
Lemma x_axis (j : Z) :
  0 <= j <= 30 ->
  let base := Host.PI host64 in
  let delta := SFdiv 53 1024 (Host.TWO_PI host64) (Binary64.ofInt (2 ^ j)) in
  finz base = true /\ valid64 base
  /\ (F2Q base == inject_Z 7074237752028440 * Binary64.pow2 (-51))%Q
  /\ finz delta = true /\ valid64 delta
  /\ (F2Q delta == inject_Z 7074237752028440 * Binary64.pow2 (-51 + 1 - j))%Q.
Proof.
  intros Hj base delta.
  destruct host64_constants as (Epi & Etwo & _).
  split; [unfold base; rewrite Epi; reflexivity |].
  split; [unfold base; rewrite Epi; reflexivity |].
  split; [unfold base; rewrite Epi; reflexivity |].
  apply (cell_width 7074237752028440 (-51) j (Host.TWO_PI host64)); try lia;
    rewrite Etwo; reflexivity.
Qed.

Lemma y_axis (j : Z) :
  0 <= j <= 30 ->
  let base := Host.PI_OVER_TWO host64 in
  let delta := SFdiv 53 1024 (Host.PI host64) (Binary64.ofInt (2 ^ j)) in
  finz base = true /\ valid64 base
  /\ (F2Q base == inject_Z 7074237752028440 * Binary64.pow2 (-52))%Q
  /\ finz delta = true /\ valid64 delta
  /\ (F2Q delta == inject_Z 7074237752028440 * Binary64.pow2 (-52 + 1 - j))%Q.
Proof.
  intros Hj base delta.
  destruct host64_constants as (Epi & _ & Ehalf).
  split; [unfold base; rewrite Ehalf; reflexivity |].
  split; [unfold base; rewrite Ehalf; reflexivity |].
  split; [unfold base; rewrite Ehalf; reflexivity |].
  apply (cell_width 7074237752028440 (-52) j (Host.PI host64)); try lia;
    rewrite Epi; reflexivity.
Qed.

(** The edges of the request on a scheme whose level-zero numbers of tiles
    are [2^a] and [2^b], at a level without overflow. *)
Lemma request_edges_pow2 (this : Provider.t spec_float) (tile : Tile.t spec_float)
  (a b : Z) :
  let scheme := Provider.tilingScheme this in
  let level := Tile.level tile in
  let l := locals host64 this tile in
  0 <= a -> TilingScheme.numberOfLevelZeroTilesX scheme = 2 ^ a ->
  0 <= b -> TilingScheme.numberOfLevelZeroTilesY scheme = 2 ^ b ->
  0 <= level -> 2 ^ a * 2 ^ level < 2 ^ 31 -> 2 ^ b * 2 ^ level < 2 ^ 31 ->
  let dx := SFdiv 53 1024 (Host.TWO_PI host64) (Binary64.ofInt (2 ^ (a + level))) in
  let dy := SFdiv 53 1024 (Host.PI host64) (Binary64.ofInt (2 ^ (b + level))) in
  let tileY :=
    SFsub 53 1024
      (SFsub 53 1024 (Binary64.ofInt (2 ^ (b + level))) (Binary64.ofInt (Tile.y tile)))
      (Binary64.ofInt 1) in
  (0 <= a + level <= 30 /\ 0 <= b + level <= 30)
  /\ Locals.xStart l = edge (Host.PI host64) dx (Binary64.ofInt (Tile.x tile))
  /\ Locals.xStop l
     = edge (Host.PI host64) dx
         (SFadd 53 1024 (Binary64.ofInt (Tile.x tile)) (Binary64.ofInt 1))
  /\ Locals.yStart l = edge (Host.PI_OVER_TWO host64) dy tileY
  /\ Locals.yStop l
     = edge (Host.PI_OVER_TWO host64) dy (SFadd 53 1024 tileY (Binary64.ofInt 1)).
Proof.
  intros scheme level l Ha HX0 Hb HY0 Hlevel HfitX HfitY dx dy tileY.
  destruct (request_edges this tile) as (Exs & Exe & Eys & Eye).
  fold scheme level l in Exs, Exe, Eys, Eye.
  rewrite HX0, HY0 in *.
  destruct (tile_count_exact a level Ha Hlevel HfitX) as (Ea & Hjx).
  destruct (tile_count_exact b level Hb Hlevel HfitY) as (Eb & Hjy).
  rewrite Ea, Eb in *.
  split; [split; assumption |].
  repeat split; assumption.
Qed.

Lemma SFeqb_refl (f : spec_float) : finz f = true -> valid64 f -> SFeqb f f = true.
Proof.
  intros Zf Vf. unfold SFeqb. rewrite (SFcompare_Q f f Zf Zf Vf Vf).
  assert (E : (F2Q f ?= F2Q f)%Q = Eq) by (apply Qeq_alt; reflexivity).
  rewrite E. reflexivity.
Qed.

Lemma two_pow_31 : 2 ^ 31 < 2 ^ 53.
Proof. apply Z.pow_lt_mono_r; lia. Qed.

Lemma pow_sum_fits (c level : Z) :
  0 <= c -> 0 <= level -> 2 ^ c * 2 ^ level = 2 ^ (c + level).
Proof. intros. rewrite Z.pow_add_r by lia. reflexivity. Qed.

(** X1.  Neighbouring columns share their edge: on a scheme of [2^a] columns
    at level zero, at a level at which the number of columns fits a signed
    32-bit integer, the east edge requested for a tile is the double
    requested as the west edge of the tile to its right, and it is a
    number. *)
Theorem adjacent_columns_share_edge :
  forall (this : Provider.t spec_float) (left right : Tile.t spec_float) (a : Z),
    let scheme := Provider.tilingScheme this in
    let X0 := TilingScheme.numberOfLevelZeroTilesX scheme in
    let level := Tile.level left in
    0 <= a -> X0 = 2 ^ a ->
    0 <= level ->
    X0 * 2 ^ level < 2 ^ 31 ->
    Tile.level right = level ->
    0 <= Tile.x left ->
    Tile.x right = Tile.x left + 1 ->
    Tile.x right < X0 * 2 ^ level ->
    Locals.xStop (locals host64 this left) = Locals.xStart (locals host64 this right)
    /\ SFeqb (Locals.xStop (locals host64 this left))
             (Locals.xStart (locals host64 this right)) = true.
Proof.
  intros this left right a scheme X0 level Ha HX0 Hlevel HfitX Hsame Hx0 Hx Hx1.
  destruct (request_edges this left) as (_ & El & _).
  destruct (request_edges this right) as (Er & _).
  fold scheme X0 in El, Er. rewrite Hsame in Er. fold level in El.
  rewrite HX0 in *.
  destruct (tile_count_exact a level Ha Hlevel HfitX) as (Ea & Hjx).
  rewrite Ea in El, Er.
  rewrite pow_sum_fits in Hx1 by lia.
  assert (Hj31 : 2 ^ (a + level) <= 2 ^ 30) by (apply Z.pow_le_mono_r; lia).
  pose proof two_pow_31 as H31.
  destruct (column_index_holds (Tile.x left) ltac:(lia)) as (_ & Ksucc).
  assert (Ekf : SFadd 53 1024 (Binary64.ofInt (Tile.x left)) (Binary64.ofInt 1)
                = Binary64.ofInt (Tile.x right)).
  { apply (holds_unique (Tile.x left + 1)); [exact Ksucc | | lia].
    rewrite Hx. apply ofInt_holds'. lia. }
  rewrite El, Er, Ekf.
  split; [reflexivity |].
  destruct (x_axis (a + level) Hjx) as (Zb & Vb & Qb & Zd & Vd & Qd).
  destruct (edge_bounds 7074237752028440 (-51) (a + level) ltac:(lia) ltac:(lia) Hjx
              _ _ Zb Vb Qb Zd Vd Qd (Tile.x right) (Binary64.ofInt (Tile.x right))
              ltac:(apply ofInt_holds'; lia) ltac:(lia)) as (Ze & Ve & _).
  apply SFeqb_refl; assumption.
Qed.

Lemma adjacent_columns_share_edge_witness :
  Locals.xStop (locals host64 scenarioProvider (tileAt 3 5 2 globe64))
  = Locals.xStart (locals host64 scenarioProvider (tileAt 3 6 7 globe64))
  /\ SFeqb (Locals.xStop (locals host64 scenarioProvider (tileAt 3 5 2 globe64)))
           (Locals.xStart (locals host64 scenarioProvider (tileAt 3 6 7 globe64))) = true.
Proof.
  apply (adjacent_columns_share_edge scenarioProvider (tileAt 3 5 2 globe64)
           (tileAt 3 6 7 globe64) 1);
    first [ reflexivity | simpl; lia ].
Defined.

(** X2.  Neighbouring rows share their edge, with the rows counted from the
    north: on a scheme of [2^b] rows at level zero, at a level at which the
    number of rows fits a signed 32-bit integer, the south edge requested for
    a tile is the double requested as the north edge of the tile of the next
    row, and it is a number. *)
Theorem adjacent_rows_share_edge :
  forall (this : Provider.t spec_float) (upper lower : Tile.t spec_float) (b : Z),
    let scheme := Provider.tilingScheme this in
    let Y0 := TilingScheme.numberOfLevelZeroTilesY scheme in
    let level := Tile.level upper in
    0 <= b -> Y0 = 2 ^ b ->
    0 <= level ->
    Y0 * 2 ^ level < 2 ^ 31 ->
    Tile.level lower = level ->
    0 <= Tile.y upper ->
    Tile.y lower = Tile.y upper + 1 ->
    Tile.y lower < Y0 * 2 ^ level ->
    Locals.yStart (locals host64 this upper) = Locals.yStop (locals host64 this lower)
    /\ SFeqb (Locals.yStart (locals host64 this upper))
             (Locals.yStop (locals host64 this lower)) = true.
Proof.
  intros this upper lower b scheme Y0 level Hb HY0 Hlevel HfitY Hsame Hy0 Hy Hy1.
  destruct (request_edges this upper) as (_ & _ & Eu & _).
  destruct (request_edges this lower) as (_ & _ & _ & El).
  fold scheme Y0 in El, Eu. rewrite Hsame in El. fold level in Eu.
  rewrite HY0 in *.
  destruct (tile_count_exact b level Hb Hlevel HfitY) as (Eb & Hjy).
  rewrite Eb in El, Eu.
  rewrite pow_sum_fits in Hy1, HfitY by lia.
  set (ny := 2 ^ (b + level)) in *.
  destruct (row_index_holds ny (Tile.y upper) ltac:(lia) HfitY) as (Ku & _).
  destruct (row_index_holds ny (Tile.y lower) ltac:(lia) HfitY) as (_ & Kl).
  replace (ny - Tile.y lower - 1 + 1) with (ny - Tile.y upper - 1) in Kl by lia.
  rewrite Eu, El.
  rewrite (holds_unique _ _ _ Kl Ku ltac:(lia)).
  split; [reflexivity |].
  destruct (y_axis (b + level) Hjy) as (Zb & Vb & Qb & Zd & Vd & Qd).
  destruct (edge_bounds 7074237752028440 (-52) (b + level) ltac:(lia) ltac:(lia) Hjy
              _ _ Zb Vb Qb Zd Vd Qd (ny - Tile.y upper - 1) _ Ku
              ltac:(fold ny; lia)) as (Ze & Ve & _).
  apply SFeqb_refl; assumption.
Qed.

Lemma adjacent_rows_share_edge_witness :
  Locals.yStart (locals host64 scenarioProvider (tileAt 3 5 2 globe64))
  = Locals.yStop (locals host64 scenarioProvider (tileAt 3 0 3 globe64))
  /\ SFeqb (Locals.yStart (locals host64 scenarioProvider (tileAt 3 5 2 globe64)))
           (Locals.yStop (locals host64 scenarioProvider (tileAt 3 0 3 globe64))) = true.
Proof.
  apply (adjacent_rows_share_edge scenarioProvider (tileAt 3 5 2 globe64)
           (tileAt 3 0 3 globe64) 0);
    first [ reflexivity | simpl; lia ].
Defined.

(** X3.  The outer tiles reach the bounds of the globe exactly: on a scheme
    of [2^a] by [2^b] tiles at level zero, at a level at which the numbers of
    tiles fit a signed 32-bit integer, the west edge of the first column is the double [-PI],
    the east edge of the last column is [PI], the north edge of the first
    row is [PI_OVER_TWO] and the south edge of the last row is
    [-PI_OVER_TWO]. *)
Theorem outer_tiles_reach_the_bounds :
  forall (this : Provider.t spec_float) (tile : Tile.t spec_float) (a b : Z),
    let scheme := Provider.tilingScheme this in
    let X0 := TilingScheme.numberOfLevelZeroTilesX scheme in
    let Y0 := TilingScheme.numberOfLevelZeroTilesY scheme in
    let level := Tile.level tile in
    let l := locals host64 this tile in
    0 <= a -> X0 = 2 ^ a ->
    0 <= b -> Y0 = 2 ^ b ->
    0 <= level ->
    X0 * 2 ^ level < 2 ^ 31 ->
    Y0 * 2 ^ level < 2 ^ 31 ->
    (Tile.x tile = 0 -> Locals.xStart l = SFopp (Host.PI host64))
    /\ (Tile.x tile = X0 * 2 ^ level - 1 -> Locals.xStop l = Host.PI host64)
    /\ (Tile.y tile = 0 -> Locals.yStop l = Host.PI_OVER_TWO host64)
    /\ (Tile.y tile = Y0 * 2 ^ level - 1
        -> Locals.yStart l = SFopp (Host.PI_OVER_TWO host64)).
Proof.
  intros this tile a b scheme X0 Y0 level l Ha HX0 Hb HY0 Hlevel HfitX HfitY.
  unfold X0, Y0 in *. rewrite HX0 in *. rewrite HY0 in *.
  destruct (request_edges_pow2 this tile a b Ha HX0 Hb HY0 Hlevel HfitX HfitY)
    as ((Hjx & Hjy) & Exs & Exe & Eys & Eye).
  fold level l in Exs, Exe, Eys, Eye, Hjx, Hjy.
  repeat rewrite pow_sum_fits in * by lia.
  assert (Hpx : 0 < 2 ^ (a + level)) by (apply Z.pow_pos_nonneg; lia).
  assert (Hpy : 0 < 2 ^ (b + level)) by (apply Z.pow_pos_nonneg; lia).
  pose proof two_pow_31 as H31.
  destruct (x_axis (a + level) Hjx) as (Zbx & Vbx & Qbx & Zdx & Vdx & Qdx).
  destruct (y_axis (b + level) Hjy) as (Zby & Vby & Qby & Zdy & Vdy & Qdy).
  split; [| split; [| split]].
  - intros Hx. rewrite Exs, Hx.
    eapply (edge_first 7074237752028440 (-51) (a + level)); try eassumption; try lia.
    apply ofInt_holds'. lia.
  - intros Hx. rewrite Exe.
    eapply (edge_last 7074237752028440 (-51) (a + level)); try eassumption; try lia.
    destruct (column_index_holds (Tile.x tile) ltac:(lia)) as (_ & K).
    replace (Tile.x tile + 1) with (2 ^ (a + level)) in K by lia. exact K.
  - intros Hy. rewrite Eye.
    eapply (edge_last 7074237752028440 (-52) (b + level)); try eassumption; try lia.
    destruct (row_index_holds (2 ^ (b + level)) (Tile.y tile) ltac:(lia) HfitY) as (_ & K).
    replace (2 ^ (b + level) - Tile.y tile - 1 + 1) with (2 ^ (b + level)) in K by lia.
    exact K.
  - intros Hy. rewrite Eys.
    eapply (edge_first 7074237752028440 (-52) (b + level)); try eassumption; try lia.
    destruct (row_index_holds (2 ^ (b + level)) (Tile.y tile) ltac:(lia) HfitY) as (K & _).
    replace (2 ^ (b + level) - Tile.y tile - 1) with 0 in K by lia. exact K.
Qed.

Lemma outer_tiles_reach_the_bounds_witness :
  let first := locals host64 scenarioProvider (tileAt 3 0 0 globe64) in
  let last := locals host64 scenarioProvider (tileAt 3 15 7 globe64) in
  Locals.xStart first = Extent.west globe64
  /\ Locals.yStop first = Extent.north globe64
  /\ Locals.xStop last = Extent.east globe64
  /\ Locals.yStart last = Extent.south globe64.
Proof.
  pose proof (outer_tiles_reach_the_bounds scenarioProvider (tileAt 3 0 0 globe64) 1 0
                ltac:(lia) eq_refl ltac:(lia) eq_refl ltac:(simpl; lia)
                ltac:(simpl; lia) ltac:(simpl; lia)) as (Hw & _ & Hn & _).
  pose proof (outer_tiles_reach_the_bounds scenarioProvider (tileAt 3 15 7 globe64) 1 0
                ltac:(lia) eq_refl ltac:(lia) eq_refl ltac:(simpl; lia)
                ltac:(simpl; lia) ltac:(simpl; lia)) as (_ & He & _ & Hs).
  split; [exact (Hw eq_refl) |].
  split; [exact (Hn eq_refl) |].
  split; [exact (He eq_refl) | exact (Hs eq_refl)].
Defined.

(** X4.  The children of a tile share its edges: on a scheme of [2^a] by
    [2^b] tiles at level zero, when the numbers of tiles of the children's
    level fit a signed 32-bit integer, a tile of the next level whose column is
    [2 x] starts at the west edge of the tile of column [x], one whose
    column is [2 x + 1] ends at its east edge, and likewise for the rows. *)
Theorem children_share_the_parents_edges :
  forall (this : Provider.t spec_float) (parent child : Tile.t spec_float) (a b : Z),
    let scheme := Provider.tilingScheme this in
    let X0 := TilingScheme.numberOfLevelZeroTilesX scheme in
    let Y0 := TilingScheme.numberOfLevelZeroTilesY scheme in
    let level := Tile.level parent in
    let lp := locals host64 this parent in
    let lc := locals host64 this child in
    0 <= a -> X0 = 2 ^ a ->
    0 <= b -> Y0 = 2 ^ b ->
    0 <= level ->
    Tile.level child = level + 1 ->
    X0 * 2 ^ (level + 1) < 2 ^ 31 ->
    Y0 * 2 ^ (level + 1) < 2 ^ 31 ->
    0 <= Tile.x parent < X0 * 2 ^ level ->
    0 <= Tile.y parent < Y0 * 2 ^ level ->
    (Tile.x child = 2 * Tile.x parent -> Locals.xStart lc = Locals.xStart lp)
    /\ (Tile.x child = 2 * Tile.x parent + 1 -> Locals.xStop lc = Locals.xStop lp)
    /\ (Tile.y child = 2 * Tile.y parent -> Locals.yStop lc = Locals.yStop lp)
    /\ (Tile.y child = 2 * Tile.y parent + 1 -> Locals.yStart lc = Locals.yStart lp).
Proof.
  intros this parent child a b scheme X0 Y0 level lp lc Ha HX0 Hb HY0 Hlevel Hchild
         HfitX HfitY Hx Hy.
  unfold X0, Y0 in *. rewrite HX0 in *. rewrite HY0 in *.
  assert (Hpl : 0 < 2 ^ level) by (apply Z.pow_pos_nonneg; lia).
  assert (Hpa : 0 < 2 ^ a) by (apply Z.pow_pos_nonneg; lia).
  assert (Hpb : 0 < 2 ^ b) by (apply Z.pow_pos_nonneg; lia).
  assert (H2 : 2 ^ (level + 1) = 2 * 2 ^ level) by (rewrite Z.pow_add_r by lia; lia).
  destruct (request_edges_pow2 this parent a b Ha HX0 Hb HY0 Hlevel
              ltac:(fold level; nia) ltac:(fold level; nia))
    as ((Hjx & Hjy) & Pxs & Pxe & Pys & Pye).
  destruct (request_edges_pow2 this child a b Ha HX0 Hb HY0
              ltac:(rewrite Hchild; lia) ltac:(rewrite Hchild; exact HfitX)
              ltac:(rewrite Hchild; exact HfitY))
    as ((Hjx' & Hjy') & Cxs & Cxe & Cys & Cye).
  rewrite Hchild in Cxs, Cxe, Cys, Cye, Hjx', Hjy'.
  fold level lp in Pxs, Pxe, Pys, Pye, Hjx, Hjy. fold lc in Cxs, Cxe, Cys, Cye.
  replace (a + (level + 1)) with (a + level + 1) in * by lia.
  replace (b + (level + 1)) with (b + level + 1) in * by lia.
  rewrite pow_sum_fits in Hx, Hy by lia.
  assert (H2x : 2 ^ (a + level + 1) = 2 * 2 ^ (a + level))
    by (rewrite Z.pow_add_r by lia; lia).
  assert (H2y : 2 ^ (b + level + 1) = 2 * 2 ^ (b + level))
    by (rewrite Z.pow_add_r by lia; lia).
  assert (HfX : 2 ^ (a + level + 1) < 2 ^ 31) by (apply Z.pow_lt_mono_r; lia).
  assert (HfY : 2 ^ (b + level + 1) < 2 ^ 31) by (apply Z.pow_lt_mono_r; lia).
  pose proof two_pow_31 as H31.
  destruct (x_axis (a + level) Hjx) as (Zbx & Vbx & Qbx & Zdx & Vdx & Qdx).
  destruct (x_axis (a + level + 1) Hjx') as (_ & _ & _ & Zdx' & Vdx' & Qdx').
  destruct (y_axis (b + level) Hjy) as (Zby & Vby & Qby & Zdy & Vdy & Qdy).
  destruct (y_axis (b + level + 1) Hjy') as (_ & _ & _ & Zdy' & Vdy' & Qdy').
  destruct (column_index_holds (Tile.x parent) ltac:(lia)) as (Kx & Kx1).
  destruct (row_index_holds (2 ^ (b + level)) (Tile.y parent) Hy ltac:(lia)) as (Ky & Ky1).
  split; [| split; [| split]].
  - intros Hc. rewrite Cxs, Pxs, Hc.
    apply (edge_refine 7074237752028440 (-51) (a + level) _ _ _ (Tile.x parent));
      try assumption; try lia.
    apply ofInt_holds'. lia.
  - intros Hc. rewrite Cxe, Pxe.
    apply (edge_refine 7074237752028440 (-51) (a + level) _ _ _ (Tile.x parent + 1));
      try assumption; try lia.
    destruct (column_index_holds (Tile.x child) ltac:(lia)) as (_ & K).
    replace (Tile.x child + 1) with (2 * (Tile.x parent + 1)) in K by lia. exact K.
  - intros Hc. rewrite Cye, Pye.
    apply (edge_refine 7074237752028440 (-52) (b + level) _ _ _
             (2 ^ (b + level) - Tile.y parent - 1 + 1));
      try assumption; try lia.
    destruct (row_index_holds (2 ^ (b + level + 1)) (Tile.y child) ltac:(lia) HfY)
      as (_ & K).
    replace (2 ^ (b + level + 1) - Tile.y child - 1 + 1)
      with (2 * (2 ^ (b + level) - Tile.y parent - 1 + 1)) in K by lia.
    exact K.
  - intros Hc. rewrite Cys, Pys.
    apply (edge_refine 7074237752028440 (-52) (b + level) _ _ _
             (2 ^ (b + level) - Tile.y parent - 1));
      try assumption; try lia.
    destruct (row_index_holds (2 ^ (b + level + 1)) (Tile.y child) ltac:(lia) HfY)
      as (K & _).
    replace (2 ^ (b + level + 1) - Tile.y child - 1)
      with (2 * (2 ^ (b + level) - Tile.y parent - 1)) in K by lia.
    exact K.
Qed.

Lemma children_share_the_parents_edges_witness :
  let parent := locals host64 scenarioProvider (tileAt 3 5 2 globe64) in
  let northwest := locals host64 scenarioProvider (tileAt 4 10 4 globe64) in
  let southeast := locals host64 scenarioProvider (tileAt 4 11 5 globe64) in
  Locals.xStart northwest = Locals.xStart parent
  /\ Locals.yStop northwest = Locals.yStop parent
  /\ Locals.xStop southeast = Locals.xStop parent
  /\ Locals.yStart southeast = Locals.yStart parent.
Proof.
  pose proof (children_share_the_parents_edges scenarioProvider (tileAt 3 5 2 globe64)
                (tileAt 4 10 4 globe64) 1 0
                ltac:(lia) eq_refl ltac:(lia) eq_refl ltac:(simpl; lia) eq_refl
                ltac:(simpl; lia) ltac:(simpl; lia) ltac:(simpl; lia) ltac:(simpl; lia))
    as (Hw & _ & Hn & _).
  pose proof (children_share_the_parents_edges scenarioProvider (tileAt 3 5 2 globe64)
                (tileAt 4 11 5 globe64) 1 0
                ltac:(lia) eq_refl ltac:(lia) eq_refl ltac:(simpl; lia) eq_refl
                ltac:(simpl; lia) ltac:(simpl; lia) ltac:(simpl; lia) ltac:(simpl; lia))
    as (_ & He & _ & Hs).
  split; [exact (Hw eq_refl) |].
  split; [exact (Hn eq_refl) |].
  split; [exact (He eq_refl) | exact (Hs eq_refl)].
Defined.

(** ** The numbers of tiles *)

Lemma ToInt32_range (z : Z) : - 2 ^ 31 <= ToInt32 z < 2 ^ 31.
Proof.
  unfold ToInt32.
  assert (H : 0 <= z mod 2 ^ 32 < 2 ^ 32) by (apply Z.mod_pos_bound; lia).
  destruct (2 ^ 31 <=? z mod 2 ^ 32) eqn:E.
  - apply Z.leb_le in E. lia.
  - apply Z.leb_gt in E. lia.
Qed.

Lemma ToInt32_congruent (z : Z) : (2 ^ 32 | ToInt32 z - z).
Proof.
  unfold ToInt32.
  pose proof (Z.div_mod z (2 ^ 32) ltac:(lia)) as Hdm.
  destruct (2 ^ 31 <=? z mod 2 ^ 32).
  - exists (- (z / 2 ^ 32) - 1). lia.
  - exists (- (z / 2 ^ 32)). lia.
Qed.

Lemma land_31 (b : Z) : Z.land (ToUint32 b) 31 = b mod 32.
Proof.
  unfold ToUint32.
  change 31 with (Z.ones 5).
  rewrite Z.land_ones by lia.
  change (2 ^ 5) with 32.
  apply Z.mod_mod_divide.
  exists (2 ^ 27). reflexivity.
Qed.

Lemma shiftLeft_count_mod_32 (a b : Z) : shiftLeft a b = shiftLeft a (b mod 32).
Proof.
  unfold shiftLeft. rewrite !land_31, Z.mod_mod by lia. reflexivity.
Qed.

(** X7.  The numbers of tiles are what 32-bit arithmetic makes of them: each
    is the signed 32-bit integer congruent, modulo 2^32, to the level-zero
    number times 2 to the power (level modulo 32). *)
Theorem tile_counts_are_32_bit :
  forall (N : Type) (num : JSNumber N) (str : JSToString N) (host : Host.t N)
         (this : Provider.t N) (tile : Tile.t N),
    let X0 := TilingScheme.numberOfLevelZeroTilesX (Provider.tilingScheme this) in
    let Y0 := TilingScheme.numberOfLevelZeroTilesY (Provider.tilingScheme this) in
    let l := locals host this tile in
    (- 2 ^ 31 <= Locals.tilesInXDirection l < 2 ^ 31
     /\ (2 ^ 32 | Locals.tilesInXDirection l - X0 * 2 ^ (Tile.level tile mod 32)))
    /\ (- 2 ^ 31 <= Locals.tilesInYDirection l < 2 ^ 31
        /\ (2 ^ 32 | Locals.tilesInYDirection l - Y0 * 2 ^ (Tile.level tile mod 32))).
Proof.
  intros N num str host this tile X0 Y0 l.
  assert (H : forall a b,
             - 2 ^ 31 <= shiftLeft a b < 2 ^ 31
             /\ (2 ^ 32 | shiftLeft a b - a * 2 ^ (b mod 32))).
  { intros a b. unfold shiftLeft. split; [apply ToInt32_range |].
    rewrite land_31.
    assert (Hk : 0 <= b mod 32) by (apply Z.mod_pos_bound; lia).
    rewrite Z.shiftl_mul_pow2 by exact Hk.
    destruct (ToInt32_congruent (ToInt32 a * 2 ^ (b mod 32))) as [q Hq].
    destruct (ToInt32_congruent a) as [r Hr].
    exists (q + r * 2 ^ (b mod 32)). nia. }
  split; apply H.
Qed.

(** X8.  Only the level modulo 32 matters: two tiles with the same column
    and row whose levels agree modulo 32 are asked for with the same url. *)
Theorem levels_wrap_at_32 :
  forall (N : Type) (num : JSNumber N) (str : JSToString N) (host : Host.t N)
         (this : Provider.t N) (context : Context) (tile1 tile2 : Tile.t N),
    Tile.level tile2 mod 32 = Tile.level tile1 mod 32 ->
    Tile.x tile2 = Tile.x tile1 ->
    Tile.y tile2 = Tile.y tile1 ->
    locals host this tile2 = locals host this tile1
    /\ Pipeline.requestUrl (createTileEllipsoidGeometry host this context tile2)
       = Pipeline.requestUrl (createTileEllipsoidGeometry host this context tile1).
Proof.
  intros N num str host this context tile1 tile2 Hlevel Hx Hy.
  assert (Hlocals : locals host this tile2 = locals host this tile1).
  { unfold locals.
    rewrite (shiftLeft_count_mod_32 _ (Tile.level tile2)),
            (shiftLeft_count_mod_32 _ (Tile.level tile1)).
    rewrite (shiftLeft_count_mod_32
               (TilingScheme.numberOfLevelZeroTilesY (Provider.tilingScheme this))
               (Tile.level tile2)),
            (shiftLeft_count_mod_32
               (TilingScheme.numberOfLevelZeroTilesY (Provider.tilingScheme this))
               (Tile.level tile1)).
    rewrite Hlevel, Hx, Hy. reflexivity. }
  split; [exact Hlocals |].
  change (Locals.url (locals host this tile2) = Locals.url (locals host this tile1)).
  now rewrite Hlocals.
Qed.

Lemma levels_wrap_at_32_witness :
  Pipeline.requestUrl
    (createTileEllipsoidGeometry host64 scenarioProvider RenderContext
       (tileAt 35 5 2 globe64))
  = Pipeline.requestUrl
      (createTileEllipsoidGeometry host64 scenarioProvider RenderContext
         (tileAt 3 5 2 globe64)).
Proof.
  exact (proj2 (levels_wrap_at_32 spec_float _ _ host64 scenarioProvider
                  RenderContext (tileAt 3 5 2 globe64) (tileAt 35 5 2 globe64)
                  eq_refl eq_refl eq_refl)).
Defined.

(** X9.  A number of columns that has wrapped to zero is divided by all the
    same: in binary64 the width of a tile is then infinite, and for the first
    column the request carries [NaN] as its west edge and [Infinity] as its
    east edge. *)
Theorem zero_columns_give_NaN :
  forall (host : Host.t spec_float) (this : Provider.t spec_float)
         (tile : Tile.t spec_float),
    let l := locals host this tile in
    Host.PI host = Math_PI ->
    Host.TWO_PI host = nmul (ofInt 2) Math_PI ->
    Locals.tilesInXDirection l = 0 ->
    Tile.x tile = 0 ->
    numberToString (Locals.xDelta l) = "Infinity"
    /\ Locals.bbox l
       = "NaN%2C" ++ numberToString (Locals.yStart l)
         ++ "%2CInfinity%2C" ++ numberToString (Locals.yStop l).
Proof.
  intros host this tile l Hpi Htwo Hzero Hx.
  assert (Hdelta : Locals.xDelta l = S754_infinity false).
  { change (Locals.xDelta l)
      with (ndiv (Host.TWO_PI host) (ofInt (Locals.tilesInXDirection l))).
    rewrite Htwo, Hzero. reflexivity. }
  assert (Hwest : Locals.xStart l = S754_nan).
  { change (Locals.xStart l)
      with (nadd (nneg (Host.PI host))
                 (nmul (Locals.xDelta l) (ofInt (Tile.x tile)))).
    rewrite Hdelta, Hpi, Hx. reflexivity. }
  assert (Heast : Locals.xStop l = S754_infinity false).
  { change (Locals.xStop l)
      with (nadd (nneg (Host.PI host))
                 (nmul (Locals.xDelta l) (nadd (ofInt (Tile.x tile)) (ofInt 1)))).
    rewrite Hdelta, Hpi, Hx. reflexivity. }
  split; [rewrite Hdelta; reflexivity |].
  change (Locals.bbox l)
    with (numberToString (Locals.xStart l) ++ "%2C"
          ++ numberToString (Locals.yStart l) ++ "%2C"
          ++ numberToString (Locals.xStop l) ++ "%2C"
          ++ numberToString (Locals.yStop l)).
  rewrite Hwest, Heast. reflexivity.
Qed.

Lemma zero_columns_give_NaN_witness :
  Locals.bbox (locals host64 scenarioProvider (tileAt 31 0 0 globe64))
  = "NaN%2C1.5707963282578148%2CInfinity%2C1.5707963267948966".
Proof.
  rewrite (proj2 (zero_columns_give_NaN host64 scenarioProvider
                    (tileAt 31 0 0 globe64) eq_refl eq_refl eq_refl eq_refl)).
  vm_compute. reflexivity.
Defined.

(** ** The token parameter *)

Lemma hasAmp_append (a b : string) : hasAmp (a ++ b) = orb (hasAmp a) (hasAmp b).
Proof.
  induction a as [| c a IH]; simpl; [reflexivity |].
  rewrite IH. apply orb_assoc.
Qed.

Lemma hasAmp_substring (s : string) :
  hasAmp s = false -> forall n m, hasAmp (substring n m s) = false.
Proof.
  induction s as [| c s IH]; intros H n m.
  - destruct n, m; reflexivity.
  - simpl in H. apply orb_false_iff in H. destruct H as [Hc Hs].
    destruct n as [| n].
    + destruct m as [| m]; simpl; [reflexivity |].
      rewrite Hc. simpl. apply IH. exact Hs.
    + simpl. apply IH. exact Hs.
Qed.

Lemma hasAmp_zeros (n : nat) : hasAmp (Binary64.zeros n) = false.
Proof.
  induction n as [| n IH]; simpl; [reflexivity | exact IH].
Qed.

Lemma hasAmp_string_of_uint (d : Decimal.uint) :
  hasAmp (NilEmpty.string_of_uint d) = false.
Proof.
  induction d; simpl; assumption || reflexivity.
Qed.

Lemma hasAmp_digitsOf (z : Z) : hasAmp (Binary64.digitsOf z) = false.
Proof.
  unfold Binary64.digitsOf, NilZero.string_of_int.
  destruct (Z.to_int z) as [d | d]; unfold NilZero.string_of_uint.
  - destruct d; try reflexivity; apply hasAmp_string_of_uint.
  - simpl. destruct d; try reflexivity; apply hasAmp_string_of_uint.
Qed.

Lemma hasAmp_list (l : list ascii) :
  hasAmp (string_of_list_ascii l) = existsb (fun c => Ascii.eqb c "&") l.
Proof.
  induction l as [| c l IH]; simpl; [reflexivity | now rewrite IH].
Qed.

Lemma existsb_reverse {A : Type} (f : A -> bool) (l : list A) :
  existsb f (List.rev l) = existsb f l.
Proof.
  induction l as [| a l IH]; simpl; [reflexivity |].
  rewrite existsb_app, IH. simpl. rewrite orb_false_r. apply orb_comm.
Qed.

Lemma existsb_stripZeros (f : ascii -> bool) (l : list ascii) :
  existsb f l = false -> existsb f (Binary64.stripZeros l) = false.
Proof.
  induction l as [| c l IH]; intros H; [reflexivity |].
  simpl in H. apply orb_false_iff in H. destruct H as [Hc Hl].
  assert (Hcases : Binary64.stripZeros (c :: l) = Binary64.stripZeros l
                   \/ Binary64.stripZeros (c :: l) = c :: l).
  { destruct c as [[|] [|] [|] [|] [|] [|] [|] [|]]; simpl; auto. }
  destruct Hcases as [-> | ->].
  - apply IH. exact Hl.
  - simpl. now rewrite Hc, Hl.
Qed.

Lemma hasAmp_trimTrailingZeros (s : string) :
  hasAmp s = false -> hasAmp (Binary64.trimTrailingZeros s) = false.
Proof.
  intros H. unfold Binary64.trimTrailingZeros.
  rewrite hasAmp_list, existsb_reverse.
  apply existsb_stripZeros.
  rewrite existsb_reverse, <- hasAmp_list, string_of_list_ascii_of_string.
  exact H.
Qed.

Lemma hasAmp_layout (d : string) (n : Z) :
  hasAmp d = false -> hasAmp (Binary64.layout d n) = false.
Proof.
  intros H. unfold Binary64.layout.
  repeat match goal with
         | |- context [if ?b then _ else _] => destruct b
         end;
    repeat (rewrite hasAmp_append || simpl hasAmp);
    rewrite ?H, ?hasAmp_zeros, ?hasAmp_digitsOf, ?(hasAmp_substring d H);
    reflexivity.
Qed.

(** Number::toString never yields the character [&]. *)
Lemma hasAmp_toString (x : spec_float) : hasAmp (Binary64.toString x) = false.
Proof.
  destruct x as [s | s | | s m e]; simpl.
  - reflexivity.
  - destruct s; reflexivity.
  - reflexivity.
  - assert (H : hasAmp (Binary64.finiteToString m e) = false).
    { unfold Binary64.finiteToString.
      destruct (Binary64.shortestDigits _ _ _ _ _) as [d k].
      apply hasAmp_layout, hasAmp_trimTrailingZeros, hasAmp_digitsOf. }
    destruct s; simpl; exact H.
Qed.

Lemma ampThenT_without_amp (a : string) : hasAmp a = false -> ampThenT a = false.
Proof.
  induction a as [| c a IH]; intros H; [reflexivity |].
  simpl in H. apply orb_false_iff in H. destruct H as [Hc Ha].
  simpl. rewrite Hc. simpl. apply IH. exact Ha.
Qed.

Lemma ampThenT_append (a b : string) :
  hasAmp a = false -> ampThenT (a ++ b) = ampThenT b.
Proof.
  induction a as [| c a IH]; intros H; [reflexivity |].
  simpl in H. apply orb_false_iff in H. destruct H as [Hc Ha].
  simpl. rewrite Hc. simpl. apply IH. exact Ha.
Qed.

Lemma includes_token_ampThenT (s : string) :
  includes s "&token=" = true -> ampThenT s = true.
Proof.
  induction s as [| c s IH]; intros H.
  - discriminate H.
  - change (orb (if ascii_dec "&" c then prefix "token=" s else false)
                (includes s "&token=") = true) in H.
    apply orb_true_iff in H. destruct H as [H | H].
    + destruct (ascii_dec "&" c) as [<- |]; [| discriminate H].
      destruct s as [| d s]; [discriminate H |].
      change ((if ascii_dec "t" d then prefix "oken=" s else false) = true) in H.
      destruct (ascii_dec "t" d) as [<- |]; [| discriminate H].
      reflexivity.
    + simpl. rewrite (IH H). apply orb_true_r.
Qed.

Lemma prefix_append (n b : string) : prefix n (n ++ b) = true.
Proof.
  induction n as [| c n IH].
  - destruct b; reflexivity.
  - change ((if ascii_dec c c then prefix n (n ++ b) else false) = true).
    destruct (ascii_dec c c) as [_ | Hne]; [exact IH | now elim Hne].
Qed.

Lemma includes_append (a n b : string) : includes (a ++ n ++ b) n = true.
Proof.
  induction a as [| c a IH].
  - change (includes (n ++ b) n = true).
    destruct (n ++ b) as [| d r] eqn:E.
    + change (orb (prefix n EmptyString) false = true).
      rewrite <- E, prefix_append. reflexivity.
    + change (orb (prefix n (String d r)) (includes r n) = true).
      rewrite <- E, prefix_append. reflexivity.
  - change (orb (prefix n (String c (a ++ n ++ b))) (includes (a ++ n ++ b) n) = true).
    rewrite IH. apply orb_true_r.
Qed.

Lemma plain_request_unfold {N : Type} {num : JSNumber N} {str : JSToString N}
  (host : Host.t N) (this : Provider.t N) (tile : Tile.t N) :
  Provider._proxy this = None ->
  let l := locals host this tile in
  let base :=
    Provider.url this
    ++ "/exportImage?format=tiff&f=image&size=256%2C256&bbox="
    ++ numberToString (Locals.xStart l) ++ "%2C"
    ++ numberToString (Locals.yStart l) ++ "%2C"
    ++ numberToString (Locals.xStop l) ++ "%2C"
    ++ numberToString (Locals.yStop l) in
  Locals.url l
  = if truthy (Provider.token this)
    then base ++ "&token=" ++ ToString (Provider.token this)
    else base.
Proof.
  intros Hproxy. unfold locals. simpl. rewrite Hproxy. reflexivity.
Qed.

Lemma no_token_in_plain_url (u w s e n : string) :
  hasAmp u = false -> hasAmp w = false -> hasAmp s = false ->
  hasAmp e = false -> hasAmp n = false ->
  ampThenT (u ++ "/exportImage?format=tiff&f=image&size=256%2C256&bbox="
            ++ w ++ "%2C" ++ s ++ "%2C" ++ e ++ "%2C" ++ n) = false.
Proof.
  intros Hu Hw Hs He Hn.
  rewrite (ampThenT_append u) by exact Hu. simpl.
  rewrite (ampThenT_append w) by exact Hw. simpl.
  rewrite (ampThenT_append s) by exact Hs. simpl.
  rewrite (ampThenT_append e) by exact He. simpl.
  apply ampThenT_without_amp. exact Hn.
Qed.

(** X12.  Without a proxy, and for a provider url free of [&], the request
    carries a token parameter exactly when the provider's token is a
    non-empty string: whatever the tile, and whatever the numbers of the box
    print as, [&token=] occurs in the url if and only if the token is truthy.
    In binary64. *)
Theorem token_parameter_iff_token :
  forall (host : Host.t spec_float) (this : Provider.t spec_float)
         (context : Context) (tile : Tile.t spec_float),
    Provider._proxy this = None ->
    hasAmp (Provider.url this) = false ->
    includes
      (Pipeline.requestUrl (createTileEllipsoidGeometry host this context tile))
      "&token="
    = truthy (Provider.token this).
Proof.
  intros host this context tile Hproxy Hurl.
  change (Pipeline.requestUrl (createTileEllipsoidGeometry host this context tile))
    with (Locals.url (locals host this tile)).
  rewrite (plain_request_unfold host this tile Hproxy).
  cbv zeta.
  destruct (truthy (Provider.token this)).
  - apply includes_append.
  - destruct (includes _ "&token=") eqn:E; [| reflexivity].
    apply includes_token_ampThenT in E.
    rewrite no_token_in_plain_url in E;
      first [ discriminate E | exact Hurl | apply hasAmp_toString ].
Qed.

Lemma token_parameter_iff_token_witness :
  includes
    (Pipeline.requestUrl
       (createTileEllipsoidGeometry host64 tokenProvider RenderContext
          (tileAt 3 5 2 globe64)))
    "&token=" = true
  /\ includes
       (Pipeline.requestUrl
          (createTileEllipsoidGeometry host64 emptyTokenProvider RenderContext
             (tileAt 31 0 0 globe64)))
       "&token=" = false.
Proof.
  split.
  - exact (token_parameter_iff_token host64 tokenProvider RenderContext
             (tileAt 3 5 2 globe64) eq_refl eq_refl).
  - exact (token_parameter_iff_token host64 emptyTokenProvider RenderContext
             (tileAt 31 0 0 globe64) eq_refl eq_refl).
Defined.

(** ** The life of a provider *)

(** The arrival of the metadata sets [ready] and the logo and touches
    nothing a tile request reads: a request made after it is the request made
    before it, its continuation behaves the same, and the scheme, hence the
    estimate, is unchanged. *)
Lemma metadata_leaves_requests_alone :
  forall (N : Type) (num : JSNumber N) (str : JSToString N) (host : Host.t N)
         (this : Provider.t N) (copyrightText : string) (context : Context)
         (tile : Tile.t N) (o : Outcome) (s : Pipeline.t N),
    let that := metadataLoaded this copyrightText in
    Provider.ready that = Some true
    /\ createTileEllipsoidGeometry host that context tile
       = createTileEllipsoidGeometry host this context tile
    /\ settle host that o s = settle host this o s
    /\ computeDesiredGranularity (Provider.tilingScheme that) tile
       = computeDesiredGranularity (Provider.tilingScheme this) tile.
Proof.
  intros. repeat split.
Qed.

(** X14.  What the constructor returns: the url, token and proxy of the
    description, always the default geographic scheme, and [ready] not yet
    set; so two providers, whatever their descriptions, ask for the same box
    for the same tile. *)
Theorem constructed_providers_agree_on_the_box :
  forall (N : Type) (num : JSNumber N) (str : JSToString N) (host : Host.t N)
         (description1 description2 : option Description.t)
         (this1 this2 : Provider.t N) (tile : Tile.t N),
    EsriImageServerTerrainProvider host description1 = inr this1 ->
    EsriImageServerTerrainProvider host description2 = inr this2 ->
    (exists d, description1 = Some d
               /\ Description.url d = Some (Provider.url this1)
               /\ Provider.token this1 = Description.token d
               /\ Provider._proxy this1 = Description.proxy d)
    /\ Provider.tilingScheme this1 = Host.GeographicTilingScheme host
    /\ Provider.ready this1 = None
    /\ Locals.bbox (locals host this1 tile) = Locals.bbox (locals host this2 tile).
Proof.
  intros N num str host description1 description2 this1 this2 tile H1 H2.
  unfold EsriImageServerTerrainProvider in H1, H2.
  destruct description1 as [d1 |]; [| discriminate H1].
  destruct description2 as [d2 |]; [| discriminate H2].
  simpl in H1, H2.
  destruct (Description.url d1) as [u1 |] eqn:E1; [| discriminate H1].
  destruct (Description.url d2) as [u2 |] eqn:E2; [| discriminate H2].
  injection H1 as <-. injection H2 as <-.
  split; [exists d1; repeat split; exact E1 |].
  repeat split.
Qed.

Lemma constructed_providers_agree_on_the_box_witness :
  Locals.bbox (locals host64 scenarioProvider (tileAt 3 5 2 globe64))
  = Locals.bbox (locals host64 emptyTokenProvider (tileAt 3 5 2 globe64)).
Proof.
  exact (proj2 (proj2 (proj2
           (constructed_providers_agree_on_the_box spec_float _ _ host64
              (Some scenarioDescription) (Some emptyTokenDescription)
              scenarioProvider emptyTokenProvider (tileAt 3 5 2 globe64)
              eq_refl eq_refl)))).
Defined.
